(** * Space Invaders (turtle): a shallow embedding of the simulation core

    The Python sources under [src/space_invaders] are embedded as pure
    functions over explicit state records.  Turtle coordinates are Python
    floats; they are idealised here as exact rationals ([Q]), and distance
    tests are decided on squares ([distance_lt_sqrt] relates them to the
    real square root).  Python object
    identity (used by [in], [remove] and [set] on turtles) is an explicit
    [nat] identifier carried by every object.  Sound and drawing are external
    collaborators and are left out of the state; so are the animation
    objects created while a collision is resolved inside a frame (explosions,
    the bonus-life animation, the damage flash of a block), which only
    redraw.  The fade of the turn message and the explosion of [end_game]
    are kept, with the timers they arm. *)

From Stdlib Require Import QArith Qround ZArith Bool Reals Qreals Psatz.
From stdpp Require Import base list gmap sets strings.

Local Open Scope Z_scope.

(** * Part I: the model *)

(** ** Rational helpers *)

(** Python's [a < b] on floats. *)
Definition Qltb (a b : Q) : bool := negb (Qle_bool b a).

(** Python's [int(x)] on a float: truncation towards zero. *)
Definition int_of (q : Q) : Z :=
  if Qle_bool 0 q then Qfloor q else Qceiling q.

(** ** game_specs.py *)

Module GameSpecs.
Definition SCREEN_WIDTH : Q := 960.
Definition SCREEN_HEIGHT : Q := 1024.
Definition WALLS_left : Q := (SCREEN_WIDTH / 2 * -1)%Q.
Definition WALLS_right : Q := (SCREEN_WIDTH / 2)%Q.
Definition WALLS_top : Q := (SCREEN_HEIGHT / 2)%Q.
Definition WALLS_bottom : Q := (SCREEN_HEIGHT / 2 * -1)%Q.
Definition MAX_ENEMY_LASERS : nat := 1.
Definition LASER_VELOCITY : Q := 10.
Definition BLOCK_SIZE : Q := 25.
Definition LIVES : Z := 3.
Definition MAX_LIVES : Z := 5.
Definition BONUS_LIFE_THRESHOLD : Z := 2000.
Definition POINTS_PER_ENEMY : Z := 20.
Definition BOSS_BONUS_POINTS : Z := 300.
End GameSpecs.
Import GameSpecs.

(** ** Turtle positions and distances *)

Record Pos := mkPos { px : Q; py : Q }.

(** Square of [Turtle.distance]. *)
Definition dist2 (a b : Pos) : Q :=
  ((px a - px b) * (px a - px b) + (py a - py b) * (py a - py b))%Q.

(** [a.distance(b) < threshold].  The distance is the square root of
    [dist2 a b], so it is below [threshold] exactly when the threshold is
    positive and [dist2 a b] is below its square. *)
Definition distance_lt (a b : Pos) (threshold : Q) : bool :=
  Qltb 0 threshold && Qltb (dist2 a b) (threshold * threshold).

(** The drawable base class: every game object is a turtle with an identity
    and a position. *)
Class Turtle (T : Type) := { ident : T -> nat; position : T -> Pos }.

(** ** The screen's timer queue

    [screen.ontimer(callback, ms)] is single-shot; the callbacks of the
    simulation core are closures, represented by what they capture. *)

Inductive Callback :=
| cb_game_loop                      (* ScreenGame.game_loop *)
| cb_movement (current_id : Z)      (* callback in Aliens.start_movement_loop *)
| cb_shooting (current_id : Z)      (* callback in Aliens.alien_shoot *)
| cb_resume_game                    (* resume_game in LevelManager.next_level *)
| cb_start_player2_turn             (* ScreenGame.start_player2_turn *)
| cb_fade_out (step : nat)          (* fade_out(step) in ScoreBoard.show_turn_transition *)
| cb_play_animation.                (* Explosion.play_animation *)

#[export] Instance Callback_eq_dec : EqDecision Callback.
Proof. solve_decision. Defined.

Module Screen.
(** Armed timers, oldest first, each with its delay in milliseconds. *)
Definition t := list (Callback * Z).
Definition ontimer (cb : Callback) (ms : Z) (scr : t) : t := scr ++ [(cb, ms)].
(** How many timers of the queue are armed with a given callback. *)
Definition armed (cb : Callback) (scr : t) : nat :=
  length (filter (fun timer => fst timer = cb) scr).
End Screen.

(** ** laser.py and enemy_laser.py *)

Module Laser.
Record t := mk {
  laser_id : nat;
  laser_pos : Pos;
  active : bool;
  shown : bool
}.

(** [__init__]: visible and active at the given position. *)
Definition init (id : nat) (p : Pos) : t := mk id p true true.

(** [laser.active = False; laser.hideturtle()]. *)
Definition deactivate (l : t) : t := mk (laser_id l) (laser_pos l) false false.

Definition sety (y : Q) (l : t) : t :=
  mk (laser_id l) (mkPos (px (laser_pos l)) y) (active l) (shown l).

(** [Laser.move]: up by the laser velocity, inactive above the top wall. *)
Definition move (l : t) : t :=
  if active l then
    let l := sety (py (laser_pos l) + LASER_VELOCITY)%Q l in
    if Qltb WALLS_top (py (laser_pos l)) then deactivate l else l
  else l.
End Laser.

#[export] Instance Laser_Turtle : Turtle Laser.t :=
  {| ident := Laser.laser_id; position := Laser.laser_pos |}.

Module EnemyLaser.
(** [EnemyLaser.move]: down by the laser velocity, inactive below the bottom
    wall. *)
Definition move (l : Laser.t) : Laser.t :=
  if Laser.active l then
    let l := Laser.sety (py (Laser.laser_pos l) - LASER_VELOCITY)%Q l in
    if Qltb (py (Laser.laser_pos l)) WALLS_bottom then Laser.deactivate l else l
  else l.
End EnemyLaser.

(** Assigning [active = False] through a reference to a laser held in a
    list: the object with that identity is updated in place. *)
Definition deactivate_in (id : nat) (ls : list Laser.t) : list Laser.t :=
  map (fun l => if Nat.eqb (Laser.laser_id l) id then Laser.deactivate l else l) ls.

(** ** shield_blocks.py: ShieldBlock *)

Module ShieldBlock.

Inductive Color := green | yellow | red.

Record t := mk {
  block_id : nat;
  block_pos : Pos;
  hp : Z;
  active : bool;
  color : Color;
  shown : bool
}.

(** [__init__]: green, active, three hit points. *)
Definition init (id : nat) (p : Pos) : t :=
  mk id p 3 true green true.

Definition set_color (c : Color) (b : t) : t :=
  mk (block_id b) (block_pos b) (hp b) (active b) c (shown b).

(** [take_damage]. *)
Definition take_damage (b : t) : t :=
  let b := mk (block_id b) (block_pos b) (hp b - 1) (active b) (color b) (shown b) in
  if hp b =? 2 then set_color yellow b
  else if hp b =? 1 then set_color red b
  else if hp b <=? 0 then mk (block_id b) (block_pos b) (hp b) false (color b) false
  else b.

(** A hit as the collision passes resolve it: [take_damage] is only called
    on a block whose [active] flag is set
    ([if block.active and ...: block.take_damage()]). *)
Definition resolve_hit (b : t) : t :=
  if active b then take_damage b else b.

(** The colour shown for each number of hit points (a destroyed block keeps
    its last colour, red, and is hidden). *)
Definition color_of_hp (h : Z) : Color :=
  if 3 <=? h then green else if h =? 2 then yellow else red.

End ShieldBlock.

#[export] Instance ShieldBlock_Turtle : Turtle ShieldBlock.t :=
  {| ident := ShieldBlock.block_id; position := ShieldBlock.block_pos |}.

(** ** space_ship.py *)

Module SpaceShip.

Record t := mk {
  ship_id : nat;
  ship_pos : Pos;
  shown : bool;
  moving_right : bool;
  moving_left : bool;
  lasers : list Laser.t;
  shooting : bool;
  shoot_loop_active : bool;
  lives : Z;
  score : Z;
  points_since_last_life : Z;
  last_shot_time : Q;
  shot_cooldown : Q
}.

(** Set in [__init__] from the screen dimensions and never reassigned. *)
Definition ship_width : Q := (SCREEN_WIDTH * (12 # 100))%Q.
Definition ship_height : Q := (SCREEN_HEIGHT * (15 # 1000))%Q.
Definition bottom_margin : Q := (SCREEN_HEIGHT * (15 # 100))%Q.

(** [__init__]. *)
Definition init (id : nat) (p : Pos) : t :=
  mk id p true false false [] false false LIVES 0 0 0 (15 # 10).

Definition with_pos (p : Pos) (s : t) : t :=
  mk (ship_id s) p (shown s) (moving_right s) (moving_left s) (lasers s)
     (shooting s) (shoot_loop_active s) (lives s) (score s)
     (points_since_last_life s) (last_shot_time s) (shot_cooldown s).

Definition with_shown (b : bool) (s : t) : t :=
  mk (ship_id s) (ship_pos s) b (moving_right s) (moving_left s) (lasers s)
     (shooting s) (shoot_loop_active s) (lives s) (score s)
     (points_since_last_life s) (last_shot_time s) (shot_cooldown s).

Definition with_lasers (ls : list Laser.t) (s : t) : t :=
  mk (ship_id s) (ship_pos s) (shown s) (moving_right s) (moving_left s) ls
     (shooting s) (shoot_loop_active s) (lives s) (score s)
     (points_since_last_life s) (last_shot_time s) (shot_cooldown s).

Definition with_lives (n : Z) (s : t) : t :=
  mk (ship_id s) (ship_pos s) (shown s) (moving_right s) (moving_left s)
     (lasers s) (shooting s) (shoot_loop_active s) n (score s)
     (points_since_last_life s) (last_shot_time s) (shot_cooldown s).

Definition with_score (n : Z) (s : t) : t :=
  mk (ship_id s) (ship_pos s) (shown s) (moving_right s) (moving_left s)
     (lasers s) (shooting s) (shoot_loop_active s) (lives s) n
     (points_since_last_life s) (last_shot_time s) (shot_cooldown s).

Definition with_points_since_last_life (n : Z) (s : t) : t :=
  mk (ship_id s) (ship_pos s) (shown s) (moving_right s) (moving_left s)
     (lasers s) (shooting s) (shoot_loop_active s) (lives s) (score s)
     n (last_shot_time s) (shot_cooldown s).

Definition with_last_shot_time (q : Q) (s : t) : t :=
  mk (ship_id s) (ship_pos s) (shown s) (moving_right s) (moving_left s)
     (lasers s) (shooting s) (shoot_loop_active s) (lives s) (score s)
     (points_since_last_life s) q (shot_cooldown s).

(** [go_right]. *)
Definition go_right (s : t) : t :=
  let new_x := (px (ship_pos s) + 20)%Q in
  if Qle_bool new_x (WALLS_right - ship_width / 2)
  then with_pos (mkPos new_x (py (ship_pos s))) s
  else s.

(** [go_left]. *)
Definition go_left (s : t) : t :=
  let new_x := (px (ship_pos s) - 20)%Q in
  if Qle_bool (WALLS_left + ship_width / 2) new_x
  then with_pos (mkPos new_x (py (ship_pos s))) s
  else s.

(** [fire], with the clock reading [time()] and the identity of the laser
    object it may create as inputs. *)
Definition fire (current_time : Q) (fresh : nat) (s : t) : t :=
  if negb (existsb Laser.active (lasers s))
     || Qle_bool (shot_cooldown s) (current_time - last_shot_time s)
  then
    let s := with_last_shot_time current_time s in
    let laser_y := (py (ship_pos s) + ship_height / 2 + 20)%Q in
    let laser := Laser.init fresh (mkPos (px (ship_pos s)) laser_y) in
    with_lasers (lasers s ++ [laser]) s
  else s.

(** [update_lasers]. *)
Definition update_lasers (s : t) : t :=
  with_lasers (filter (fun l => Laser.active l = true) (map Laser.move (lasers s))) s.

(** [clear_lasers]: the list is emptied (its lasers are hidden and
    deactivated, and no longer reachable from the ship). *)
Definition clear_lasers (s : t) : t := with_lasers [] s.

(** [reset_ship_position]. *)
Definition reset_ship_position (s : t) : t :=
  with_lasers [] (with_pos (mkPos 0 (WALLS_bottom + bottom_margin)%Q) s).

(** [stop_moving]. *)
Definition stop_moving (s : t) : t :=
  mk (ship_id s) (ship_pos s) (shown s) false false (lasers s)
     false (shoot_loop_active s) (lives s) (score s)
     (points_since_last_life s) (last_shot_time s) (shot_cooldown s).

(** [handle_hit]. *)
Definition handle_hit (s : t) : t :=
  reset_ship_position (with_lives (lives s - 1) s).

End SpaceShip.

#[export] Instance SpaceShip_Turtle : Turtle SpaceShip.t :=
  {| ident := SpaceShip.ship_id; position := SpaceShip.ship_pos |}.

(** The keys driving the ship's movement loop. *)
Inductive Move := MoveRight | MoveLeft.

Definition apply_move (m : Move) (s : SpaceShip.t) : SpaceShip.t :=
  match m with
  | MoveRight => SpaceShip.go_right s
  | MoveLeft => SpaceShip.go_left s
  end.

(** The interval the ship's centre may occupy. *)
Definition ship_in_bounds (s : SpaceShip.t) : Prop :=
  (WALLS_left + SpaceShip.ship_width / 2 <= px (SpaceShip.ship_pos s)
   /\ px (SpaceShip.ship_pos s) <= WALLS_right - SpaceShip.ship_width / 2)%Q.

(** Number of lasers of a list whose [active] flag is set. *)
Definition count_active (ls : list Laser.t) : nat :=
  length (filter (fun l => Laser.active l = true) ls).

(** ** aliens.py *)

Module Alien.
Record t := mk {
  alien_id : nat;
  alien_pos : Pos;
  shown : bool
}.
Definition setx (x : Q) (a : t) : t := mk (alien_id a) (mkPos x (py (alien_pos a))) (shown a).
Definition sety (y : Q) (a : t) : t := mk (alien_id a) (mkPos (px (alien_pos a)) y) (shown a).
End Alien.

#[export] Instance Alien_Turtle : Turtle Alien.t :=
  {| ident := Alien.alien_id; position := Alien.alien_pos |}.

(** The random draws one call of [alien_shoot] consumes, and the identity of
    the laser object it may create. *)
Record Draw := mkDraw {
  draw_random : Q;        (* random() *)
  draw_choice : nat;      (* index picked by choice(self.aliens) *)
  draw_randint : Z;       (* randint(200, 600) *)
  draw_fresh : nat
}.

Module Aliens.

Record t := mk {
  aliens : list Alien.t;
  direction : Z;
  step_x : Z;
  step_y : Z;
  movement_speed : Q;
  enemy_lasers : list Laser.t;
  shooting_chance : Q;
  is_running : bool;
  movement_timer_id : Z;
  shooting_timer_id : Z
}.

Definition with_aliens (als : list Alien.t) (a : t) : t :=
  mk als (direction a) (step_x a) (step_y a) (movement_speed a)
     (enemy_lasers a) (shooting_chance a) (is_running a)
     (movement_timer_id a) (shooting_timer_id a).

Definition with_direction (d : Z) (a : t) : t :=
  mk (aliens a) d (step_x a) (step_y a) (movement_speed a)
     (enemy_lasers a) (shooting_chance a) (is_running a)
     (movement_timer_id a) (shooting_timer_id a).

Definition with_enemy_lasers (ls : list Laser.t) (a : t) : t :=
  mk (aliens a) (direction a) (step_x a) (step_y a) (movement_speed a)
     ls (shooting_chance a) (is_running a)
     (movement_timer_id a) (shooting_timer_id a).

(** The test of [move_aliens] on an alien's new x-coordinate. *)
Definition hits_edge (new_x : Q) : bool :=
  Qltb (WALLS_right - 40) new_x || Qltb new_x (WALLS_left + 40).

(** The first loop of [move_aliens]: every alien is moved horizontally and
    [should_descend] records whether one of them reached an edge. *)
Fixpoint move_loop (dx : Q) (als : list Alien.t) (should_descend : bool)
  : list Alien.t * bool :=
  match als with
  | [] => ([], should_descend)
  | alien :: rest =>
      let new_x := (px (Alien.alien_pos alien) + dx)%Q in
      let should_descend := if hits_edge new_x then true else should_descend in
      let '(rest', sd) := move_loop dx rest should_descend in
      (Alien.setx new_x alien :: rest', sd)
  end.

(** [move_aliens]. *)
Definition move_aliens (a : t) : t :=
  if negb (is_running a) || bool_decide (aliens a = []) then a
  else
    let '(moved, should_descend) :=
      move_loop (inject_Z (step_x a * direction a)) (aliens a) false in
    if should_descend then
      with_aliens
        (map (fun alien =>
                Alien.sety (py (Alien.alien_pos alien) - inject_Z (step_y a))%Q alien)
             moved)
        (with_direction (direction a * -1) a)
    else with_aliens moved a.

(** [start_movement_loop]. *)
Definition start_movement_loop (st : t * Screen.t) : t * Screen.t :=
  let '(a, scr) := st in
  if negb (is_running a) then (a, scr)
  else
    let current_id := movement_timer_id a in
    let a := if movement_timer_id a =? current_id then move_aliens a else a in
    let interval := int_of (movement_speed a * 1000)%Q in
    (a, Screen.ontimer (cb_movement current_id) interval scr).

(** [alien_shoot]. *)
Definition alien_shoot (rnd : Draw) (st : t * Screen.t) : t * Screen.t :=
  let '(a, scr) := st in
  if negb (is_running a) then (a, scr)
  else
    let current_id := shooting_timer_id a in
    let a :=
      if Nat.ltb (length (enemy_lasers a)) MAX_ENEMY_LASERS
         && negb (bool_decide (aliens a = []))
      then
        if Qltb (draw_random rnd) (shooting_chance a) then
          match aliens a !! (draw_choice rnd mod length (aliens a))%nat with
          | Some shooter =>
              with_enemy_lasers
                (enemy_lasers a ++ [Laser.init (draw_fresh rnd) (Alien.alien_pos shooter)]) a
          | None => a
          end
        else a
      else a in
    (a, Screen.ontimer (cb_shooting current_id) (draw_randint rnd) scr).

(** What a timer armed by the swarm does when the screen fires it: the
    [callback] closures of [start_movement_loop] and [alien_shoot]. *)
Definition fire_callback (cb : Callback) (rnd : Draw) (st : t * Screen.t)
  : t * Screen.t :=
  let '(a, scr) := st in
  match cb with
  | cb_movement current_id =>
      if is_running a && (movement_timer_id a =? current_id)
      then start_movement_loop (a, scr) else (a, scr)
  | cb_shooting current_id =>
      if is_running a && (shooting_timer_id a =? current_id)
      then alien_shoot rnd (a, scr) else (a, scr)
  | _ => (a, scr)
  end.

(** [update_enemy_lasers]. *)
Definition update_enemy_lasers (a : t) : t :=
  with_enemy_lasers
    (filter (fun l => Laser.active l = true) (map EnemyLaser.move (enemy_lasers a))) a.

(** [self.aliens.remove(alien)]: the first element with that identity. *)
Fixpoint remove_alien (id : nat) (als : list Alien.t) : list Alien.t :=
  match als with
  | [] => []
  | alien :: rest =>
      if Nat.eqb (Alien.alien_id alien) id then rest
      else alien :: remove_alien id rest
  end.

(** [handle_alien_hit]. *)
Definition handle_alien_hit (alien : Alien.t) (a : t) : t :=
  if existsb (fun x => Nat.eqb (Alien.alien_id x) (Alien.alien_id alien)) (aliens a)
  then with_aliens (remove_alien (Alien.alien_id alien) (aliens a)) a
  else a.

(** [clear_lasers], [clear_aliens] and [clear_all]. *)
Definition clear_lasers (a : t) : t := with_enemy_lasers [] a.
Definition clear_aliens (a : t) : t := with_aliens [] a.
Definition clear_all (a : t) : t := with_enemy_lasers [] (with_aliens [] a).

(** [start]. *)
Definition start (rnd : Draw) (st : t * Screen.t) : t * Screen.t :=
  let '(a, scr) := st in
  let a := mk (aliens a) (direction a) (step_x a) (step_y a) (movement_speed a)
              (enemy_lasers a) (shooting_chance a) true
              (movement_timer_id a + 1) (shooting_timer_id a) in
  alien_shoot rnd (start_movement_loop (a, scr)).

(** [cancel_timers]. *)
Definition cancel_timers (a : t) : t :=
  mk (aliens a) (direction a) (step_x a) (step_y a) (movement_speed a)
     (enemy_lasers a) (shooting_chance a) false
     (movement_timer_id a + 1) (shooting_timer_id a + 1).

End Aliens.

(** A callback is one the swarm armed, for a generation no later than the
    swarm's current one. *)
Definition armed_by_swarm (cb : Callback) (a : Aliens.t) : Prop :=
  match cb with
  | cb_movement id => id <= Aliens.movement_timer_id a
  | cb_shooting id => id <= Aliens.shooting_timer_id a
  | _ => False
  end.

(** ** check_hit.py *)

Module CheckHit.

(** [check_collision]. *)
Definition check_collision `{Turtle A} `{Turtle B} (laser : A) (ship : B) (threshold : Q) : bool :=
  distance_lt (position laser) (position ship) threshold.

Section Targets.
Context {T : Type} `{Turtle T}.

(** The inner loop of [check_lasers_vs_targets] for one laser: the first
    target that is not in [hit_targets] and is closer than the threshold. *)
Fixpoint scan_targets (laser : Laser.t) (targets : list T)
    (hit_targets : gset nat) (threshold : Q) : option T :=
  match targets with
  | [] => None
  | target :: rest =>
      if bool_decide (ident target ∈ hit_targets)
      then scan_targets laser rest hit_targets threshold
      else if distance_lt (position target) (position laser) threshold
      then Some target
      else scan_targets laser rest hit_targets threshold
  end.

(** The outer loop, with the accumulators [hits] and [hit_targets]. *)
Fixpoint lasers_loop (lasers : list Laser.t) (targets : list T) (threshold : Q)
    (hits : list (Laser.t * T)) (hit_targets : gset nat) : list (Laser.t * T) :=
  match lasers with
  | [] => hits
  | laser :: rest =>
      if negb (Laser.active laser)
      then lasers_loop rest targets threshold hits hit_targets
      else
        match scan_targets laser targets hit_targets threshold with
        | Some target =>
            lasers_loop rest targets threshold
              (hits ++ [(laser, target)]) ({[ ident target ]} ∪ hit_targets)
        | None => lasers_loop rest targets threshold hits hit_targets
        end
  end.

(** [check_lasers_vs_targets]. *)
Definition check_lasers_vs_targets (lasers : list Laser.t) (targets : list T)
    (threshold : Q) : list (Laser.t * T) :=
  lasers_loop lasers targets threshold [] ∅.

End Targets.

(** The inner loop of [check_laser_vs_laser] for one player laser: the first
    active enemy laser closer than 10. *)
Fixpoint scan_enemy_lasers (p_laser : Laser.t) (enemy_lasers : list Laser.t)
  : option Laser.t :=
  match enemy_lasers with
  | [] => None
  | e_laser :: rest =>
      if negb (Laser.active e_laser) then scan_enemy_lasers p_laser rest
      else if distance_lt (position p_laser) (position e_laser) 10
      then Some e_laser
      else scan_enemy_lasers p_laser rest
  end.

(** [check_laser_vs_laser]. *)
Fixpoint check_laser_vs_laser (player_lasers enemy_lasers : list Laser.t)
  : list (Laser.t * Laser.t) :=
  match player_lasers with
  | [] => []
  | p_laser :: rest =>
      if negb (Laser.active p_laser) then check_laser_vs_laser rest enemy_lasers
      else
        match scan_enemy_lasers p_laser enemy_lasers with
        | Some e_laser => (p_laser, e_laser) :: check_laser_vs_laser rest enemy_lasers
        | None => check_laser_vs_laser rest enemy_lasers
        end
  end.

End CheckHit.

(** The default threshold of [check_lasers_vs_targets]. *)
Definition default_threshold : Q := 20.

(** The lasers of a list of result pairs, and the identities of its second
    components. *)
Definition hit_lasers {T : Type} (hits : list (Laser.t * T)) : list Laser.t :=
  map fst hits.

Definition hit_target_ids `{Turtle T} (hits : list (Laser.t * T)) : list nat :=
  map (fun h => ident (snd h)) hits.

(** The targets consumed by a list of result pairs. *)
Definition consumed `{Turtle T} (hits : list (Laser.t * T)) : gset nat :=
  list_to_set (hit_target_ids hits).

(** A target is a candidate for a laser when the scan would stop at it:
    it has not been hit yet and is closer than the threshold. *)
Definition qualifies `{Turtle T} (laser : Laser.t) (threshold : Q)
    (hit_targets : gset nat) (target : T) : Prop :=
  (ident target ∉ hit_targets)
  /\ distance_lt (position target) (position laser) threshold = true.

(** First-match pairing, as the specification words it: inactive lasers are
    skipped; an active laser takes the first target in list order that is
    not consumed yet and is within the threshold, which consumes it; a laser
    with no such target produces no pair. *)
Inductive first_match `{Turtle T} (targets : list T) (threshold : Q)
  : gset nat -> list Laser.t -> list (Laser.t * T) -> Prop :=
| fm_done hit_targets :
    first_match targets threshold hit_targets [] []
| fm_inactive hit_targets laser rest hits :
    Laser.active laser = false ->
    first_match targets threshold hit_targets rest hits ->
    first_match targets threshold hit_targets (laser :: rest) hits
| fm_miss hit_targets laser rest hits :
    Laser.active laser = true ->
    Forall (fun t => ~ qualifies laser threshold hit_targets t) targets ->
    first_match targets threshold hit_targets rest hits ->
    first_match targets threshold hit_targets (laser :: rest) hits
| fm_hit hit_targets laser rest hits pre target post :
    Laser.active laser = true ->
    targets = pre ++ target :: post ->
    Forall (fun t => ~ qualifies laser threshold hit_targets t) pre ->
    qualifies laser threshold hit_targets target ->
    first_match targets threshold ({[ ident target ]} ∪ hit_targets) rest hits ->
    first_match targets threshold hit_targets (laser :: rest) ((laser, target) :: hits).

(** An enemy laser at which the scan of [check_laser_vs_laser] would stop. *)
Definition clashes (p_laser e_laser : Laser.t) : Prop :=
  Laser.active e_laser = true
  /\ distance_lt (position p_laser) (position e_laser) 10 = true.

(** ** shield_blocks.py: ShieldGenerator *)

Module ShieldGenerator.

(** The generator's state is its list of blocks. *)
Definition t := list ShieldBlock.t.

(** The inner loop of [check_collision] for one laser: every active block
    closer than 15 takes damage and the laser is deactivated. *)
Fixpoint collide_blocks (laser : Laser.t) (blocks : t) : Laser.t * t :=
  match blocks with
  | [] => (laser, [])
  | block :: rest =>
      if ShieldBlock.active block
         && distance_lt (position laser) (position block) 15
      then
        let '(laser', rest') := collide_blocks (Laser.deactivate laser) rest in
        (laser', ShieldBlock.take_damage block :: rest')
      else
        let '(laser', rest') := collide_blocks laser rest in
        (laser', block :: rest')
  end.

(** [check_collision]. *)
Fixpoint check_collision (lasers : list Laser.t) (blocks : t) : list Laser.t * t :=
  match lasers with
  | [] => ([], blocks)
  | laser :: rest =>
      let '(laser', blocks') := collide_blocks laser blocks in
      let '(rest', blocks'') := check_collision rest blocks' in
      (laser' :: rest', blocks'')
  end.

(** The inner loop of [check_collision_with_aliens] for one alien. *)
Definition collide_alien (alien : Alien.t) (blocks : t) : t :=
  map (fun block =>
         if ShieldBlock.active block
            && distance_lt (position block) (position alien) BLOCK_SIZE
         then ShieldBlock.take_damage block else block)
      blocks.

(** [check_collision_with_aliens]. *)
Definition check_collision_with_aliens (aliens : list Alien.t) (blocks : t) : t :=
  fold_left (fun bs alien => collide_alien alien bs) aliens blocks.

(** [clear_shields]. *)
Definition clear_shields (blocks : t) : t := [].

End ShieldGenerator.

(** ** boss_ship.py *)

Module BossShip.
Record t := mk {
  boss_id : nat;
  boss_pos : Pos;
  shown : bool;
  active : bool;
  moving_right : bool
}.

(** [disappear]. *)
Definition disappear (b : t) : t :=
  mk (boss_id b) (boss_pos b) false false (moving_right b).
End BossShip.

#[export] Instance BossShip_Turtle : Turtle BossShip.t :=
  {| ident := BossShip.boss_id; position := BossShip.boss_pos |}.

(** ** window.py: ScreenGame (with LevelManager.next_level) *)

Module ScreenGame.

Record t := mk {
  player1_ship : SpaceShip.t;
  player2_ship : SpaceShip.t;
  active_is_player1 : bool;      (* self.active_ship is self.player1_ship *)
  aliens : Aliens.t;
  shields : ShieldGenerator.t;
  boss_ship : BossShip.t;
  level : Z;                     (* self.level_manager.level *)
  paused : bool;
  started : bool;
  canvas_exists : bool;          (* self.canvas.winfo_exists() *)
  screen : Screen.t;
  transition_running : bool      (* self.scoreboard.transition_running *)
}.

(** [self.active_ship]. *)
Definition active_ship (g : t) : SpaceShip.t :=
  if active_is_player1 g then player1_ship g else player2_ship g.

(** A method call or assignment through [self.active_ship]. *)
Definition on_active_ship (f : SpaceShip.t -> SpaceShip.t) (g : t) : t :=
  if active_is_player1 g then
    mk (f (player1_ship g)) (player2_ship g) (active_is_player1 g) (aliens g)
       (shields g) (boss_ship g) (level g) (paused g) (started g)
       (canvas_exists g) (screen g) (transition_running g)
  else
    mk (player1_ship g) (f (player2_ship g)) (active_is_player1 g) (aliens g)
       (shields g) (boss_ship g) (level g) (paused g) (started g)
       (canvas_exists g) (screen g) (transition_running g).

Definition with_aliens (a : Aliens.t) (g : t) : t :=
  mk (player1_ship g) (player2_ship g) (active_is_player1 g) a
     (shields g) (boss_ship g) (level g) (paused g) (started g)
     (canvas_exists g) (screen g) (transition_running g).

Definition with_shields (s : ShieldGenerator.t) (g : t) : t :=
  mk (player1_ship g) (player2_ship g) (active_is_player1 g) (aliens g)
     s (boss_ship g) (level g) (paused g) (started g)
     (canvas_exists g) (screen g) (transition_running g).

Definition with_boss_ship (b : BossShip.t) (g : t) : t :=
  mk (player1_ship g) (player2_ship g) (active_is_player1 g) (aliens g)
     (shields g) b (level g) (paused g) (started g)
     (canvas_exists g) (screen g) (transition_running g).

Definition with_level (n : Z) (g : t) : t :=
  mk (player1_ship g) (player2_ship g) (active_is_player1 g) (aliens g)
     (shields g) (boss_ship g) n (paused g) (started g)
     (canvas_exists g) (screen g) (transition_running g).

Definition with_paused (b : bool) (g : t) : t :=
  mk (player1_ship g) (player2_ship g) (active_is_player1 g) (aliens g)
     (shields g) (boss_ship g) (level g) b (started g)
     (canvas_exists g) (screen g) (transition_running g).

(** [self.screen.ontimer(cb, ms)]. *)
Definition ontimer (cb : Callback) (ms : Z) (g : t) : t :=
  mk (player1_ship g) (player2_ship g) (active_is_player1 g) (aliens g)
     (shields g) (boss_ship g) (level g) (paused g) (started g)
     (canvas_exists g) (Screen.ontimer cb ms (screen g)) (transition_running g).

(** The effect of [update_active_player_score] on the active ship. *)
Definition score_update (s : SpaceShip.t) : SpaceShip.t :=
  let points := POINTS_PER_ENEMY in
  let s := SpaceShip.with_score (SpaceShip.score s + points) s in
  let s := SpaceShip.with_points_since_last_life
             (SpaceShip.points_since_last_life s + points) s in
  if BONUS_LIFE_THRESHOLD <=? SpaceShip.points_since_last_life s then
    if SpaceShip.lives s <? MAX_LIVES then
      SpaceShip.with_points_since_last_life 0
        (SpaceShip.with_lives (SpaceShip.lives s + 1) s)
    else s
  else s.

(** [update_active_player_score]. *)
Definition update_active_player_score (g : t) : t :=
  on_active_ship score_update g.

(** [boss_destroyed]. *)
Definition boss_destroyed (g : t) : t :=
  update_active_player_score
    (on_active_ship
       (fun s => SpaceShip.with_score (SpaceShip.score s + BOSS_BONUS_POINTS) s) g).

(** [clear_all]. *)
Definition clear_all (g : t) : t :=
  mk (SpaceShip.clear_lasers (SpaceShip.with_shown false (player1_ship g)))
     (SpaceShip.clear_lasers (SpaceShip.with_shown false (player2_ship g)))
     (active_is_player1 g)
     (Aliens.clear_all (aliens g))
     (ShieldGenerator.clear_shields (shields g))
     (if BossShip.active (boss_ship g) then BossShip.disappear (boss_ship g)
      else boss_ship g)
     (level g) (paused g) (started g) (canvas_exists g) (screen g) (transition_running g).

(** [Explosion(position, self.screen)]: [__init__] shows the first frame and
    calls [play_animation], which arms the timer of the second frame. *)
Definition explosion (g : t) : t := ontimer cb_play_animation 100 g.

(** [end_game]; the explosion it creates is hidden again at once by [clear],
    its timer stays armed. *)
Definition end_game (g : t) : t :=
  let g := with_paused true g in
  let g := with_aliens (Aliens.cancel_timers (aliens g)) g in
  let g := explosion g in
  clear_all g.

Definition with_transition_running (b : bool) (g : t) : t :=
  mk (player1_ship g) (player2_ship g) (active_is_player1 g) (aliens g)
     (shields g) (boss_ship g) (level g) (paused g) (started g)
     (canvas_exists g) (screen g) b.

(** [ScoreBoard.show_turn_transition]: unless a fade is running, the flag is
    set and the first [fade_out] is armed after 500 ms. *)
Definition show_turn_transition (g : t) : t :=
  if transition_running g then g
  else ontimer (cb_fade_out 0) 500 (with_transition_running true g).

(** [switch_player]. *)
Definition switch_player (g : t) : t :=
  let g := with_aliens
             (Aliens.clear_aliens (Aliens.clear_lasers (Aliens.cancel_timers (aliens g)))) g in
  let g := with_shields (ShieldGenerator.clear_shields (shields g)) g in
  let g := with_paused true g in
  let g := on_active_ship
             (fun s => SpaceShip.stop_moving
                         (SpaceShip.clear_lasers (SpaceShip.with_shown false s))) g in
  if active_is_player1 g then
    let p2 := SpaceShip.stop_moving
                (SpaceShip.with_shown true
                   (SpaceShip.reset_ship_position (player2_ship g))) in
    ontimer cb_start_player2_turn 2000
      (show_turn_transition
         (mk (player1_ship g) p2 false (aliens g) (shields g) (boss_ship g)
             (level g) (paused g) (started g) (canvas_exists g) (screen g)
             (transition_running g)))
  else end_game g.

(** [laser.active = False; laser.hideturtle()] on a laser of the active
    ship, and on an enemy laser. *)
Definition deactivate_player_laser (laser : Laser.t) (g : t) : t :=
  on_active_ship
    (fun s => SpaceShip.with_lasers
                (deactivate_in (Laser.laser_id laser) (SpaceShip.lasers s)) s) g.

Definition deactivate_enemy_laser (laser : Laser.t) (g : t) : t :=
  with_aliens
    (Aliens.with_enemy_lasers
       (deactivate_in (Laser.laser_id laser) (Aliens.enemy_lasers (aliens g)))
       (aliens g)) g.

(** [check_player_hit]. *)
Definition check_player_hit (g : t) : t :=
  let hits := CheckHit.check_lasers_vs_targets
                (Aliens.enemy_lasers (aliens g)) [active_ship g]
                (SpaceShip.ship_width / 4)%Q in
  fold_left
    (fun g '(laser, _) =>
       let g := deactivate_enemy_laser laser g in
       let g := on_active_ship SpaceShip.handle_hit g in
       if SpaceShip.lives (active_ship g) <=? 0 then switch_player g else g)
    hits g.

(** [check_enemy_hit]. *)
Definition check_enemy_hit (g : t) : t :=
  let hits := CheckHit.check_lasers_vs_targets
                (SpaceShip.lasers (active_ship g)) (Aliens.aliens (aliens g))
                default_threshold in
  fold_left
    (fun g '(laser, alien) =>
       let g := deactivate_player_laser laser g in
       let g := with_aliens (Aliens.handle_alien_hit alien (aliens g)) g in
       update_active_player_score g)
    hits g.

(** [self.shields.check_collision(self.active_ship.lasers)]. *)
Definition shields_vs_player_lasers (g : t) : t :=
  let '(lasers, blocks) :=
    ShieldGenerator.check_collision (SpaceShip.lasers (active_ship g)) (shields g) in
  with_shields blocks (on_active_ship (SpaceShip.with_lasers lasers) g).

(** [self.shields.check_collision(self.aliens.enemy_lasers)]. *)
Definition shields_vs_enemy_lasers (g : t) : t :=
  let '(lasers, blocks) :=
    ShieldGenerator.check_collision (Aliens.enemy_lasers (aliens g)) (shields g) in
  with_shields blocks (with_aliens (Aliens.with_enemy_lasers lasers (aliens g)) g).

(** [self.shields.check_collision_with_aliens(self.aliens.aliens)]. *)
Definition shields_vs_aliens (g : t) : t :=
  with_shields
    (ShieldGenerator.check_collision_with_aliens (Aliens.aliens (aliens g)) (shields g)) g.

(** [check_laser_collisions]. *)
Definition check_laser_collisions (g : t) : t :=
  let hits := CheckHit.check_laser_vs_laser
                (SpaceShip.lasers (active_ship g)) (Aliens.enemy_lasers (aliens g)) in
  fold_left
    (fun g '(player_laser, enemy_laser) =>
       deactivate_enemy_laser enemy_laser (deactivate_player_laser player_laser g))
    hits g.

(** [check_boss_hit]; the boss's [handle_hit] makes it disappear and calls
    [boss_destroyed]. *)
Definition check_boss_hit (g : t) : t :=
  if negb (BossShip.active (boss_ship g)) then g
  else
    let hits := CheckHit.check_lasers_vs_targets
                  (SpaceShip.lasers (active_ship g)) [boss_ship g]
                  default_threshold in
    fold_left
      (fun g '(laser, _) =>
         let g := deactivate_player_laser laser g in
         let g := with_boss_ship (BossShip.disappear (boss_ship g)) g in
         boss_destroyed g)
      hits g.

(** [LevelManager.next_level]. *)
Definition next_level (g : t) : t :=
  ontimer cb_resume_game 2000 (with_paused true (with_level (level g + 1) g)).

(** The level change at the end of the tick body. *)
Definition change_level (g : t) : t :=
  if bool_decide (Aliens.aliens (aliens g) = []) && negb (paused g)
  then next_level (with_paused true g)
  else g.

(** The statements of the [try] block of [game_loop], in order;
    [screen.update()] only redraws. *)
Definition tick_body : list (t -> t) :=
  [ (fun g => g);
    on_active_ship SpaceShip.update_lasers;
    (fun g => with_aliens (Aliens.update_enemy_lasers (aliens g)) g);
    check_player_hit;
    check_enemy_hit;
    shields_vs_player_lasers;
    shields_vs_enemy_lasers;
    shields_vs_aliens;
    check_laser_collisions;
    check_boss_hit;
    change_level ].

(** How a [try] block ends. *)
Inductive Outcome :=
| Completed (g : t)
| Raised (g : t).      (* turtle.TurtleGraphicsError, with the state reached *)

(** Running a block in which statement number [fault] (if any) raises
    [TurtleGraphicsError] when it is reached. *)
Fixpoint run_steps (steps : list (t -> t)) (fault : option nat) (g : t) : Outcome :=
  match steps with
  | [] => Completed g
  | step :: rest =>
      match fault with
      | Some O => Raised g
      | Some (S k) => run_steps rest (Some k) (step g)
      | None => run_steps rest None (step g)
      end
  end.

(** [game_loop]. *)
Definition game_loop (fault : option nat) (g : t) : t :=
  if negb (paused g) && canvas_exists g then
    match run_steps tick_body fault g with
    | Raised g' => g'                        (* except ...: return *)
    | Completed g' => ontimer cb_game_loop 20 g'
    end
  else ontimer cb_game_loop 20 g.

(** One tick in which nothing raises, without the rescheduling. *)
Definition tick (g : t) : t :=
  match run_steps tick_body None g with
  | Completed g' => g'
  | Raised g' => g'
  end.

End ScreenGame.

(** The number of [game_loop] timers armed in a game's screen. *)
Definition loops (g : ScreenGame.t) : nat :=
  Screen.armed cb_game_loop (ScreenGame.screen g).

(** The two ways the active ship's score is updated. *)
Inductive ScoreEvent := EnemyDestroyed | BossDestroyed.

Definition apply_score_event (e : ScoreEvent) (g : ScreenGame.t) : ScreenGame.t :=
  match e with
  | EnemyDestroyed => ScreenGame.update_active_player_score g
  | BossDestroyed => ScreenGame.boss_destroyed g
  end.

(** ** Scenarios *)

(** A ship at its start position, three steps from the right limit. *)
Definition ship_near_right_wall : SpaceShip.t :=
  SpaceShip.init 1 (mkPos 380 (WALLS_bottom + SpaceShip.bottom_margin)%Q).

(** A ship that has not fired yet, at the start position. *)
Definition fresh_ship : SpaceShip.t :=
  SpaceShip.init 1 (mkPos 0 (WALLS_bottom + SpaceShip.bottom_margin)%Q).

(** An alien is the translation of another by [(dx, dy)]. *)
Definition translated (dx dy : Q) (a a' : Alien.t) : Prop :=
  Alien.alien_id a' = Alien.alien_id a
  /\ (px (Alien.alien_pos a') == px (Alien.alien_pos a) + dx)%Q
  /\ (py (Alien.alien_pos a') == py (Alien.alien_pos a) + dy)%Q.

(** Some alien's new x-coordinate is beyond the right bound minus the margin
    or below the left bound plus the margin. *)
Definition reaches_edge (dx : Q) (als : list Alien.t) : Prop :=
  exists alien, alien ∈ als
    /\ (WALLS_right - 40 < px (Alien.alien_pos alien) + dx
        \/ px (Alien.alien_pos alien) + dx < WALLS_left + 40)%Q.

(** A running swarm of two aliens moving right, the second one step away
    from the right margin. *)
Definition swarm_at_right_edge : Aliens.t :=
  Aliens.mk [Alien.mk 10 (mkPos 380 212) true; Alien.mk 11 (mkPos 440 212) true]
            1 10 10 (8 # 100) [] (8 # 10) true 1 0.

(** A game in its first level: player 1 at the start position, one alien
    left, no shields. *)
Definition opening_game : ScreenGame.t :=
  ScreenGame.mk fresh_ship (SpaceShip.init 2 (mkPos 0 (WALLS_bottom + SpaceShip.bottom_margin)%Q))
    true
    (Aliens.mk [Alien.mk 10 (mkPos 0 212) true] 1 10 10 (8 # 100) [] (8 # 10) true 1 0)
    [] (BossShip.mk 3 (mkPos 10000 10000) false false true)
    1 false true true [] false.

(** Two player lasers ten units apart (the second fired during a pause,
    while the first did not move) and one enemy laser between them. *)
Definition stacked_player_lasers : list Laser.t :=
  [Laser.mk 21 (mkPos 0 10) true true; Laser.mk 22 (mkPos 0 0) true true].

Definition enemy_laser_between : Laser.t := Laser.mk 23 (mkPos 0 5) true true.

(** A tick in which a player laser reaches, at once, an alien that has
    descended to the shields and a shield block: the laser is at
    [(60, -240.72)] before it moves, the alien at [(60, -228)], the block at
    [(46, -231)]; a second alien is far away. *)
Definition shield_overlap_game : ScreenGame.t :=
  ScreenGame.mk
    (SpaceShip.with_lasers [Laser.mk 20 (mkPos 60 (-24072 # 100)) true true]
       (SpaceShip.init 1 (mkPos 60 (WALLS_bottom + SpaceShip.bottom_margin)%Q)))
    (SpaceShip.init 2 (mkPos 0 (WALLS_bottom + SpaceShip.bottom_margin)%Q))
    true
    (Aliens.mk [Alien.mk 10 (mkPos 60 (-228)) true; Alien.mk 11 (mkPos (-300) 212) true]
       1 10 10 (8 # 100) [] (8 # 10) true 1 0)
    [ShieldBlock.init 30 (mkPos 46 (-231))]
    (BossShip.mk 3 (mkPos 10000 10000) false false true)
    1 false true true [] false.

(** One laser midway between two adjacent shield blocks. *)
Definition laser_between_blocks : Laser.t :=
  Laser.mk 20 (mkPos (117 # 2) (-231)) true true.

Definition adjacent_blocks : ShieldGenerator.t :=
  [ShieldBlock.init 30 (mkPos 46 (-231)); ShieldBlock.init 31 (mkPos 71 (-231))].

(** Three player lasers (the second one inactive) close to two aliens. *)
Definition volley : list Laser.t :=
  [Laser.mk 20 (mkPos 0 0) true true;
   Laser.mk 21 (mkPos 0 0) false false;
   Laser.mk 22 (mkPos 5 0) true true].

Definition two_aliens : list Alien.t :=
  [Alien.mk 10 (mkPos 0 10) true; Alien.mk 11 (mkPos 10 0) true].

(** The draws of a shooting cycle that does shoot. *)
Definition sure_shot : Draw := mkDraw 0 0 400 40.

(** A ship whose first laser, fired at time 0, is still in flight 75 frames
    (1.5 seconds) later; its second shot, at time 1.5; and the ship 5 frames
    after that shot. *)
Definition ship_with_laser_in_flight : SpaceShip.t :=
  Nat.iter 75 SpaceShip.update_lasers (SpaceShip.fire 0 7 fresh_ship).

Definition second_shot : SpaceShip.t :=
  SpaceShip.fire (15 # 10) 8 ship_with_laser_in_flight.

Definition after_second_shot : SpaceShip.t :=
  Nat.iter 5 SpaceShip.update_lasers second_shot.

(** The opening game after 400 kills (two bonus lives, then 4000 more points
    at the cap of 5 lives) and two hits on the ship. *)
Definition game_after_cap : ScreenGame.t :=
  ScreenGame.on_active_ship SpaceShip.handle_hit
    (ScreenGame.on_active_ship SpaceShip.handle_hit
       (fold_left (fun g e => apply_score_event e g)
          (repeat EnemyDestroyed 400) opening_game)).

(** The opening game with the boss on its pass and two player lasers on
    it. *)
Definition boss_under_fire : ScreenGame.t :=
  ScreenGame.mk
    (SpaceShip.with_lasers
       [Laser.mk 20 (mkPos 0 470) true true; Laser.mk 21 (mkPos 5 470) true true]
       fresh_ship)
    (SpaceShip.init 2 (mkPos 0 (WALLS_bottom + SpaceShip.bottom_margin)%Q))
    true
    (Aliens.mk [Alien.mk 10 (mkPos 0 212) true] 1 10 10 (8 # 100) [] (8 # 10) true 1 0)
    [] (BossShip.mk 3 (mkPos 0 472) true true true)
    1 false true true [] false.

(** Two aliens that have come down onto the shield blocks: the first is
    within 25 units of the first block, the second of both. *)
Definition aliens_on_shields : list Alien.t :=
  [Alien.mk 10 (mkPos 46 (-221)) true; Alien.mk 11 (mkPos 60 (-231)) true].

(** ** Further model: the alien grid and [Aliens.reset] *)

(** [ALIENS] of game_specs.py. *)
Definition ALIENS_rows : nat := 5.
Definition ALIENS_cols : nat := 11.
Definition ALIENS_spacing_x : Z := 60.
Definition ALIENS_spacing_y : Z := 50.

Module AlienGrid.

(** [generate_aliens]: one new alien turtle, appended to the list (its image
    is cosmetic). *)
Definition generate_aliens (position : Pos) (id : nat) (a : Aliens.t) : Aliens.t :=
  Aliens.with_aliens (Aliens.aliens a ++ [Alien.mk id position true]) a.

(** The positions [generate_grid] visits: rows from the last to the first,
    columns from left to right. *)
Definition grid_positions : list Pos :=
  let start_x := (- ((Z.of_nat ALIENS_cols - 1) * ALIENS_spacing_x)) / 2 in
  let start_y := (WALLS_top - 100)%Q in
  flat_map
    (fun row =>
       map (fun col =>
              mkPos (inject_Z (start_x + Z.of_nat col * ALIENS_spacing_x))
                    (start_y - inject_Z (Z.of_nat row * ALIENS_spacing_y))%Q)
           (seq 0 ALIENS_cols))
    (rev (seq 0 ALIENS_rows)).

(** The loop of [generate_grid] over the positions; every alien is a new
    object, so identities are handed out in creation order from [id]. *)
Fixpoint place_aliens (positions : list Pos) (id : nat) (a : Aliens.t) : Aliens.t :=
  match positions with
  | [] => a
  | p :: rest => place_aliens rest (S id) (generate_aliens p id a)
  end.

(** [generate_grid]. *)
Definition generate_grid (base : nat) (a : Aliens.t) : Aliens.t :=
  place_aliens grid_positions base a.

(** [reset]. *)
Definition reset (rnd : Draw) (base : nat) (st : Aliens.t * Screen.t)
  : Aliens.t * Screen.t :=
  let '(a, scr) := st in
  Aliens.start rnd
    (generate_grid base (Aliens.clear_all (Aliens.cancel_timers a)), scr).

End AlienGrid.

(** An alien is inside the horizontal margins by at least one step of 10. *)
Definition inside_margins (alien : Alien.t) : Prop :=
  (WALLS_left + 40 + 10 <= px (Alien.alien_pos alien)
   /\ px (Alien.alien_pos alien) <= WALLS_right - 40 - 10)%Q.

(** ** Further model: the boss's movement (boss_ship.py) *)

Module BossMotion.

(** The boss with the delays of the [move] timers it has armed. *)
Definition state : Type := BossShip.t * list Z.

Definition setx (x : Q) (b : BossShip.t) : BossShip.t :=
  BossShip.mk (BossShip.boss_id b) (mkPos x (py (BossShip.boss_pos b)))
              (BossShip.shown b) (BossShip.active b) (BossShip.moving_right b).

(** The x-coordinates just outside the left and right screen edges, for a
    window [width] pixels wide ([//] is floor division). *)
Definition left_edge (width : Z) : Z := (- width) / 2 - 100.
Definition right_edge (width : Z) : Z := width / 2 + 100.

(** [move]. *)
Definition move (width : Z) (st : state) : state :=
  let '(b, timers) := st in
  if negb (BossShip.active b) then (b, timers)
  else
    let step : Q := if BossShip.moving_right b then 5%Q else (- (5))%Q in
    let b := setx (px (BossShip.boss_pos b) + step)%Q b in
    if (BossShip.moving_right b
        && Qltb (inject_Z (right_edge width)) (px (BossShip.boss_pos b)))
       || (negb (BossShip.moving_right b)
           && Qltb (px (BossShip.boss_pos b)) (inject_Z (left_edge width)))
    then (BossShip.disappear b, timers)
    else (b, timers ++ [20]).

(** [appear], with the side drawn by [choice([True, False])] and the window
    size as inputs. *)
Definition appear (from_left : bool) (width height : Z) (st : state) : state :=
  let '(b, timers) := st in
  if BossShip.active b then (b, timers)
  else
    let y := height / 2 - 40 in
    let x := if from_left then left_edge width else right_edge width in
    let b := BossShip.mk (BossShip.boss_id b) (mkPos (inject_Z x) (inject_Z y))
                         true true from_left in
    move width (b, timers).

(** [reset]. *)
Definition reset (b : BossShip.t) : BossShip.t :=
  BossShip.mk (BossShip.boss_id b) (mkPos 10000 10000) false false
              (BossShip.moving_right b).

End BossMotion.

(** ** Further model: shield generation (shield_blocks.py) *)

(** A pattern matrix: a cell is set where [choice([0, 1])] drew 1. *)
Definition Pattern : Type := list (list bool).

Module ShieldLayout.

(** The inner loop of [create_pattern_blocks] over the cells of one row,
    from column [col_index] on; [width] is [len(row)].  New blocks take
    consecutive identities. *)
Fixpoint row_blocks (cells : list bool) (col_index : nat) (width : nat)
    (x_center : Z) (y : Q) (id : nat) : list ShieldBlock.t * nat :=
  match cells with
  | [] => ([], id)
  | cell :: rest =>
      if cell then
        let x := inject_Z (x_center
                           + (Z.of_nat col_index - Z.of_nat width / 2) * 25) in
        let '(bs, id') := row_blocks rest (S col_index) width x_center y (S id) in
        (ShieldBlock.init id (mkPos x y) :: bs, id')
      else row_blocks rest (S col_index) width x_center y id
  end.

(** The outer loop over the rows, from row [row_index] on; [height] is
    [len(pattern)]. *)
Fixpoint pattern_blocks (rows : Pattern) (row_index : nat) (height : nat)
    (x_center : Z) (y_bottom : Q) (id : nat) : list ShieldBlock.t * nat :=
  match rows with
  | [] => ([], id)
  | row :: rest =>
      let y := (y_bottom
                + inject_Z ((Z.of_nat height - Z.of_nat row_index) * 25))%Q in
      let '(bs, id') := row_blocks row 0 (length row) x_center y id in
      let '(bs', id'') := pattern_blocks rest (S row_index) height x_center y_bottom id' in
      (bs ++ bs', id'')
  end.

(** [create_pattern_blocks]: the new blocks are appended to [self.blocks]. *)
Definition create_pattern_blocks (pattern : Pattern) (x_center : Z) (y_bottom : Q)
    (id : nat) (blocks : ShieldGenerator.t) : ShieldGenerator.t * nat :=
  let '(bs, id') := pattern_blocks pattern 0 (length pattern) x_center y_bottom id in
  (blocks ++ bs, id').

(** The loop of [generate_shields], for shield number [i] on, with the
    patterns [random_pattern] draws. *)
Fixpoint shields_from (patterns : list Pattern) (i : nat) (spacing : Z) (y : Q)
    (id : nat) (blocks : ShieldGenerator.t) : ShieldGenerator.t * nat :=
  match patterns with
  | [] => (blocks, id)
  | pattern :: rest =>
      let x_center := (- 960) / 2 + (Z.of_nat i + 1) * spacing in
      let '(blocks', id') := create_pattern_blocks pattern x_center y id blocks in
      shields_from rest (S i) spacing y id' blocks'
  end.

(** [generate_shields], for [num_shields = len(patterns)]. *)
Definition generate_shields (patterns : list Pattern) (id : nat)
    (blocks : ShieldGenerator.t) : ShieldGenerator.t * nat :=
  let spacing := 960 / (Z.of_nat (length patterns) + 1) in
  let y := (WALLS_bottom + SCREEN_HEIGHT * (25 # 100))%Q in
  shields_from patterns 0 spacing y id blocks.

(** [reset]. *)
Definition reset (patterns : list Pattern) (id : nat) (blocks : ShieldGenerator.t)
  : ShieldGenerator.t * nat :=
  generate_shields patterns id (ShieldGenerator.clear_shields blocks).

End ShieldLayout.

(** What [random_pattern] can return: 2 to 4 rows of one width from 3 to 6. *)
Definition random_pattern_shape (pattern : Pattern) : Prop :=
  (2 <= length pattern <= 4)%nat
  /\ exists width, (3 <= width <= 6)%nat /\ Forall (fun row => length row = width) pattern.

(** The number of set cells of a pattern. *)
Definition set_cells (pattern : Pattern) : nat :=
  length (filter (fun cell => cell = true) (concat pattern)).

(** A block as [ShieldBlock.__init__] leaves it. *)
Definition pristine (b : ShieldBlock.t) : Prop :=
  ShieldBlock.hp b = 3 /\ ShieldBlock.active b = true
  /\ ShieldBlock.color b = ShieldBlock.green /\ ShieldBlock.shown b = true.

(** A block whose flag agrees with its hit points, as every block produced
    by [__init__] and [take_damage] is. *)
Definition block_consistent (b : ShieldBlock.t) : Prop :=
  ShieldBlock.active b = (0 <? ShieldBlock.hp b).

(** The aliens of a list within melee range of a block. *)
Definition aliens_in_range (block : ShieldBlock.t) (aliens : list Alien.t) : nat :=
  length (filter (fun alien =>
                    distance_lt (position block) (position alien) BLOCK_SIZE = true)
                 aliens).

(** ** Further model: level_manager.py *)

(** The difficulty tiers; [None] below stands for Python's [None] and for
    any string that is none of the three. *)
Inductive Difficulty := easy | medium | hard.

(** Python's two-argument [max] and [min] on floats. *)
Definition py_max (a b : Q) : Q := if Qltb a b then b else a.
Definition py_min (a b : Q) : Q := if Qltb b a then b else a.

Definition with_difficulty_settings (speed chance : Q) (a : Aliens.t) : Aliens.t :=
  Aliens.mk (Aliens.aliens a) (Aliens.direction a) (Aliens.step_x a) (Aliens.step_y a)
            speed (Aliens.enemy_lasers a) chance (Aliens.is_running a)
            (Aliens.movement_timer_id a) (Aliens.shooting_timer_id a).

Module LevelManager.

Record t := mk {
  difficulty : option Difficulty;
  speed_factor : Q;
  shot_increment : Q
}.

(** [__init__]. *)
Definition init : t := mk None 0 0.

(** [increase_difficulty]. *)
Definition increase_difficulty (lm : t) (a : Aliens.t) : t * Aliens.t :=
  let lm :=
    match difficulty lm with
    | Some easy => mk (difficulty lm) (95 # 100) (1 # 1000)
    | Some medium => mk (difficulty lm) (9 # 10) (2 # 1000)
    | Some hard => mk (difficulty lm) (85 # 100) (3 # 1000)
    | None => lm
    end in
  let speed := (Aliens.movement_speed a * speed_factor lm)%Q in
  let chance := (Aliens.shooting_chance a + shot_increment lm)%Q in
  (lm, with_difficulty_settings (py_max speed (5 # 100)) (py_min chance (2 # 10)) a).

End LevelManager.

(** [increase_difficulty] applied at [n] level changes in a row. *)
Fixpoint increase_difficulty_n (n : nat) (lm : LevelManager.t) (a : Aliens.t)
  : LevelManager.t * Aliens.t :=
  match n with
  | O => (lm, a)
  | S n =>
      let '(lm', a') := LevelManager.increase_difficulty lm a in
      increase_difficulty_n n lm' a'
  end.

(** The multiplier and the increment of a tier. *)
Definition tier_factor (d : Difficulty) : Q :=
  match d with easy => 95 # 100 | medium => 9 # 10 | hard => 85 # 100 end.
Definition tier_increment (d : Difficulty) : Q :=
  match d with easy => 1 # 1000 | medium => 2 # 1000 | hard => 3 # 1000 end.

(** ** Further model: high_score_manager.py and the scores of scoreboard.py *)

(** A JSON value as [json.load] returns it. *)
Inductive JsonValue :=
| json_int (n : Z)
| json_bool (b : bool)              (* a Python bool, which is an int: True == 1 *)
| json_float (q : Q)                (* a finite float *)
| json_infinity (negative : bool)   (* Infinity and -Infinity *)
| json_nan
| json_null
| json_string (s : string)
| json_array
| json_dict.

(** What the high-score file can hold. *)
Inductive ScoreFile :=
| file_missing                                 (* os.path.exists is false *)
| file_corrupt                                 (* json.load raises JSONDecodeError *)
| file_object (data : gmap string JsonValue)   (* a JSON object *)
| file_not_object.                             (* other valid JSON: no .get *)

Module HighScore.

(** [load_high_score]; [None] is the uncaught [AttributeError] of [.get] on
    JSON that is not an object.  The value found is returned as it is,
    whatever its type. *)
Definition load_high_score (file : ScoreFile) : option JsonValue :=
  match file with
  | file_missing => Some (json_int 0)
  | file_corrupt => Some (json_int 0)
  | file_object data => Some (default (json_int 0) (data !! "high_score"%string))
  | file_not_object => None
  end.

(** [save_high_score]: the file is overwritten with the object
    [{"high_score": score}]; the file is taken to be writable, and
    [json.load] to read back the object [json.dump] wrote. *)
Definition save_high_score (score : Z) (file : ScoreFile) : ScoreFile :=
  file_object {[ "high_score"%string := json_int score ]}.

End HighScore.

Module ScoreBoard.

Record t := mk {
  player1_score : Z;
  player2_score : Z;
  hi_score : Z;
  player1_lives : Z;
  player2_lives : Z;
  file : ScoreFile      (* the file behind self.high_score *)
}.

(** [update_hi_score]. *)
Definition update_hi_score (sb : t) : t :=
  let new_hi := Z.max (Z.max (player1_score sb) (player2_score sb)) (hi_score sb) in
  if hi_score sb <? new_hi then
    mk (player1_score sb) (player2_score sb) new_hi (player1_lives sb)
       (player2_lives sb) (HighScore.save_high_score new_hi (file sb))
  else sb.

(** [__init__]: the high score is loaded, both scores are 0, then
    [update_hi_score] and [update_scores] run.  [None] is an exception:
    from [load_high_score]; from [max(0, 0, hi_score)] in [update_hi_score]
    when the loaded value is not a number ([TypeError]); from the format
    [:04d] in [update_scores] when the high score is still a float
    ([ValueError]).  A negative float (and [-Infinity]) is replaced by the
    integer 0 in [update_hi_score], since [max(0, 0, q)] is 0 and
    [0 > q]; any other float, and NaN, stays as it is.  A bool is kept and
    behaves as the integer it is. *)
Definition init (lives : Z) (f : ScoreFile) : option t :=
  match HighScore.load_high_score f with
  | None => None
  | Some (json_int n) => Some (update_hi_score (mk 0 0 n lives lives f))
  | Some (json_bool b) => Some (update_hi_score (mk 0 0 (Z.b2z b) lives lives f))
  | Some (json_float q) =>
      if Qltb q 0
      then Some (mk 0 0 0 lives lives (HighScore.save_high_score 0 f))
      else None
  | Some (json_infinity negative) =>
      if negative
      then Some (mk 0 0 0 lives lives (HighScore.save_high_score 0 f))
      else None
  | Some json_nan => None
  | Some json_null => None
  | Some (json_string _) => None
  | Some json_array => None
  | Some json_dict => None
  end.

(** [set_player1_score] and [set_player2_score]. *)
Definition set_player1_score (score : Z) (sb : t) : t :=
  update_hi_score (mk score (player2_score sb) (hi_score sb) (player1_lives sb)
                      (player2_lives sb) (file sb)).

Definition set_player2_score (score : Z) (sb : t) : t :=
  update_hi_score (mk (player1_score sb) score (hi_score sb) (player1_lives sb)
                      (player2_lives sb) (file sb)).

(** [update_lives]. *)
Definition update_lives (player : Z) (lives : Z) (sb : t) : t :=
  if player =? 1 then
    mk (player1_score sb) (player2_score sb) (hi_score sb) (Z.max 0 lives)
       (player2_lives sb) (file sb)
  else
    mk (player1_score sb) (player2_score sb) (hi_score sb) (player1_lives sb)
       (Z.max 0 lives) (file sb).

(** [reset]. *)
Definition reset (sb : t) : t :=
  mk 0 0 (hi_score sb) (player1_lives sb) (player2_lives sb) (file sb).

End ScoreBoard.

(** The calls that change a scoreboard's numbers. *)
Inductive ScoreCall :=
| SetPlayer1 (score : Z)
| SetPlayer2 (score : Z)
| UpdateLives (player lives : Z)
| ResetBoard.

Definition apply_score_call (c : ScoreCall) (sb : ScoreBoard.t) : ScoreBoard.t :=
  match c with
  | SetPlayer1 s => ScoreBoard.set_player1_score s sb
  | SetPlayer2 s => ScoreBoard.set_player2_score s sb
  | UpdateLives p l => ScoreBoard.update_lives p l sb
  | ResetBoard => ScoreBoard.reset sb
  end.

(** The scores a list of calls sets. *)
Definition scores_set (calls : list ScoreCall) : list Z :=
  omap (fun c => match c with
                 | SetPlayer1 s | SetPlayer2 s => Some s
                 | _ => None
                 end) calls.

(** The file holds the scoreboard's high score: as that integer, or as the
    bool that equals it. *)
Definition persisted (sb : ScoreBoard.t) : Prop :=
  HighScore.load_high_score (ScoreBoard.file sb)
  = Some (json_int (ScoreBoard.hi_score sb))
  \/ exists b : bool,
       HighScore.load_high_score (ScoreBoard.file sb) = Some (json_bool b)
       /\ ScoreBoard.hi_score sb = Z.b2z b.

(** ** Further model: pause and level change in window.py *)

Module Window.

(** [toggle_pause]; [fault] is as in [game_loop]. *)
Definition toggle_pause (fault : option nat) (g : ScreenGame.t) : ScreenGame.t :=
  let g := ScreenGame.with_paused (negb (ScreenGame.paused g)) g in
  if ScreenGame.paused g then g
  else ScreenGame.game_loop fault g.

(** [reset_player_ship]. *)
Definition reset_player_ship (g : ScreenGame.t) : ScreenGame.t :=
  ScreenGame.on_active_ship SpaceShip.reset_ship_position g.

(** The closure [resume_game] of [LevelManager.next_level], which the timer
    armed there calls: [patterns] are the shield patterns drawn, [id] the
    identity of the first object created. *)
Definition resume_game (fault : option nat) (patterns : list Pattern) (id : nat)
    (st : ScreenGame.t * LevelManager.t) : ScreenGame.t * LevelManager.t :=
  let '(g, lm) := st in
  let '(lm, a) := LevelManager.increase_difficulty lm (ScreenGame.aliens g) in
  let g := ScreenGame.with_aliens a g in
  let g := reset_player_ship g in
  (* restart_enemies *)
  let a := AlienGrid.generate_grid id (ScreenGame.aliens g) in
  let g := ScreenGame.with_aliens (Aliens.clear_lasers a) g in
  (* restart_shields *)
  let '(blocks, _) :=
    ShieldLayout.generate_shields patterns
      (id + length AlienGrid.grid_positions)
      (ShieldGenerator.clear_shields (ScreenGame.shields g)) in
  let g := ScreenGame.with_shields blocks g in
  let g := ScreenGame.with_paused false g in
  (ScreenGame.game_loop fault g, lm).

End Window.

(** ** Further model: the shooting loop of space_ship.py *)

Module ShootLoop.

(** The ship with the delays of the [shoot_loop] timers it has armed. *)
Definition state : Type := SpaceShip.t * list Z.

Definition with_shooting (shooting active : bool) (s : SpaceShip.t) : SpaceShip.t :=
  SpaceShip.mk (SpaceShip.ship_id s) (SpaceShip.ship_pos s) (SpaceShip.shown s)
    (SpaceShip.moving_right s) (SpaceShip.moving_left s) (SpaceShip.lasers s)
    shooting active (SpaceShip.lives s) (SpaceShip.score s)
    (SpaceShip.points_since_last_life s) (SpaceShip.last_shot_time s)
    (SpaceShip.shot_cooldown s).

(** [shoot_loop], with the clock reading and the identity for a new laser. *)
Definition shoot_loop (now : Q) (fresh : nat) (st : state) : state :=
  let '(s, timers) := st in
  if SpaceShip.shooting s then (SpaceShip.fire now fresh s, timers ++ [100])
  else (with_shooting (SpaceShip.shooting s) false s, timers).

(** [start_shooting]. *)
Definition start_shooting (now : Q) (fresh : nat) (st : state) : state :=
  let '(s, timers) := st in
  if negb (SpaceShip.shooting s)
  then shoot_loop now fresh (with_shooting true true s, timers)
  else (s, timers).

(** [stop_shooting]. *)
Definition stop_shooting (st : state) : state :=
  let '(s, timers) := st in (with_shooting false false s, timers).

End ShootLoop.

(** Four patterns as [random_pattern] may draw them. *)
Definition sample_patterns : list Pattern :=
  [[[true; false; true]; [true; true; true]];
   [[false; true; true; false]; [true; true; true; true]];
   [[true; true; true]; [false; false; false]];
   [[true; false; true; false; true; true];
    [true; true; true; true; true; true];
    [false; true; false; true; false; true]]].

(** [f] to the [n]-th power. *)
Fixpoint geometric (f : Q) (n : nat) : Q :=
  match n with
  | O => 1
  | S n => (f * geometric f n)%Q
  end.

(** [r] is the larger, respectively the smaller, of [a] and [b]. *)
Definition is_max (r a b : Q) : Prop := (a <= r /\ b <= r /\ (r == a \/ r == b))%Q.
Definition is_min (r a b : Q) : Prop := (r <= a /\ r <= b /\ (r == a \/ r == b))%Q.

(** ** Further model: the events of a running game *)

(** What reaches a running game between two frames: a step of the ship's
    movement loop, a [game_loop] timer, the pause key, the [resume_game]
    timer of a level change and a timer of the swarm.  [fault] is as in
    [game_loop]; [patterns] and [id] as in [Window.resume_game]. *)
Inductive GameEvent :=
| ShipStep (m : Move)
| LoopTimer (fault : option nat)
| PauseKey (fault : option nat)
| ResumeTimer (fault : option nat) (patterns : list Pattern) (id : nat)
| SwarmTimer (cb : Callback) (rnd : Draw).

Definition apply_game_event (e : GameEvent) (st : ScreenGame.t * LevelManager.t)
  : ScreenGame.t * LevelManager.t :=
  let '(g, lm) := st in
  match e with
  | ShipStep m => (ScreenGame.on_active_ship (apply_move m) g, lm)
  | LoopTimer fault => (ScreenGame.game_loop fault g, lm)
  | PauseKey fault => (Window.toggle_pause fault g, lm)
  | ResumeTimer fault patterns id => Window.resume_game fault patterns id (g, lm)
  | SwarmTimer cb rnd =>
      let '(a, scr) :=
        Aliens.fire_callback cb rnd (ScreenGame.aliens g, ScreenGame.screen g) in
      (ScreenGame.mk (ScreenGame.player1_ship g) (ScreenGame.player2_ship g)
         (ScreenGame.active_is_player1 g) a (ScreenGame.shields g)
         (ScreenGame.boss_ship g) (ScreenGame.level g) (ScreenGame.paused g)
         (ScreenGame.started g) (ScreenGame.canvas_exists g) scr
         (ScreenGame.transition_running g), lm)
  end.

Definition run_events (events : list GameEvent) (st : ScreenGame.t * LevelManager.t)
  : ScreenGame.t * LevelManager.t :=
  fold_left (fun st e => apply_game_event e st) events st.

(** A ship is within the walls, has at least [floor] points and at most
    [MAX_LIVES] lives. *)
Definition ship_safe (floor : Z) (s : SpaceShip.t) : Prop :=
  ship_in_bounds s /\ floor <= SpaceShip.score s /\ SpaceShip.lives s <= MAX_LIVES.

Definition ships_safe (floor1 floor2 : Z) (g : ScreenGame.t) : Prop :=
  ship_safe floor1 (ScreenGame.player1_ship g)
  /\ ship_safe floor2 (ScreenGame.player2_ship g).

(** The number of [resume_game] timers armed in a game's screen. *)
Definition resumes (g : ScreenGame.t) : nat :=
  Screen.armed cb_resume_game (ScreenGame.screen g).

(** * Part II: theorems *)

Lemma Qltb_lt (a b : Q) : Qltb a b = true <-> (a < b)%Q.
Proof.
  unfold Qltb. rewrite negb_true_iff.
  destruct (Qle_bool b a) eqn:E.
  - apply Qle_bool_iff in E. split; [discriminate | intros; lra].
  - split; [intros _ | reflexivity].
    destruct (Qlt_le_dec a b) as [Hlt | Hle]; [exact Hlt |].
    apply Qle_bool_iff in Hle. congruence.
Qed.

(** [distance_lt] is the comparison of the Euclidean distance, a real
    square root, with the threshold. *)
Lemma distance_lt_sqrt (a b : Pos) (t : Q) :
  distance_lt a b t = true <-> (sqrt (Q2R (dist2 a b)) < Q2R t)%R.
Proof.
  unfold distance_lt. rewrite andb_true_iff, !Qltb_lt.
  assert (Hd : (0 <= Q2R (dist2 a b))%R).
  { unfold dist2. rewrite Q2R_plus, !Q2R_mult.
    pose proof (Rle_0_sqr (Q2R (px a - px b))).
    pose proof (Rle_0_sqr (Q2R (py a - py b))).
    unfold Rsqr in *. lra. }
  split.
  - intros [Ht Hlt]. apply Qlt_Rlt in Ht, Hlt. rewrite Q2R_mult in Hlt.
    rewrite RMicromega.Q2R_0 in Ht.
    rewrite <- (sqrt_square (Q2R t)) by lra.
    apply sqrt_lt_1_alt. lra.
  - intros Hlt. pose proof (sqrt_pos (Q2R (dist2 a b))) as Hs.
    split.
    + apply Rlt_Qlt. rewrite RMicromega.Q2R_0. lra.
    + apply Rlt_Qlt. rewrite Q2R_mult.
      rewrite <- (sqrt_sqrt (Q2R (dist2 a b))) at 1 by exact Hd.
      nra.
Qed.

(** ** Shield blocks *)


Lemma take_damage_hp (b : ShieldBlock.t) :
  ShieldBlock.hp (ShieldBlock.take_damage b) = ShieldBlock.hp b - 1.
Proof.
  unfold ShieldBlock.take_damage; cbn.
  repeat (case_match; cbn); reflexivity.
Qed.

Lemma resolve_hit_iter_inv (id : nat) (p : Pos) (n : nat) :
  let b := Nat.iter n ShieldBlock.resolve_hit (ShieldBlock.init id p) in
  ShieldBlock.hp b = Z.max 0 (3 - Z.of_nat n)
  /\ ShieldBlock.active b = (0 <? ShieldBlock.hp b)
  /\ ShieldBlock.shown b = ShieldBlock.active b
  /\ ShieldBlock.color b = ShieldBlock.color_of_hp (ShieldBlock.hp b).
Proof.
  induction n as [| n IH]; [cbn; auto |].
  cbn zeta in *. rewrite Nat.iter_succ.
  destruct (Nat.iter n ShieldBlock.resolve_hit (ShieldBlock.init id p))
    as [i q h a c s].
  cbn in IH. destruct IH as (Hh & Ha & Hs & Hc).
  unfold ShieldBlock.resolve_hit; cbn.
  destruct a; cbn.
  - symmetry in Ha. apply Z.ltb_lt in Ha.
    assert (Hn : (n = 0 \/ n = 1 \/ n = 2)%nat) by lia.
    destruct Hn as [-> | [-> | ->]]; cbn in Hh; subst h;
      unfold ShieldBlock.take_damage; cbn; auto.
  - symmetry in Ha. apply Z.ltb_ge in Ha.
    repeat split; auto; lia.
Qed.

(** C7. Shield blocks take monotonic damage: after [n] hits resolved by the
    collision passes a block created with 3 hit points has
    [max 0 (3 - n)] hit points; it is inactive exactly when its hit points
    are 0; its visibility and colour are functions of its hit points; and
    every call of [take_damage] lowers the hit points by exactly 1. *)
Theorem shield_block_monotonic_damage (id : nat) (p : Pos) (n : nat) :
  let b := Nat.iter n ShieldBlock.resolve_hit (ShieldBlock.init id p) in
  ShieldBlock.hp b = Z.max 0 (3 - Z.of_nat n)
  /\ (ShieldBlock.active b = false <-> ShieldBlock.hp b = 0)
  /\ ShieldBlock.color b = ShieldBlock.color_of_hp (ShieldBlock.hp b)
  /\ ShieldBlock.shown b = (0 <? ShieldBlock.hp b)
  /\ (ShieldBlock.active b = true ->
      ShieldBlock.hp (ShieldBlock.resolve_hit b) = ShieldBlock.hp b - 1)
  /\ (forall b' : ShieldBlock.t,
        ShieldBlock.hp (ShieldBlock.take_damage b') = ShieldBlock.hp b' - 1).
Proof.
  intros b.
  destruct (resolve_hit_iter_inv id p n) as (Hh & Ha & Hs & Hc).
  fold b in Hh, Ha, Hs, Hc.
  repeat split; auto using take_damage_hp.
  - rewrite Ha. intros E. apply Z.ltb_ge in E. lia.
  - intros E. rewrite Ha, E. reflexivity.
  - congruence.
  - intros E. unfold ShieldBlock.resolve_hit. rewrite E. apply take_damage_hp.
Qed.

(** ** The ship *)

Lemma go_right_in_bounds (s : SpaceShip.t) :
  ship_in_bounds s -> ship_in_bounds (SpaceShip.go_right s).
Proof.
  unfold ship_in_bounds, SpaceShip.go_right. intros [Hl Hr].
  destruct (Qle_bool _ _) eqn:E; cbn; [| auto].
  apply Qle_bool_iff in E. split; [lra | exact E].
Qed.

Lemma go_left_in_bounds (s : SpaceShip.t) :
  ship_in_bounds s -> ship_in_bounds (SpaceShip.go_left s).
Proof.
  unfold ship_in_bounds, SpaceShip.go_left. intros [Hl Hr].
  destruct (Qle_bool _ _) eqn:E; cbn; [| auto].
  apply Qle_bool_iff in E. split; [exact E | lra].
Qed.

Lemma moves_in_bounds (moves : list Move) (s : SpaceShip.t) :
  ship_in_bounds s ->
  ship_in_bounds (fold_left (fun s m => apply_move m s) moves s).
Proof.
  revert s. induction moves as [| m moves IH]; intros s Hs; [exact Hs |].
  cbn. apply IH. destruct m; cbn; auto using go_right_in_bounds, go_left_in_bounds.
Qed.

(** C10. Ship boundary invariant: starting within
    [[left wall + ship_width/2, right wall - ship_width/2]], the ship's
    x-position is within that interval after every call of a sequence of
    [go_right] and [go_left] calls; a call either moves the ship by exactly 20
    or, when that would leave the interval, leaves the ship as it is. *)
Theorem ship_boundary_invariant (moves : list Move) (s : SpaceShip.t) :
  ship_in_bounds s ->
  (forall k : nat,
     ship_in_bounds (fold_left (fun s m => apply_move m s) (take k moves) s))
  /\ (forall s' : SpaceShip.t, ship_in_bounds s' ->
        (SpaceShip.go_right s' = s'
         /\ ~ (px (SpaceShip.ship_pos s') + 20 <= WALLS_right - SpaceShip.ship_width / 2)%Q
         \/ px (SpaceShip.ship_pos (SpaceShip.go_right s'))
            = (px (SpaceShip.ship_pos s') + 20)%Q)
        /\ (SpaceShip.go_left s' = s'
            /\ ~ (WALLS_left + SpaceShip.ship_width / 2 <= px (SpaceShip.ship_pos s') - 20)%Q
            \/ px (SpaceShip.ship_pos (SpaceShip.go_left s'))
               = (px (SpaceShip.ship_pos s') - 20)%Q)).
Proof.
  intros Hs. split.
  - intros k. apply moves_in_bounds, Hs.
  - intros s' _. split.
    + unfold SpaceShip.go_right. destruct (Qle_bool _ _) eqn:E; cbn; [right; reflexivity |].
      left. split; [reflexivity |]. intros Hle. apply Qle_bool_iff in Hle. congruence.
    + unfold SpaceShip.go_left. destruct (Qle_bool _ _) eqn:E; cbn; [right; reflexivity |].
      left. split; [reflexivity |]. intros Hle. apply Qle_bool_iff in Hle. congruence.
Qed.

(** The invariant at work: the fourth step right from x = 380 is refused. *)
Lemma ship_boundary_invariant_witness :
  ship_in_bounds
    (fold_left (fun s m => apply_move m s)
       (take 4 [MoveRight; MoveRight; MoveRight; MoveRight; MoveLeft])
       ship_near_right_wall).
Proof.
  refine (proj1 (ship_boundary_invariant
                   [MoveRight; MoveRight; MoveRight; MoveRight; MoveLeft]
                   ship_near_right_wall _) 4%nat).
  split; vm_compute; discriminate.
Defined.

Lemma count_active_app (l1 l2 : list Laser.t) :
  count_active (l1 ++ l2) = (count_active l1 + count_active l2)%nat.
Proof. unfold count_active. rewrite filter_app, length_app. reflexivity. Qed.

Lemma move_keeps_inactive (l : Laser.t) :
  Laser.active (Laser.move l) = true -> Laser.active l = true.
Proof.
  unfold Laser.move. destruct (Laser.active l) eqn:E; [reflexivity |].
  intros H. congruence.
Qed.

Lemma count_active_update (ls : list Laser.t) :
  (count_active (filter (fun l => Laser.active l = true) (map Laser.move ls))
   <= count_active ls)%nat.
Proof.
  unfold count_active. induction ls as [| l ls IH]; [cbn; lia |].
  rewrite map_cons, (filter_cons _ (Laser.move l)), (filter_cons _ l).
  destruct (decide (Laser.active (Laser.move l) = true)) as [E | E].
  - rewrite filter_cons, decide_True by exact E.
    rewrite decide_True by (apply move_keeps_inactive, E). cbn. lia.
  - destruct (decide (Laser.active l = true)); cbn; lia.
Qed.

Lemma update_lasers_iter_fields (n : nat) (s : SpaceShip.t) :
  let s' := Nat.iter n SpaceShip.update_lasers s in
  SpaceShip.last_shot_time s' = SpaceShip.last_shot_time s
  /\ SpaceShip.shot_cooldown s' = SpaceShip.shot_cooldown s
  /\ (count_active (SpaceShip.lasers s') <= count_active (SpaceShip.lasers s))%nat.
Proof.
  induction n as [| n IH]; cbn zeta; [auto |].
  rewrite Nat.iter_succ. destruct IH as (Ht & Hc & Hn).
  unfold SpaceShip.update_lasers at 1 2 3. cbn. repeat split; auto.
  etransitivity; [apply count_active_update | exact Hn].
Qed.

Lemma count_active_elem (l : Laser.t) (ls : list Laser.t) :
  l ∈ ls -> Laser.active l = true -> (1 <= count_active ls)%nat.
Proof.
  intros Hin Ha. unfold count_active.
  assert (Hf : l ∈ filter (fun l => Laser.active l = true) ls)
    by (apply list_elem_of_filter; auto).
  destruct (filter _ ls); [inversion Hf | cbn; lia].
Qed.

(** C9, as the code has it.  With a cooldown of 1.5 seconds, when [fire] at
    time [t] creates a laser and [fire] is called again at [t + 0.1] (after
    any number of laser updates) while that laser is still active, the
    second call changes nothing: it creates no laser, and the ship has as
    many active lasers after both calls as before the second, at least one
    and at most one more than before the first.  That number is exactly one
    when no laser was active before the first call. *)
Theorem fire_cooldown_single_laser
    (s : SpaceShip.t) (t : Q) (id1 id2 n : nat) :
  SpaceShip.shot_cooldown s = (15 # 10)%Q ->
  let s1 := SpaceShip.fire t id1 s in
  length (SpaceShip.lasers s1) = S (length (SpaceShip.lasers s)) ->
  let s1' := Nat.iter n SpaceShip.update_lasers s1 in
  (exists l, l ∈ SpaceShip.lasers s1' /\ Laser.laser_id l = id1
             /\ Laser.active l = true) ->
  let s2 := SpaceShip.fire (t + (1 # 10))%Q id2 s1' in
  s2 = s1'
  /\ SpaceShip.lasers s2 = SpaceShip.lasers s1'
  /\ (1 <= count_active (SpaceShip.lasers s2)
      <= S (count_active (SpaceShip.lasers s)))%nat
  /\ (count_active (SpaceShip.lasers s) = 0%nat ->
      count_active (SpaceShip.lasers s2) = 1%nat).
Proof.
  intros Hcd s1 Hfired s1' (l & Hin & _ & Hact) s2.
  destruct (update_lasers_iter_fields n s1) as (Ht & Hc & Hn).
  fold s1' in Ht, Hc, Hn.
  (* the first call took the firing branch *)
  assert (Hs1 : SpaceShip.last_shot_time s1 = t
                /\ SpaceShip.shot_cooldown s1 = (15 # 10)%Q
                /\ count_active (SpaceShip.lasers s1)
                   = S (count_active (SpaceShip.lasers s))).
  { subst s1. revert Hfired. unfold SpaceShip.fire.
    destruct (negb _ || Qle_bool _ _);
      cbn [SpaceShip.lasers SpaceShip.with_lasers SpaceShip.with_last_shot_time
           SpaceShip.last_shot_time SpaceShip.shot_cooldown].
    - intros _. repeat split; auto.
      rewrite count_active_app. unfold count_active at 2.
      rewrite filter_cons, decide_True by reflexivity. cbn. lia.
    - lia. }
  destruct Hs1 as (Hlast & Hcool & Hcount).
  assert (Hsame : s2 = s1').
  { subst s2. unfold SpaceShip.fire.
    assert (E1 : existsb Laser.active (SpaceShip.lasers s1') = true).
    { apply existsb_exists. exists l. split; [| exact Hact].
      apply list_elem_of_In, Hin. }
    rewrite E1. cbn [negb orb].
    rewrite Hc, Hcool, Ht, Hlast.
    destruct (Qle_bool _ _) eqn:E2; [| reflexivity].
    apply Qle_bool_iff in E2. lra. }
  pose proof (count_active_elem l _ Hin Hact) as Hone.
  split; [exact Hsame |]. rewrite Hsame.
  split; [reflexivity |]. split; [lia |].
  intros H0. lia.
Qed.

(** C9, as stated, fails: a laser fired at time 0 is still in flight when the
    cooldown has elapsed, so [fire] at time 1.5 creates a second laser; that
    laser is active when [fire] is called again at time 1.6, the call
    creates no laser, and two active lasers exist after both calls. *)
Lemma fire_cooldown_two_active_lasers :
  SpaceShip.shot_cooldown ship_with_laser_in_flight = (15 # 10)%Q
  /\ length (SpaceShip.lasers second_shot)
     = S (length (SpaceShip.lasers ship_with_laser_in_flight))
  /\ (exists l, l ∈ SpaceShip.lasers after_second_shot
                /\ Laser.laser_id l = 8%nat /\ Laser.active l = true)
  /\ SpaceShip.fire ((15 # 10) + (1 # 10))%Q 9 after_second_shot = after_second_shot
  /\ count_active
       (SpaceShip.lasers (SpaceShip.fire ((15 # 10) + (1 # 10))%Q 9 after_second_shot))
     = 2%nat
  /\ count_active
       (SpaceShip.lasers (SpaceShip.fire ((15 # 10) + (1 # 10))%Q 9 after_second_shot))
     <> 1%nat.
Proof.
  split; [reflexivity |]. split; [reflexivity |]. split.
  { eexists. split; [| split].
    - vm_compute. apply list_elem_of_further, list_elem_of_here.
    - reflexivity.
    - reflexivity. }
  split; [reflexivity |]. split; [reflexivity |].
  vm_compute. discriminate.
Qed.

(** A fresh ship firing at time 100 and again at 100.1, five laser updates
    later. *)
Lemma fire_cooldown_single_laser_witness :
  SpaceShip.fire (100 + (1 # 10))%Q 8
    (Nat.iter 5 SpaceShip.update_lasers (SpaceShip.fire 100 7 fresh_ship))
  = Nat.iter 5 SpaceShip.update_lasers (SpaceShip.fire 100 7 fresh_ship)
  /\ count_active
       (SpaceShip.lasers
          (SpaceShip.fire (100 + (1 # 10))%Q 8
             (Nat.iter 5 SpaceShip.update_lasers (SpaceShip.fire 100 7 fresh_ship))))
     = 1%nat.
Proof.
  assert (H : exists l,
             l ∈ SpaceShip.lasers
                   (Nat.iter 5 SpaceShip.update_lasers (SpaceShip.fire 100 7 fresh_ship))
             /\ Laser.laser_id l = 7%nat /\ Laser.active l = true).
  { eexists. split; [| split].
    - vm_compute. apply list_elem_of_here.
    - reflexivity.
    - reflexivity. }
  destruct (fire_cooldown_single_laser fresh_ship 100 7 8 5
              eq_refl eq_refl H) as (Hsame & _ & _ & Hone).
  split; [exact Hsame | apply Hone; reflexivity].
Defined.

(** ** Bonus lives *)

(** Linear arithmetic with division and remainder by constants. *)
Ltac div_lia := Z.to_euclidean_division_equations; lia.

Lemma score_update_spec (s : SpaceShip.t) :
  let s' := ScreenGame.score_update s in
  let p := SpaceShip.points_since_last_life s + POINTS_PER_ENEMY in
  (BONUS_LIFE_THRESHOLD <= p /\ SpaceShip.lives s < MAX_LIVES
   /\ SpaceShip.lives s' = SpaceShip.lives s + 1
   /\ SpaceShip.points_since_last_life s' = 0)
  \/ (~ (BONUS_LIFE_THRESHOLD <= p /\ SpaceShip.lives s < MAX_LIVES)
      /\ SpaceShip.lives s' = SpaceShip.lives s
      /\ SpaceShip.points_since_last_life s' = p).
Proof.
  unfold ScreenGame.score_update. cbn.
  destruct (Z.leb_spec BONUS_LIFE_THRESHOLD
              (SpaceShip.points_since_last_life s + POINTS_PER_ENEMY)) as [Hp | Hp];
    [destruct (Z.ltb_spec (SpaceShip.lives s) MAX_LIVES) as [Hl | Hl] |]; cbn.
  - left. auto.
  - right. repeat split; auto. lia.
  - right. repeat split; auto. lia.
Qed.

Lemma active_ship_on_active_ship (f : SpaceShip.t -> SpaceShip.t) (g : ScreenGame.t) :
  ScreenGame.active_ship (ScreenGame.on_active_ship f g) = f (ScreenGame.active_ship g).
Proof.
  unfold ScreenGame.active_ship, ScreenGame.on_active_ship.
  destruct (ScreenGame.active_is_player1 g) eqn:E; cbn; rewrite ?E; reflexivity.
Qed.

(** Both kinds of score event act on the life counters like one call of
    [score_update]. *)
Lemma apply_score_event_spec (e : ScoreEvent) (g : ScreenGame.t) :
  let s := ScreenGame.active_ship g in
  let s' := ScreenGame.active_ship (apply_score_event e g) in
  SpaceShip.lives s' = SpaceShip.lives (ScreenGame.score_update s)
  /\ SpaceShip.points_since_last_life s'
     = SpaceShip.points_since_last_life (ScreenGame.score_update s).
Proof.
  destruct e; cbn zeta; unfold apply_score_event, ScreenGame.boss_destroyed,
    ScreenGame.update_active_player_score;
    rewrite !active_ship_on_active_ship; auto.
  unfold ScreenGame.score_update; cbn.
  split; repeat case_match; reflexivity.
Qed.

Lemma score_events_lives (events : list ScoreEvent) (g : ScreenGame.t) :
  let s := ScreenGame.active_ship g in
  let s' := ScreenGame.active_ship
              (fold_left (fun g e => apply_score_event e g) events g) in
  SpaceShip.lives s <= MAX_LIVES ->
  0 <= SpaceShip.points_since_last_life s ->
  SpaceShip.points_since_last_life s mod POINTS_PER_ENEMY = 0 ->
  (SpaceShip.lives s < MAX_LIVES ->
   SpaceShip.points_since_last_life s < BONUS_LIFE_THRESHOLD) ->
  SpaceShip.lives s'
  = Z.min MAX_LIVES
      (SpaceShip.lives s
       + (SpaceShip.points_since_last_life s
          + POINTS_PER_ENEMY * Z.of_nat (length events)) / BONUS_LIFE_THRESHOLD)
  /\ 0 <= SpaceShip.points_since_last_life s'
  /\ SpaceShip.points_since_last_life s' mod POINTS_PER_ENEMY = 0
  /\ (SpaceShip.lives s' < MAX_LIVES ->
      SpaceShip.points_since_last_life s' < BONUS_LIFE_THRESHOLD).
Proof.
  revert g. induction events as [| e events IH]; intros g; cbn zeta.
  - intros Hl H0 Hm Hb. cbn [fold_left length].
    unfold MAX_LIVES, POINTS_PER_ENEMY, BONUS_LIFE_THRESHOLD in *.
    repeat split; auto. div_lia.
  - intros Hl H0 Hm Hb. cbn [fold_left].
    specialize (IH (apply_score_event e g)). cbn zeta in IH.
    destruct (apply_score_event_spec e g) as [El Ep]. cbn zeta in El, Ep.
    rewrite El, Ep in IH.
    destruct (score_update_spec (ScreenGame.active_ship g))
      as [(Hp & Hlt & Hl' & Hp') | (Hno & Hl' & Hp')]; cbn zeta in *;
      rewrite Hl', Hp' in IH;
      unfold MAX_LIVES, POINTS_PER_ENEMY, BONUS_LIFE_THRESHOLD in *;
      rewrite length_cons, Nat2Z.inj_succ.
    + destruct IH as (IH1 & IH2); [lia | lia | reflexivity | lia |].
      split; [| exact IH2]. rewrite IH1. div_lia.
    + destruct IH as (IH1 & IH2); [lia | lia | div_lia | lia |].
      split; [| exact IH2]. rewrite IH1. div_lia.
Qed.

(** Every life granted uses up the counter, which has reached the
    threshold. *)
Lemma score_events_bound (events : list ScoreEvent) (g : ScreenGame.t) :
  let s := ScreenGame.active_ship g in
  let s' := ScreenGame.active_ship
              (fold_left (fun g e => apply_score_event e g) events g) in
  SpaceShip.lives s <= SpaceShip.lives s'
  /\ SpaceShip.lives s' <= Z.max (SpaceShip.lives s) MAX_LIVES
  /\ (0 <= SpaceShip.points_since_last_life s ->
      0 <= SpaceShip.points_since_last_life s'
      /\ BONUS_LIFE_THRESHOLD * (SpaceShip.lives s' - SpaceShip.lives s)
         + SpaceShip.points_since_last_life s'
         <= SpaceShip.points_since_last_life s
            + POINTS_PER_ENEMY * Z.of_nat (length events)).
Proof.
  revert g. induction events as [| e events IH]; intros g; cbn zeta.
  - cbn [fold_left length]. unfold BONUS_LIFE_THRESHOLD, POINTS_PER_ENEMY. lia.
  - cbn [fold_left].
    specialize (IH (apply_score_event e g)). cbn zeta in IH.
    destruct (apply_score_event_spec e g) as [El Ep]. cbn zeta in El, Ep.
    rewrite El, Ep in IH.
    destruct IH as (I1 & I2 & I3).
    rewrite length_cons, Nat2Z.inj_succ.
    destruct (score_update_spec (ScreenGame.active_ship g))
      as [(Hp & Hlt & Hl' & Hp') | (Hno & Hl' & Hp')]; cbn zeta in *;
      rewrite Hl' in I1, I2, I3; rewrite Hp' in I3;
      unfold MAX_LIVES, POINTS_PER_ENEMY, BONUS_LIFE_THRESHOLD in *;
      (split; [lia |]; split; [lia |]; intros H0;
       destruct I3 as [I3 I4]; [lia |]; split; [exact I3 | lia]).
Qed.

(** C5, as the code has it.  For every ship and every sequence of score
    updates: lives never decrease and never exceed the cap of 5 (a ship that
    starts within the cap stays within it); a counter that is not negative
    stays so, and every life granted has used up at least 2000 points of the
    counter.  An update grants a life exactly when, with its 20 points
    added, the counter is at least 2000 and the ship has fewer than 5 lives;
    it then grants exactly one life and leaves the counter at exactly 0,
    and otherwise it leaves the lives alone and adds 20 to the counter.
    From a ship whose counter is a multiple of 20 and below 2000 unless the
    ship is at the cap, the ship has exactly one more life per full 2000
    points accumulated, capped at 5. *)
Theorem bonus_life_threshold (events : list ScoreEvent) (g : ScreenGame.t) :
  let s := ScreenGame.active_ship g in
  let g' := fold_left (fun g e => apply_score_event e g) events g in
  let s' := ScreenGame.active_ship g' in
  SpaceShip.lives s <= SpaceShip.lives s'
  /\ SpaceShip.lives s' <= Z.max (SpaceShip.lives s) MAX_LIVES
  /\ (0 <= SpaceShip.points_since_last_life s ->
      0 <= SpaceShip.points_since_last_life s'
      /\ BONUS_LIFE_THRESHOLD * (SpaceShip.lives s' - SpaceShip.lives s)
         + SpaceShip.points_since_last_life s'
         <= SpaceShip.points_since_last_life s
            + POINTS_PER_ENEMY * Z.of_nat (length events))
  /\ (forall e : ScoreEvent,
        let s'' := ScreenGame.active_ship (apply_score_event e g') in
        (BONUS_LIFE_THRESHOLD <= SpaceShip.points_since_last_life s' + POINTS_PER_ENEMY
         /\ SpaceShip.lives s' < MAX_LIVES
         /\ SpaceShip.lives s'' = SpaceShip.lives s' + 1
         /\ SpaceShip.points_since_last_life s'' = 0)
        \/ (~ (BONUS_LIFE_THRESHOLD
               <= SpaceShip.points_since_last_life s' + POINTS_PER_ENEMY
               /\ SpaceShip.lives s' < MAX_LIVES)
            /\ SpaceShip.lives s'' = SpaceShip.lives s'
            /\ SpaceShip.points_since_last_life s''
               = SpaceShip.points_since_last_life s' + POINTS_PER_ENEMY))
  /\ (SpaceShip.lives s <= MAX_LIVES ->
      0 <= SpaceShip.points_since_last_life s ->
      SpaceShip.points_since_last_life s mod POINTS_PER_ENEMY = 0 ->
      (SpaceShip.lives s < MAX_LIVES ->
       SpaceShip.points_since_last_life s < BONUS_LIFE_THRESHOLD) ->
      SpaceShip.lives s'
      = Z.min MAX_LIVES
          (SpaceShip.lives s
           + (SpaceShip.points_since_last_life s
              + POINTS_PER_ENEMY * Z.of_nat (length events)) / BONUS_LIFE_THRESHOLD)).
Proof.
  intros s g' s'.
  destruct (score_events_bound events g) as (B1 & B2 & B3).
  fold g' in B1, B2, B3. fold s s' in B1, B2, B3.
  split; [exact B1 |]. split; [exact B2 |]. split; [exact B3 |]. split.
  - intros e s''.
    destruct (apply_score_event_spec e g') as [El Ep]. fold s' s'' in El, Ep.
    destruct (score_update_spec s') as [(Ht & Hlt & Hl' & Hp') | (Hno & Hl' & Hp')];
      cbn zeta in *; rewrite El, Ep.
    + left. auto.
    + right. auto.
  - intros Hl H0 Hm Hb.
    exact (proj1 (score_events_lives events g Hl H0 Hm Hb)).
Qed.

(** C5, as stated, fails from a ship that lost lives at the cap.  After 400
    kills the ship has 5 lives and a counter of 4000; two hits later it has
    3 lives and the same counter.  The next update grants a life although
    the counter was above the threshold already, so nothing is crossed; and
    50 updates (1000 points) leave 4 lives, not the 5 of one life per full
    2000 points. *)
Lemma bonus_life_without_crossing :
  SpaceShip.lives (ScreenGame.active_ship game_after_cap) = 3
  /\ SpaceShip.points_since_last_life (ScreenGame.active_ship game_after_cap) = 4000
  /\ BONUS_LIFE_THRESHOLD
     <= SpaceShip.points_since_last_life (ScreenGame.active_ship game_after_cap)
  /\ SpaceShip.lives
       (ScreenGame.active_ship (apply_score_event EnemyDestroyed game_after_cap)) = 4
  /\ SpaceShip.points_since_last_life
       (ScreenGame.active_ship (apply_score_event EnemyDestroyed game_after_cap)) = 0
  /\ SpaceShip.lives
       (ScreenGame.active_ship
          (fold_left (fun g e => apply_score_event e g) (repeat EnemyDestroyed 50)
             game_after_cap)) = 4
  /\ Z.min MAX_LIVES
       (SpaceShip.lives (ScreenGame.active_ship game_after_cap)
        + (SpaceShip.points_since_last_life (ScreenGame.active_ship game_after_cap)
           + POINTS_PER_ENEMY * 50) / BONUS_LIFE_THRESHOLD) = 5.
Proof.
  repeat split; try (vm_compute; reflexivity). vm_compute. discriminate.
Qed.

(** Ninety-nine aliens and a boss: the hundredth update grants the fourth
    life. *)
Lemma bonus_life_threshold_witness :
  SpaceShip.lives
    (ScreenGame.active_ship
       (fold_left (fun g e => apply_score_event e g)
          (repeat EnemyDestroyed 99 ++ [BossDestroyed]) opening_game))
  = 4.
Proof.
  pose proof (bonus_life_threshold (repeat EnemyDestroyed 99 ++ [BossDestroyed])
                opening_game) as H.
  cbv zeta in H. destruct H as (_ & _ & _ & _ & H).
  refine (eq_trans (H _ _ _ _) _).
  - vm_compute. discriminate.
  - vm_compute. discriminate.
  - reflexivity.
  - intros _. reflexivity.
  - reflexivity.
Defined.

(** ** The alien swarm *)

Lemma move_loop_spec (dx : Q) (als : list Alien.t) (sd : bool) :
  Aliens.move_loop dx als sd
  = (map (fun alien => Alien.setx (px (Alien.alien_pos alien) + dx)%Q alien) als,
     sd || existsb (fun alien => Aliens.hits_edge (px (Alien.alien_pos alien) + dx)%Q) als).
Proof.
  revert sd. induction als as [| alien rest IH]; intros sd; cbn.
  - rewrite orb_false_r. reflexivity.
  - rewrite IH. destruct (Aliens.hits_edge _), sd; reflexivity.
Qed.

Lemma hits_edge_reaches (dx : Q) (als : list Alien.t) :
  existsb (fun alien => Aliens.hits_edge (px (Alien.alien_pos alien) + dx)%Q) als = true
  <-> reaches_edge dx als.
Proof.
  unfold reaches_edge. rewrite existsb_exists. unfold Aliens.hits_edge.
  split; intros (alien & Hin & Hedge); exists alien.
  - split; [apply list_elem_of_In, Hin |].
    apply orb_true_iff in Hedge. rewrite !Qltb_lt in Hedge. exact Hedge.
  - split; [apply list_elem_of_In, Hin |].
    apply orb_true_iff. rewrite !Qltb_lt. exact Hedge.
Qed.

Lemma translated_map (dx dy : Q) (f : Alien.t -> Alien.t) (als : list Alien.t) :
  (forall a, translated dx dy a (f a)) ->
  Forall2 (translated dx dy) als (map f als).
Proof.
  intros Hf. induction als; cbn; constructor; auto.
Qed.

(** C6. Swarm lock-step.  One [move_aliens] on a running, non-empty swarm
    translates every alien by the same vector: [(dx, -step_y)] with the
    direction negated when some alien's new x-coordinate is beyond the right
    bound minus 40 or below the left bound plus 40, and [(dx, 0)] with the
    direction kept otherwise, where [dx = step_x * direction]; so the
    direction flips if and only if some alien reaches an edge. *)
Theorem swarm_lock_step (a : Aliens.t) :
  Aliens.is_running a = true ->
  Aliens.aliens a <> [] ->
  let dx := inject_Z (Aliens.step_x a * Aliens.direction a) in
  let a' := Aliens.move_aliens a in
  (reaches_edge dx (Aliens.aliens a) ->
   Aliens.direction a' = - Aliens.direction a
   /\ Forall2 (translated dx (- inject_Z (Aliens.step_y a))) (Aliens.aliens a) (Aliens.aliens a'))
  /\ (~ reaches_edge dx (Aliens.aliens a) ->
      Aliens.direction a' = Aliens.direction a
      /\ Forall2 (translated dx 0) (Aliens.aliens a) (Aliens.aliens a'))
  /\ (Aliens.direction a <> 0 ->
      (Aliens.direction a' <> Aliens.direction a <-> reaches_edge dx (Aliens.aliens a))).
Proof.
  intros Hrun Hne dx a'.
  assert (Ha' : a' = if existsb (fun alien => Aliens.hits_edge (px (Alien.alien_pos alien) + dx)%Q)
                          (Aliens.aliens a)
                     then Aliens.with_aliens
                            (map (fun alien =>
                                    Alien.sety (py (Alien.alien_pos alien)
                                                - inject_Z (Aliens.step_y a))%Q alien)
                               (map (fun alien => Alien.setx (px (Alien.alien_pos alien) + dx)%Q alien)
                                  (Aliens.aliens a)))
                            (Aliens.with_direction (Aliens.direction a * -1) a)
                     else Aliens.with_aliens
                            (map (fun alien => Alien.setx (px (Alien.alien_pos alien) + dx)%Q alien)
                               (Aliens.aliens a)) a).
  { subst a'. unfold Aliens.move_aliens. rewrite Hrun.
    rewrite bool_decide_eq_false_2 by exact Hne. cbn [negb orb].
    rewrite move_loop_spec. reflexivity. }
  pose proof (hits_edge_reaches dx (Aliens.aliens a)) as Hedge.
  destruct (existsb _ (Aliens.aliens a)) eqn:E.
  - assert (Hr : reaches_edge dx (Aliens.aliens a)) by (apply Hedge; reflexivity).
    rewrite Ha'. cbn. split; [| split].
    + intros _. split; [lia |]. rewrite map_map. apply translated_map.
      intros x. unfold translated; cbn. repeat split; lra.
    + intros Hn. contradiction.
    + intros Hd. split; [auto | intros _; lia].
  - assert (Hr : ~ reaches_edge dx (Aliens.aliens a)).
    { intros Hr. apply Hedge in Hr. discriminate. }
    rewrite Ha'. cbn. split; [| split].
    + intros Hy. contradiction.
    + intros _. split; [reflexivity |]. apply translated_map.
      intros x. unfold translated; cbn. repeat split; lra.
    + intros Hd. split; [intros Hx; congruence | intros Hy; contradiction].
Qed.

(** The swarm one step from the right margin turns and descends. *)
Lemma swarm_lock_step_witness :
  Aliens.direction (Aliens.move_aliens swarm_at_right_edge) = - 1
  /\ Forall2 (translated 10 (- 10))
       (Aliens.aliens swarm_at_right_edge)
       (Aliens.aliens (Aliens.move_aliens swarm_at_right_edge)).
Proof.
  refine (proj1 (swarm_lock_step swarm_at_right_edge eq_refl _) _).
  - discriminate.
  - exists (Alien.mk 11 (mkPos 440 212) true). split.
    + apply list_elem_of_further, list_elem_of_here.
    + left. vm_compute. reflexivity.
Defined.

(** C8. Stale timer idempotence: right after [cancel_timers], firing any
    movement or shooting callback leaves the swarm and the timer queue as
    they are: no alien moves, the direction is kept, no enemy laser is
    created and no timer is armed. *)
Theorem stale_timer_idempotent
    (a : Aliens.t) (scr : Screen.t) (cb : Callback) (rnd : Draw) :
  Aliens.fire_callback cb rnd (Aliens.cancel_timers a, scr)
  = (Aliens.cancel_timers a, scr).
Proof.
  destruct cb; reflexivity.
Qed.

(** The generation counters alone already make the callbacks stale: after
    [cancel_timers] followed by [start] (as [reset] does), a callback armed
    before the cancellation is still without effect although the swarm is
    running again. *)
Lemma stale_timer_after_restart
    (a : Aliens.t) (scr : Screen.t) (cb : Callback) (rnd rnd' : Draw) :
  armed_by_swarm cb a ->
  let st := Aliens.start rnd (Aliens.cancel_timers a, scr) in
  Aliens.fire_callback cb rnd' st = st.
Proof.
  intros Harmed st.
  assert (Hids : Aliens.movement_timer_id (fst st) = Aliens.movement_timer_id a + 2
                 /\ Aliens.shooting_timer_id (fst st) = Aliens.shooting_timer_id a + 1).
  { subst st. unfold Aliens.start, Aliens.cancel_timers, Aliens.alien_shoot,
      Aliens.start_movement_loop, Aliens.move_aliens. cbn.
    rewrite Z.eqb_refl.
    repeat (case_match; cbn in *; simplify_eq); split; lia. }
  destruct st as [a1 scr1]. cbn in Hids. destruct Hids as [Hm Hs].
  destruct cb as [| id | id | | | step |]; cbn in *; try reflexivity.
  - replace (Aliens.movement_timer_id a1 =? id) with false
      by (symmetry; apply Z.eqb_neq; lia).
    rewrite andb_false_r. reflexivity.
  - replace (Aliens.shooting_timer_id a1 =? id) with false
      by (symmetry; apply Z.eqb_neq; lia).
    rewrite andb_false_r. reflexivity.
Qed.

(** A callback of the current generation of a running swarm does work: the
    aliens move and the next movement timer is armed. *)
Example live_timer_moves :
  let '(a, scr) :=
    Aliens.fire_callback (cb_movement 1) sure_shot (swarm_at_right_edge, []) in
  map (fun alien => Qred (px (Alien.alien_pos alien))) (Aliens.aliens a) = [390%Q; 450%Q]
  /\ Aliens.direction a = -1
  /\ scr = [(cb_movement 1, 80)].
Proof. vm_compute. repeat split; reflexivity. Qed.

(** ** The collision engine: lasers against targets *)

Section FirstMatch.
Context {T : Type} `{Turtle T}.
Implicit Types (targets : list T) (hits : list (Laser.t * T)).

Lemma scan_targets_some laser targets ht threshold target :
  CheckHit.scan_targets laser targets ht threshold = Some target ->
  exists pre post,
    targets = pre ++ target :: post
    /\ Forall (fun t => ~ qualifies laser threshold ht t) pre
    /\ qualifies laser threshold ht target.
Proof.
  induction targets as [| t rest IH]; cbn [CheckHit.scan_targets]; [discriminate |].
  destruct (bool_decide (ident t ∈ ht)) eqn:Ein.
  - apply bool_decide_eq_true in Ein. intros Hs.
    destruct (IH Hs) as (pre & post & -> & Hpre & Hq).
    exists (t :: pre), post.
    split; [reflexivity |]. split; [| exact Hq].
    constructor; [| exact Hpre]. intros [Hn _]. contradiction.
  - apply bool_decide_eq_false in Ein.
    destruct (distance_lt (position t) (position laser) threshold) eqn:Ed.
    + intros [= ->]. exists [], rest.
      split; [reflexivity |]. split; [constructor | split; assumption].
    + intros Hs. destruct (IH Hs) as (pre & post & -> & Hpre & Hq).
      exists (t :: pre), post.
      split; [reflexivity |]. split; [| exact Hq].
      constructor; [| exact Hpre]. intros [_ Hd]. congruence.
Qed.

Lemma scan_targets_none laser targets ht threshold :
  CheckHit.scan_targets laser targets ht threshold = None ->
  Forall (fun t => ~ qualifies laser threshold ht t) targets.
Proof.
  induction targets as [| t rest IH]; cbn [CheckHit.scan_targets]; [constructor |].
  destruct (bool_decide (ident t ∈ ht)) eqn:Ein.
  - apply bool_decide_eq_true in Ein. intros Hs.
    constructor; [| auto]. intros [Hn _]. contradiction.
  - destruct (distance_lt (position t) (position laser) threshold) eqn:Ed;
      [discriminate |].
    intros Hs. constructor; [| auto]. intros [_ Hd]. congruence.
Qed.

(** The accumulator [hits] is only ever extended at its end. *)
Lemma lasers_loop_acc lasers targets threshold hits ht :
  CheckHit.lasers_loop lasers targets threshold hits ht
  = hits ++ CheckHit.lasers_loop lasers targets threshold [] ht.
Proof.
  revert hits ht. induction lasers as [| laser rest IH]; intros hits ht; cbn.
  - rewrite app_nil_r. reflexivity.
  - destruct (Laser.active laser); cbn; [| apply IH].
    destruct (CheckHit.scan_targets laser targets ht threshold); [| apply IH].
    rewrite IH, (IH [_]), <- app_assoc. reflexivity.
Qed.

(** The loop of the source computes a first-match pairing. *)
Lemma lasers_loop_first_match lasers targets threshold ht :
  first_match targets threshold ht lasers
    (CheckHit.lasers_loop lasers targets threshold [] ht).
Proof.
  revert ht. induction lasers as [| laser rest IH]; intros ht; cbn.
  - constructor.
  - destruct (Laser.active laser) eqn:Ea; cbn.
    + destruct (CheckHit.scan_targets laser targets ht threshold) as [target |] eqn:Es.
      * destruct (scan_targets_some _ _ _ _ _ Es) as (pre & post & Ht & Hpre & Hq).
        rewrite lasers_loop_acc. cbn. eapply fm_hit; eauto.
      * apply fm_miss; auto using scan_targets_none.
    + apply fm_inactive; auto.
Qed.

Lemma first_match_sublist targets threshold ht lasers hits :
  first_match targets threshold ht lasers hits ->
  sublist (hit_lasers hits) (filter (fun l => Laser.active l = true) lasers).
Proof.
  induction 1 as [ht | ht laser rest hits Ha _ IH | ht laser rest hits Ha _ _ IH
                  | ht laser rest hits pre target post Ha _ _ _ _ IH];
    unfold hit_lasers in *; cbn [map fst].
  - constructor.
  - rewrite filter_cons, decide_False by congruence. exact IH.
  - rewrite filter_cons, decide_True by exact Ha. apply sublist_cons, IH.
  - rewrite filter_cons, decide_True by exact Ha. apply sublist_skip, IH.
Qed.

Lemma first_match_fresh targets threshold ht lasers hits :
  first_match targets threshold ht lasers hits ->
  NoDup (hit_target_ids hits)
  /\ (forall i, i ∈ hit_target_ids hits -> i ∉ ht).
Proof.
  induction 1 as [ht | ht laser rest hits Ha _ IH | ht laser rest hits Ha _ _ IH
                  | ht laser rest hits pre target post Ha _ _ Hq _ IH]; cbn;
    try exact IH.
  - split; [constructor | intros i Hi; inversion Hi].
  - destruct IH as [Hnd Hfresh]. split.
    + constructor; [| exact Hnd].
      intros Hin. apply Hfresh in Hin. set_solver.
    + intros i Hi. apply elem_of_cons in Hi as [-> | Hi].
      * apply Hq.
      * apply Hfresh in Hi. set_solver.
Qed.

Lemma consumed_nil_union (ht : gset nat) : consumed (T := T) [] ∪ ht = ht.
Proof.
  apply set_eq. intros x. unfold consumed. cbn.
  rewrite elem_of_union, elem_of_empty. tauto.
Qed.

Lemma consumed_cons_union (h : Laser.t * T) hits (ht : gset nat) :
  consumed (h :: hits) ∪ ht = consumed hits ∪ ({[ ident (snd h) ]} ∪ ht).
Proof.
  apply set_eq. intros x. unfold consumed. cbn.
  rewrite !elem_of_union. tauto.
Qed.

Lemma first_match_first targets threshold ht lasers hits :
  first_match targets threshold ht lasers hits ->
  forall hs1 laser target hs2,
    hits = hs1 ++ (laser, target) :: hs2 ->
    exists pre post,
      targets = pre ++ target :: post
      /\ qualifies laser threshold (consumed hs1 ∪ ht) target
      /\ Forall (fun t => ~ qualifies laser threshold (consumed hs1 ∪ ht) t) pre.
Proof.
  induction 1 as [ht | ht laser rest hits Ha _ IH | ht laser rest hits Ha _ _ IH
                  | ht laser rest hits pre target post Ha Ht Hpre Hq _ IH];
    intros hs1 l t hs2 E; try (eapply IH; exact E).
  - destruct hs1; discriminate.
  - destruct hs1 as [| h hs1]; cbn in E.
    + injection E as El Et Eh. subst l t hs2.
      rewrite consumed_nil_union.
      exists pre, post. auto.
    + injection E as Eh E. subst h.
      destruct (IH _ _ _ _ E) as (pre' & post' & Ht' & Hq' & Hpre').
      rewrite consumed_cons_union.
      exists pre', post'. auto.
Qed.

End FirstMatch.

(** C3. First-match exclusivity of [check_lasers_vs_targets]: no target is in
    more than one returned pair; the lasers of the returned pairs are, in
    order, a subsequence of the active input lasers, so inactive lasers
    produce no pair, every laser produces at most one, and the input order
    is kept; and the target of each pair is the first target in list order
    that is within the threshold of its laser and not consumed by an earlier
    pair. *)
Theorem first_match_exclusivity {T : Type} `{Turtle T}
    (lasers : list Laser.t) (targets : list T) (threshold : Q) :
  let hits := CheckHit.check_lasers_vs_targets lasers targets threshold in
  NoDup (hit_target_ids hits)
  /\ sublist (hit_lasers hits) (filter (fun l => Laser.active l = true) lasers)
  /\ (forall hs1 laser target hs2,
        hits = hs1 ++ (laser, target) :: hs2 ->
        exists pre post,
          targets = pre ++ target :: post
          /\ qualifies laser threshold (consumed hs1) target
          /\ Forall (fun t => ~ qualifies laser threshold (consumed hs1) t) pre)
  /\ first_match targets threshold ∅ lasers hits.
Proof.
  intros hits.
  pose proof (lasers_loop_first_match lasers targets threshold ∅) as Hfm.
  change (CheckHit.lasers_loop lasers targets threshold [] ∅) with hits in Hfm.
  split; [apply (first_match_fresh _ _ _ _ _ Hfm) |].
  split; [apply (first_match_sublist _ _ _ _ _ Hfm) |].
  split; [| exact Hfm].
  intros hs1 laser target hs2 E.
  destruct (first_match_first _ _ _ _ _ Hfm _ _ _ _ E) as (pre & post & Ht & Hq & Hpre).
  rewrite (right_id_L ∅ (∪)) in Hq, Hpre.
  exists pre, post. auto.
Qed.

(** On [volley] against [two_aliens]: the first laser takes the first alien,
    the inactive laser nothing, and the third laser, which is within the
    threshold of both aliens, the second alien. *)
Example volley_hits :
  CheckHit.check_lasers_vs_targets volley two_aliens default_threshold
  = [(Laser.mk 20 (mkPos 0 0) true true, Alien.mk 10 (mkPos 0 10) true);
     (Laser.mk 22 (mkPos 5 0) true true, Alien.mk 11 (mkPos 10 0) true)].
Proof. reflexivity. Qed.

(** ** The collision engine: player lasers against enemy lasers *)

Lemma scan_enemy_lasers_some p_laser enemy_lasers e_laser :
  CheckHit.scan_enemy_lasers p_laser enemy_lasers = Some e_laser ->
  exists pre post,
    enemy_lasers = pre ++ e_laser :: post
    /\ clashes p_laser e_laser
    /\ Forall (fun e => ~ clashes p_laser e) pre.
Proof.
  induction enemy_lasers as [| e rest IH]; cbn [CheckHit.scan_enemy_lasers];
    [discriminate |].
  destruct (Laser.active e) eqn:Ea; cbn [negb].
  - destruct (distance_lt (position p_laser) (position e) 10) eqn:Ed.
    + intros [= ->]. exists [], rest.
      split; [reflexivity |]. split; [split; assumption | constructor].
    + intros Hs. destruct (IH Hs) as (pre & post & -> & Hc & Hpre).
      exists (e :: pre), post.
      split; [reflexivity |]. split; [exact Hc |].
      constructor; [| exact Hpre]. intros [_ Hd]. congruence.
  - intros Hs. destruct (IH Hs) as (pre & post & -> & Hc & Hpre).
    exists (e :: pre), post.
    split; [reflexivity |]. split; [exact Hc |].
    constructor; [| exact Hpre]. intros [Hact _]. congruence.
Qed.

Lemma scan_enemy_lasers_none p_laser enemy_lasers :
  CheckHit.scan_enemy_lasers p_laser enemy_lasers = None ->
  Forall (fun e => ~ clashes p_laser e) enemy_lasers.
Proof.
  induction enemy_lasers as [| e rest IH]; cbn [CheckHit.scan_enemy_lasers];
    [constructor |].
  destruct (Laser.active e) eqn:Ea; cbn [negb].
  - destruct (distance_lt (position p_laser) (position e) 10) eqn:Ed; [discriminate |].
    intros Hs. constructor; [| auto]. intros [_ Hd]. congruence.
  - intros Hs. constructor; [| auto]. intros [Hact _]. congruence.
Qed.

(** C2, as the code has it.  The player lasers of the pairs returned by
    [check_laser_vs_laser] are, in order, a subsequence of the active player
    lasers, so each player laser is in at most one pair; the enemy laser of a
    pair is the first active enemy laser, in enemy-list order, within 10 units
    of the pair's player laser; and an active player laser with such an enemy
    laser is paired.  Nothing keeps an enemy laser out of a second pair. *)
Theorem laser_vs_laser_first_match (player_lasers enemy_lasers : list Laser.t) :
  let hits := CheckHit.check_laser_vs_laser player_lasers enemy_lasers in
  sublist (hit_lasers hits) (filter (fun l => Laser.active l = true) player_lasers)
  /\ (forall p e, (p, e) ∈ hits ->
        exists pre post,
          enemy_lasers = pre ++ e :: post
          /\ clashes p e
          /\ Forall (fun e' => ~ clashes p e') pre)
  /\ (forall p e, p ∈ player_lasers -> Laser.active p = true ->
        e ∈ enemy_lasers -> clashes p e ->
        exists e', (p, e') ∈ hits).
Proof.
  cbn zeta. induction player_lasers as [| p rest (IH1 & IH2 & IH3)];
    cbn [CheckHit.check_laser_vs_laser].
  - split; [constructor |]. split; intros p e Hin; inversion Hin.
  - destruct (Laser.active p) eqn:Ea; cbn [negb].
    + rewrite filter_cons, decide_True by exact Ea.
      destruct (CheckHit.scan_enemy_lasers p enemy_lasers) as [e0 |] eqn:Es.
      * split; [apply sublist_skip, IH1 |]. split.
        -- intros p' e' Hin. apply elem_of_cons in Hin as [[= -> ->] | Hin];
             [apply scan_enemy_lasers_some, Es | apply IH2, Hin].
        -- intros p' e' Hin Hact He Hc. apply elem_of_cons in Hin as [-> | Hin].
           ++ exists e0. apply list_elem_of_here.
           ++ destruct (IH3 p' e' Hin Hact He Hc) as [e'' He''].
              exists e''. apply list_elem_of_further, He''.
      * split; [apply sublist_cons, IH1 |]. split; [exact IH2 |].
        intros p' e' Hin Hact He Hc. apply elem_of_cons in Hin as [-> | Hin].
        -- pose proof (scan_enemy_lasers_none _ _ Es) as Hnone.
           rewrite Forall_forall in Hnone. exfalso. exact (Hnone e' He Hc).
        -- exact (IH3 p' e' Hin Hact He Hc).
    + rewrite filter_cons, decide_False by congruence.
      split; [exact IH1 |]. split; [exact IH2 |].
      intros p' e' Hin Hact He Hc. apply elem_of_cons in Hin as [-> | Hin];
        [congruence | exact (IH3 p' e' Hin Hact He Hc)].
Qed.

(** C2, as stated, fails: two distinct active player lasers are both paired
    with the same enemy laser. *)
Lemma laser_vs_laser_not_one_to_one :
  NoDup (map Laser.laser_id stacked_player_lasers)
  /\ CheckHit.check_laser_vs_laser stacked_player_lasers [enemy_laser_between]
     = [(Laser.mk 21 (mkPos 0 10) true true, enemy_laser_between);
        (Laser.mk 22 (mkPos 0 0) true true, enemy_laser_between)]
  /\ ~ NoDup (hit_target_ids
                (CheckHit.check_laser_vs_laser stacked_player_lasers [enemy_laser_between])).
Proof.
  split; [| split].
  - compute_done.
  - reflexivity.
  - intros Hnd. apply NoDup_cons in Hnd as [Hn _]. apply Hn.
    vm_compute. apply list_elem_of_here.
Qed.

(** ** The tick *)

(** C1, on the code.  In one tick of [shield_overlap_game] the player laser
    destroys an alien in [check_enemy_hit], which clears its [active] flag;
    the shield pass that follows still matches the same, now inactive, laser
    against a shield block and damages the block. *)
Theorem tick_inactive_laser_damages_shield :
  let before_shields :=
    fold_left (fun g step => step g) (take 5 ScreenGame.tick_body) shield_overlap_game in
  let after_shields := ScreenGame.shields_vs_player_lasers before_shields in
  map Laser.active (SpaceShip.lasers (ScreenGame.active_ship before_shields)) = [false]
  /\ map Alien.alien_id (Aliens.aliens (ScreenGame.aliens before_shields)) = [11%nat]
  /\ SpaceShip.score (ScreenGame.active_ship before_shields) = 20
  /\ map ShieldBlock.hp (ScreenGame.shields before_shields) = [3]
  /\ map ShieldBlock.hp (ScreenGame.shields after_shields) = [2]
  /\ map ShieldBlock.hp (ScreenGame.shields (ScreenGame.tick shield_overlap_game)) = [2].
Proof.
  vm_compute. repeat split; reflexivity.
Qed.

(** Within one call of [check_collision], one laser damages every block in
    range: the scan does not stop at the first block, nor at an inactive
    laser. *)
Lemma check_collision_damages_two_blocks :
  let '(lasers, blocks) :=
    ShieldGenerator.check_collision [laser_between_blocks] adjacent_blocks in
  map Laser.active lasers = [false] /\ map ShieldBlock.hp blocks = [2; 2].
Proof.
  vm_compute. split; reflexivity.
Qed.

(** The damage a laser does to the shields does not depend on its [active]
    flag: [check_collision] never reads it. *)
Lemma collide_blocks_position (l1 l2 : Laser.t) (blocks : ShieldGenerator.t) :
  Laser.laser_pos l1 = Laser.laser_pos l2 ->
  snd (ShieldGenerator.collide_blocks l1 blocks)
  = snd (ShieldGenerator.collide_blocks l2 blocks).
Proof.
  revert l1 l2. induction blocks as [| block rest IH]; intros l1 l2 Hpos;
    cbn [ShieldGenerator.collide_blocks]; [reflexivity |].
  cbn [position Laser_Turtle]. rewrite Hpos.
  destruct (ShieldBlock.active block && _).
  - specialize (IH (Laser.deactivate l1) (Laser.deactivate l2) Hpos).
    destruct (ShieldGenerator.collide_blocks (Laser.deactivate l1) rest),
             (ShieldGenerator.collide_blocks (Laser.deactivate l2) rest).
    cbn in *. congruence.
  - specialize (IH l1 l2 Hpos).
    destruct (ShieldGenerator.collide_blocks l1 rest),
             (ShieldGenerator.collide_blocks l2 rest).
    cbn in *. congruence.
Qed.

Lemma check_collision_ignores_active (laser : Laser.t) (blocks : ShieldGenerator.t) :
  snd (ShieldGenerator.check_collision [Laser.deactivate laser] blocks)
  = snd (ShieldGenerator.check_collision [laser] blocks).
Proof.
  cbn [ShieldGenerator.check_collision].
  pose proof (collide_blocks_position (Laser.deactivate laser) laser blocks eq_refl) as E.
  destruct (ShieldGenerator.collide_blocks (Laser.deactivate laser) blocks),
           (ShieldGenerator.collide_blocks laser blocks).
  cbn in *. exact E.
Qed.

Lemma run_steps_no_fault (steps : list (ScreenGame.t -> ScreenGame.t)) (g : ScreenGame.t) :
  ScreenGame.run_steps steps None g
  = ScreenGame.Completed (fold_left (fun g step => step g) steps g).
Proof.
  revert g. induction steps as [| step rest IH]; intros g; cbn; auto.
Qed.

Lemma run_steps_fault (steps : list (ScreenGame.t -> ScreenGame.t)) (k : nat)
    (g : ScreenGame.t) :
  (k < length steps)%nat ->
  ScreenGame.run_steps steps (Some k) g
  = ScreenGame.Raised (fold_left (fun g step => step g) (take k steps) g).
Proof.
  revert k g. induction steps as [| step rest IH]; intros k g Hk; cbn in *; [lia |].
  destruct k as [| k]; cbn; [reflexivity |]. apply IH. lia.
Qed.

(** A fault numbered beyond the last statement is never reached. *)
Lemma run_steps_late (steps : list (ScreenGame.t -> ScreenGame.t)) (k : nat)
    (g : ScreenGame.t) :
  (length steps <= k)%nat ->
  ScreenGame.run_steps steps (Some k) g
  = ScreenGame.Completed (fold_left (fun g step => step g) steps g).
Proof.
  revert k g. induction steps as [| step rest IH]; intros k g Hk; cbn in *;
    [destruct k; reflexivity |].
  destruct k as [| k]; [lia |]. apply IH. lia.
Qed.

(** The statements of the tick body arm no [game_loop] timer. *)

Lemma armed_ontimer (cb cb' : Callback) (ms : Z) (scr : Screen.t) :
  Screen.armed cb (Screen.ontimer cb' ms scr)
  = (Screen.armed cb scr + (if decide (cb' = cb) then 1 else 0))%nat.
Proof.
  unfold Screen.armed, Screen.ontimer, Screen.t in *.
  rewrite filter_app, length_app, filter_cons, filter_nil. cbn [fst].
  destruct (decide (cb' = cb)); reflexivity.
Qed.

Lemma loops_ontimer (cb : Callback) (ms : Z) (g : ScreenGame.t) :
  loops (ScreenGame.ontimer cb ms g)
  = (loops g + (if decide (cb = cb_game_loop) then 1 else 0))%nat.
Proof.
  unfold loops, ScreenGame.ontimer. cbn [ScreenGame.screen]. apply armed_ontimer.
Qed.

Lemma loops_fold {A : Type} (f : ScreenGame.t -> A -> ScreenGame.t) (l : list A) :
  (forall g x, loops (f g x) = loops g) ->
  forall g, loops (fold_left f l g) = loops g.
Proof.
  intros Hf. induction l as [| x l IH]; intros g; cbn; [reflexivity |].
  rewrite IH. apply Hf.
Qed.

Lemma screen_on_active_ship (f : SpaceShip.t -> SpaceShip.t) (g : ScreenGame.t) :
  ScreenGame.screen (ScreenGame.on_active_ship f g) = ScreenGame.screen g.
Proof.
  unfold ScreenGame.on_active_ship. destruct (ScreenGame.active_is_player1 g); reflexivity.
Qed.

Lemma loops_on_active_ship (f : SpaceShip.t -> SpaceShip.t) (g : ScreenGame.t) :
  loops (ScreenGame.on_active_ship f g) = loops g.
Proof.
  unfold loops. rewrite screen_on_active_ship. reflexivity.
Qed.

Lemma loops_show_turn_transition (g : ScreenGame.t) :
  loops (ScreenGame.show_turn_transition g) = loops g.
Proof.
  unfold ScreenGame.show_turn_transition. case_match; [reflexivity |].
  rewrite loops_ontimer, decide_False, Nat.add_0_r by discriminate. reflexivity.
Qed.

Lemma loops_switch_player (g : ScreenGame.t) :
  loops (ScreenGame.switch_player g) = loops g.
Proof.
  unfold ScreenGame.switch_player. cbv zeta. case_match.
  - rewrite loops_ontimer, decide_False, Nat.add_0_r by discriminate.
    rewrite loops_show_turn_transition.
    unfold loops. cbn [ScreenGame.screen].
    rewrite screen_on_active_ship. reflexivity.
  - unfold ScreenGame.end_game, ScreenGame.clear_all, ScreenGame.explosion, loops.
    cbn [ScreenGame.screen ScreenGame.with_aliens ScreenGame.with_paused
         ScreenGame.with_shields ScreenGame.ontimer].
    rewrite armed_ontimer, decide_False, Nat.add_0_r by discriminate.
    rewrite screen_on_active_ship. reflexivity.
Qed.

Lemma loops_check_player_hit (g : ScreenGame.t) :
  loops (ScreenGame.check_player_hit g) = loops g.
Proof.
  unfold ScreenGame.check_player_hit. apply loops_fold.
  intros g' [laser ship]. case_match.
  - rewrite loops_switch_player, loops_on_active_ship. reflexivity.
  - rewrite loops_on_active_ship. reflexivity.
Qed.

Lemma loops_check_enemy_hit (g : ScreenGame.t) :
  loops (ScreenGame.check_enemy_hit g) = loops g.
Proof.
  unfold ScreenGame.check_enemy_hit. apply loops_fold.
  intros g' [laser alien]. unfold ScreenGame.update_active_player_score,
    ScreenGame.deactivate_player_laser.
  rewrite loops_on_active_ship.
  transitivity (loops (ScreenGame.on_active_ship
                         (fun s => SpaceShip.with_lasers
                                     (deactivate_in (Laser.laser_id laser) (SpaceShip.lasers s)) s)
                         g')); [reflexivity | apply loops_on_active_ship].
Qed.

Lemma loops_check_laser_collisions (g : ScreenGame.t) :
  loops (ScreenGame.check_laser_collisions g) = loops g.
Proof.
  unfold ScreenGame.check_laser_collisions. apply loops_fold.
  intros g' [p e]. unfold ScreenGame.deactivate_enemy_laser,
    ScreenGame.deactivate_player_laser.
  transitivity (loops (ScreenGame.on_active_ship
                         (fun s => SpaceShip.with_lasers
                                     (deactivate_in (Laser.laser_id p) (SpaceShip.lasers s)) s)
                         g')); [reflexivity | apply loops_on_active_ship].
Qed.

Lemma loops_check_boss_hit (g : ScreenGame.t) :
  loops (ScreenGame.check_boss_hit g) = loops g.
Proof.
  unfold ScreenGame.check_boss_hit. case_match; [reflexivity |].
  apply loops_fold. intros g' [laser boss].
  unfold ScreenGame.boss_destroyed, ScreenGame.update_active_player_score,
    ScreenGame.deactivate_player_laser.
  rewrite !loops_on_active_ship.
  transitivity (loops (ScreenGame.on_active_ship
                         (fun s => SpaceShip.with_lasers
                                     (deactivate_in (Laser.laser_id laser) (SpaceShip.lasers s)) s)
                         g')); [reflexivity | apply loops_on_active_ship].
Qed.

Lemma loops_tick_body (step : ScreenGame.t -> ScreenGame.t) (g : ScreenGame.t) :
  step ∈ ScreenGame.tick_body -> loops (step g) = loops g.
Proof.
  unfold ScreenGame.tick_body. intros Hin.
  repeat (apply elem_of_cons in Hin as [-> | Hin]); try (inversion Hin; fail).
  - reflexivity.
  - apply loops_on_active_ship.
  - reflexivity.
  - apply loops_check_player_hit.
  - apply loops_check_enemy_hit.
  - unfold ScreenGame.shields_vs_player_lasers. case_match.
    transitivity (loops (ScreenGame.on_active_ship (SpaceShip.with_lasers l) g));
      [reflexivity | apply loops_on_active_ship].
  - unfold ScreenGame.shields_vs_enemy_lasers. case_match. reflexivity.
  - reflexivity.
  - apply loops_check_laser_collisions.
  - apply loops_check_boss_hit.
  - unfold ScreenGame.change_level. case_match; [| reflexivity].
    unfold ScreenGame.next_level.
    rewrite loops_ontimer, decide_False by discriminate.
    unfold loops. cbn [ScreenGame.screen ScreenGame.with_paused ScreenGame.with_level]. lia.
Qed.

Lemma loops_steps (steps : list (ScreenGame.t -> ScreenGame.t)) (g : ScreenGame.t) :
  (forall step, step ∈ steps -> forall g, loops (step g) = loops g) ->
  loops (fold_left (fun g step => step g) steps g) = loops g.
Proof.
  revert g. induction steps as [| step rest IH]; intros g Hsteps; cbn; [reflexivity |].
  rewrite IH.
  - apply Hsteps, list_elem_of_here.
  - intros s Hs. apply Hsteps, list_elem_of_further, Hs.
Qed.

(** C4, as the code has it.  An invocation of [game_loop] arms exactly one
    new [game_loop] timer, with a delay of 20 ms, when the game is paused or
    the canvas is gone (the body is skipped) and when the tick body
    completes; when a statement of the body raises [TurtleGraphicsError],
    the invocation returns the state reached so far and arms no [game_loop]
    timer. *)
Theorem game_loop_reschedules_unless_raised (fault : option nat) (g : ScreenGame.t) :
  (ScreenGame.paused g = true \/ ScreenGame.canvas_exists g = false ->
   ScreenGame.game_loop fault g = ScreenGame.ontimer cb_game_loop 20 g)
  /\ (ScreenGame.paused g = false -> ScreenGame.canvas_exists g = true ->
      fault = None ->
      ScreenGame.game_loop fault g
      = ScreenGame.ontimer cb_game_loop 20 (ScreenGame.tick g))
  /\ (ScreenGame.paused g = false -> ScreenGame.canvas_exists g = true ->
      forall k, fault = Some k -> (k < length ScreenGame.tick_body)%nat ->
      ScreenGame.game_loop fault g
      = fold_left (fun g step => step g) (take k ScreenGame.tick_body) g)
  /\ loops (ScreenGame.game_loop fault g)
     = (loops g
        + if negb (ScreenGame.paused g) && ScreenGame.canvas_exists g
          then match fault with
               | Some k => if (k <? length ScreenGame.tick_body)%nat then 0 else 1
               | None => 1
               end
          else 1)%nat.
Proof.
  unfold ScreenGame.game_loop, ScreenGame.tick. split; [| split; [| split]].
  - intros [-> | ->]; [reflexivity | rewrite andb_false_r; reflexivity].
  - intros -> -> ->. cbn [negb andb]. rewrite run_steps_no_fault. reflexivity.
  - intros -> -> k -> Hk. cbn [negb andb]. rewrite run_steps_fault by exact Hk.
    reflexivity.
  - assert (Hloop : forall g', loops (ScreenGame.ontimer cb_game_loop 20 g')
                               = (loops g' + 1)%nat).
    { intros g'. rewrite loops_ontimer, decide_True by reflexivity. reflexivity. }
    assert (Hbody : forall n, loops (fold_left (fun g step => step g)
                                       (take n ScreenGame.tick_body) g) = loops g).
    { intros n. apply loops_steps. intros step Hin g0.
      apply loops_tick_body. exact (subseteq_take n _ _ Hin). }
    pose proof (Hbody (length ScreenGame.tick_body)) as Hall.
    rewrite take_ge in Hall by lia.
    destruct (negb (ScreenGame.paused g) && ScreenGame.canvas_exists g);
      [| apply Hloop].
    destruct fault as [k |].
    + destruct (Nat.ltb_spec k (length ScreenGame.tick_body)) as [Hk | Hk].
      * rewrite run_steps_fault by exact Hk. rewrite Hbody. lia.
      * rewrite run_steps_late by exact Hk. rewrite Hloop, Hall. reflexivity.
    + rewrite run_steps_no_fault, Hloop, Hall. reflexivity.
Qed.

(** C4, as stated, fails: when rendering raises in a tick of a running game
    no timer is armed, so the loop is not rescheduled. *)
Lemma game_loop_render_error_not_rescheduled :
  ScreenGame.paused opening_game = false
  /\ ScreenGame.canvas_exists opening_game = true
  /\ ScreenGame.screen (ScreenGame.game_loop (Some 0%nat) opening_game) = []
  /\ (cb_game_loop, 20) ∉ ScreenGame.screen (ScreenGame.game_loop (Some 0%nat) opening_game).
Proof.
  repeat split. vm_compute. apply not_elem_of_nil.
Qed.

(** A tick of the opening game that completes is followed by a new timer. *)
Lemma game_loop_reschedules_unless_raised_witness :
  ScreenGame.game_loop None opening_game
  = ScreenGame.ontimer cb_game_loop 20 (ScreenGame.tick opening_game).
Proof.
  exact (proj1 (proj2 (game_loop_reschedules_unless_raised None opening_game))
           eq_refl eq_refl eq_refl).
Defined.

(** * Part III: further properties of the code *)

(** ** Lasers in flight *)

Lemma laser_move_spec (l : Laser.t) :
  let l' := Laser.move l in
  Laser.laser_id l' = Laser.laser_id l
  /\ px (Laser.laser_pos l') = px (Laser.laser_pos l)
  /\ (Laser.active l = false -> l' = l)
  /\ (Laser.active l = true ->
      py (Laser.laser_pos l') = (py (Laser.laser_pos l) + LASER_VELOCITY)%Q
      /\ (Laser.active l' = true <-> (py (Laser.laser_pos l') <= WALLS_top)%Q)).
Proof.
  unfold Laser.move. destruct (Laser.active l) eqn:Ea; cbn zeta.
  - destruct (Qltb _ _) eqn:Et; cbn.
    + apply Qltb_lt in Et. cbn in Et.
      repeat split; try congruence; try discriminate; intros; lra.
    + unfold Qltb in Et. rewrite negb_false_iff in Et. apply Qle_bool_iff in Et.
      cbn in Et. repeat split; try congruence; intros; exact Et.
  - repeat split; try congruence; discriminate.
Qed.

Lemma enemy_laser_move_spec (l : Laser.t) :
  let l' := EnemyLaser.move l in
  Laser.laser_id l' = Laser.laser_id l
  /\ px (Laser.laser_pos l') = px (Laser.laser_pos l)
  /\ (Laser.active l = false -> l' = l)
  /\ (Laser.active l = true ->
      py (Laser.laser_pos l') = (py (Laser.laser_pos l) - LASER_VELOCITY)%Q
      /\ (Laser.active l' = true <-> (WALLS_bottom <= py (Laser.laser_pos l'))%Q)).
Proof.
  unfold EnemyLaser.move. destruct (Laser.active l) eqn:Ea; cbn zeta.
  - destruct (Qltb _ _) eqn:Et; cbn.
    + apply Qltb_lt in Et. cbn in Et.
      repeat split; try congruence; try discriminate; intros; lra.
    + unfold Qltb in Et. rewrite negb_false_iff in Et. apply Qle_bool_iff in Et.
      cbn in Et. repeat split; try congruence; intros; exact Et.
  - repeat split; try congruence; discriminate.
Qed.

Lemma laser_flight_inv (l : Laser.t) (k : nat) :
  let l' := Nat.iter k Laser.move l in
  Laser.laser_id l' = Laser.laser_id l
  /\ px (Laser.laser_pos l') = px (Laser.laser_pos l)
  /\ (Laser.active l = false -> l' = l)
  /\ (Laser.active l' = true ->
      Laser.active l = true
      /\ (py (Laser.laser_pos l') == py (Laser.laser_pos l) + 10 * inject_Z (Z.of_nat k))%Q
      /\ ((0 < k)%nat -> (py (Laser.laser_pos l') <= WALLS_top)%Q))
  /\ ((0 < k)%nat ->
      (WALLS_top < py (Laser.laser_pos l) + 10 * inject_Z (Z.of_nat k))%Q ->
      Laser.active l' = false).
Proof.
  cbn zeta.
  assert (Hmain :
    Laser.laser_id (Nat.iter k Laser.move l) = Laser.laser_id l
    /\ px (Laser.laser_pos (Nat.iter k Laser.move l)) = px (Laser.laser_pos l)
    /\ (Laser.active l = false -> Nat.iter k Laser.move l = l)
    /\ (Laser.active (Nat.iter k Laser.move l) = true ->
        Laser.active l = true
        /\ (py (Laser.laser_pos (Nat.iter k Laser.move l))
            == py (Laser.laser_pos l) + 10 * inject_Z (Z.of_nat k))%Q
        /\ ((0 < k)%nat -> (py (Laser.laser_pos (Nat.iter k Laser.move l)) <= WALLS_top)%Q))).
  { induction k as [| k (Hid & Hx & Hin & Hact)].
    - cbn. split; [reflexivity |]. split; [reflexivity |]. split; [reflexivity |].
      intros Ha. split; [exact Ha |]. split; [ring | lia].
    - rewrite Nat.iter_succ.
      destruct (laser_move_spec (Nat.iter k Laser.move l)) as (Mid & Mx & Min & Mact).
      cbn zeta in *. split; [congruence |]. split; [congruence |]. split.
      + intros Ha. rewrite (Hin Ha). rewrite Hin in Min by exact Ha. auto.
      + intros Ha.
        destruct (Laser.active (Nat.iter k Laser.move l)) eqn:Ek.
        * destruct (Hact eq_refl) as (Ha0 & Hy & _).
          destruct (Mact eq_refl) as (My & Mtop).
          split; [exact Ha0 |]. split.
          -- rewrite My, Hy, Nat2Z.inj_succ. unfold Z.succ, LASER_VELOCITY.
             rewrite inject_Z_plus. ring.
          -- intros _. apply Mtop, Ha.
        * rewrite (Min eq_refl) in Ha. congruence. }
  destruct Hmain as (Hid & Hx & Hin & Hact).
  repeat split; auto; try apply Hact; auto.
  intros Hk Htop.
  destruct (Laser.active (Nat.iter k Laser.move l)) eqn:Ek; [| reflexivity].
  destruct (Hact eq_refl) as (_ & Hy & Hle). specialize (Hle Hk). lra.
Qed.

(** X1. A player laser in flight.  After [k] calls of [move] a laser keeps its
    identity and its x-coordinate; a laser that is still active has been
    active all along, has risen by exactly 10 per call and is not above the
    top wall; an inactive laser never moves again; and a laser is inactive
    as soon as 10 per call takes it above the top wall. *)
Theorem laser_flight (l : Laser.t) (k : nat) :
  let l' := Nat.iter k Laser.move l in
  Laser.laser_id l' = Laser.laser_id l
  /\ px (Laser.laser_pos l') = px (Laser.laser_pos l)
  /\ (Laser.active l = false -> l' = l)
  /\ (Laser.active l' = true ->
      Laser.active l = true
      /\ (py (Laser.laser_pos l') == py (Laser.laser_pos l) + 10 * inject_Z (Z.of_nat k))%Q
      /\ ((0 < k)%nat -> (py (Laser.laser_pos l') <= WALLS_top)%Q))
  /\ ((0 < k)%nat ->
      (WALLS_top < py (Laser.laser_pos l) + 10 * inject_Z (Z.of_nat k))%Q ->
      Laser.active l' = false).
Proof. apply laser_flight_inv. Qed.

Lemma filter_move_filter (move : Laser.t -> Laser.t) (f : Laser.t -> Laser.t)
    (ls : list Laser.t) :
  (forall l, Laser.active l = false -> move l = l) ->
  filter (fun l => Laser.active l = true)
    (map move (filter (fun l => Laser.active l = true) (map f ls)))
  = filter (fun l => Laser.active l = true) (map (fun l => move (f l)) ls).
Proof.
  intros Hmove. induction ls as [| l ls IH]; [reflexivity |].
  rewrite !map_cons, (filter_cons _ (f l)).
  destruct (decide (Laser.active (f l) = true)) as [E | E].
  - rewrite map_cons, !filter_cons, IH. reflexivity.
  - rewrite IH, filter_cons.
    assert (Ef : Laser.active (f l) = false) by (destruct (Laser.active (f l)); congruence).
    rewrite (Hmove _ Ef). rewrite decide_False by exact E. reflexivity.
Qed.

Lemma update_lasers_iter (n : nat) (s : SpaceShip.t) :
  SpaceShip.lasers (Nat.iter (S n) SpaceShip.update_lasers s)
  = filter (fun l => Laser.active l = true)
      (map (Nat.iter (S n) Laser.move) (SpaceShip.lasers s)).
Proof.
  induction n as [| n IH]; [reflexivity |].
  rewrite Nat.iter_succ. unfold SpaceShip.update_lasers at 1.
  cbn [SpaceShip.lasers SpaceShip.with_lasers]. rewrite IH.
  rewrite filter_move_filter; [reflexivity |].
  intros l Ha. apply (laser_move_spec l), Ha.
Qed.

Lemma update_enemy_lasers_iter (n : nat) (a : Aliens.t) :
  Aliens.enemy_lasers (Nat.iter (S n) Aliens.update_enemy_lasers a)
  = filter (fun l => Laser.active l = true)
      (map (Nat.iter (S n) EnemyLaser.move) (Aliens.enemy_lasers a)).
Proof.
  induction n as [| n IH]; [reflexivity |].
  rewrite Nat.iter_succ. unfold Aliens.update_enemy_lasers at 1.
  cbn [Aliens.enemy_lasers Aliens.with_enemy_lasers]. rewrite IH.
  rewrite filter_move_filter; [reflexivity |].
  intros l Ha. apply (enemy_laser_move_spec l), Ha.
Qed.

Lemma enemy_laser_flight (l : Laser.t) (k : nat) :
  Laser.active (Nat.iter k EnemyLaser.move l) = true ->
  (py (Laser.laser_pos (Nat.iter k EnemyLaser.move l))
   == py (Laser.laser_pos l) - 10 * inject_Z (Z.of_nat k))%Q
  /\ ((0 < k)%nat ->
      (WALLS_bottom <= py (Laser.laser_pos (Nat.iter k EnemyLaser.move l)))%Q).
Proof.
  induction k as [| k IH].
  - cbn. intros _. split; [ring | lia].
  - rewrite Nat.iter_succ. intros Ha.
    destruct (enemy_laser_move_spec (Nat.iter k EnemyLaser.move l))
      as (_ & _ & Min & Mact). cbn zeta in *.
    destruct (Laser.active (Nat.iter k EnemyLaser.move l)) eqn:Ek.
    + destruct (IH eq_refl) as (Hy & _). destruct (Mact eq_refl) as (My & Mbot).
      split.
      * rewrite My, Hy, Nat2Z.inj_succ. unfold Z.succ, LASER_VELOCITY.
        rewrite inject_Z_plus. ring.
      * intros _. apply Mbot, Ha.
    + rewrite (Min eq_refl) in Ha. congruence.
Qed.

Lemma filter_active_none (f : Laser.t -> Laser.t) (ls : list Laser.t) :
  Forall (fun l => Laser.active (f l) = false) ls ->
  filter (fun l => Laser.active l = true) (map f ls) = [].
Proof.
  induction 1 as [| l ls Hl _ IH]; [reflexivity |].
  rewrite map_cons, filter_cons, decide_False by congruence. exact IH.
Qed.

Lemma many_steps (n : nat) : (103 <= n)%nat -> (103 <= inject_Z (Z.of_nat n))%Q.
Proof.
  intros Hn. change 103%Q with (inject_Z 103). rewrite <- Zle_Qle. lia.
Qed.

(** X2. Lasers leave the field.  When every laser of the ship is at or above
    the bottom wall and every enemy laser at or below the top wall (as every
    laser the game creates is), both lists are empty after 103 updates
    (1030 units of travel across a field 1024 units high). *)
Theorem lasers_leave_field (s : SpaceShip.t) (a : Aliens.t) (n : nat) :
  Forall (fun l => (WALLS_bottom <= py (Laser.laser_pos l))%Q) (SpaceShip.lasers s) ->
  Forall (fun l => (py (Laser.laser_pos l) <= WALLS_top)%Q) (Aliens.enemy_lasers a) ->
  (103 <= n)%nat ->
  SpaceShip.lasers (Nat.iter n SpaceShip.update_lasers s) = []
  /\ Aliens.enemy_lasers (Nat.iter n Aliens.update_enemy_lasers a) = [].
Proof.
  intros Hs Ha Hn. destruct n as [| n]; [lia |].
  pose proof (many_steps (S n) Hn) as Hq.
  assert (Htop : (WALLS_top == 512)%Q) by reflexivity.
  assert (Hbot : (WALLS_bottom == - (512))%Q) by reflexivity.
  rewrite update_lasers_iter, update_enemy_lasers_iter. split.
  - apply filter_active_none. eapply Forall_impl; [exact Hs |].
    intros l Hl. cbn beta in *.
    apply (laser_flight_inv l (S n)); [lia |]. lra.
  - apply filter_active_none. eapply Forall_impl; [exact Ha |].
    intros l Hl. cbn beta in *.
    destruct (Laser.active (Nat.iter (S n) EnemyLaser.move l)) eqn:E; [| reflexivity].
    destruct (enemy_laser_flight l (S n) E) as (Hy & Hb).
    specialize (Hb ltac:(lia)). lra.
Qed.

(** A ship that has just fired and a swarm whose alien at the top has just
    shot. *)
Lemma lasers_leave_field_witness :
  SpaceShip.lasers (Nat.iter 103 SpaceShip.update_lasers (SpaceShip.fire 100 7 fresh_ship)) = []
  /\ Aliens.enemy_lasers
       (Nat.iter 103 Aliens.update_enemy_lasers
          (Aliens.with_enemy_lasers [Laser.init 40 (mkPos 0 412)] swarm_at_right_edge)) = [].
Proof.
  apply (lasers_leave_field (SpaceShip.fire 100 7 fresh_ship)
           (Aliens.with_enemy_lasers [Laser.init 40 (mkPos 0 412)] swarm_at_right_edge) 103).
  - repeat constructor. vm_compute. discriminate.
  - repeat constructor. vm_compute. discriminate.
  - lia.
Defined.

Lemma active_after_filter (move : Laser.t -> Laser.t) (P : Laser.t -> Prop)
    (ls : list Laser.t) :
  (forall l, Laser.active (move l) = true -> P (move l)) ->
  Forall (fun l => Laser.active l = true /\ P l)
    (filter (fun l => Laser.active l = true) (map move ls)).
Proof.
  intros HP. apply Forall_forall. intros x Hx.
  apply list_elem_of_filter in Hx as [Hact Hin].
  apply list_elem_of_fmap in Hin as (l & -> & _). auto.
Qed.

(** X3. What the two laser updates leave behind.  After [update_lasers]
    every laser of the ship is active and not above the top wall, after
    [update_enemy_lasers] every enemy laser is active and not below the
    bottom wall; neither update adds a laser, and the surviving lasers are,
    in order, lasers of the old list. *)
Theorem laser_updates_keep_active_in_field (s : SpaceShip.t) (a : Aliens.t) :
  Forall (fun l => Laser.active l = true /\ (py (Laser.laser_pos l) <= WALLS_top)%Q)
    (SpaceShip.lasers (SpaceShip.update_lasers s))
  /\ sublist (map Laser.laser_id (SpaceShip.lasers (SpaceShip.update_lasers s)))
       (map Laser.laser_id (SpaceShip.lasers s))
  /\ Forall (fun l => Laser.active l = true /\ (WALLS_bottom <= py (Laser.laser_pos l))%Q)
       (Aliens.enemy_lasers (Aliens.update_enemy_lasers a))
  /\ sublist (map Laser.laser_id (Aliens.enemy_lasers (Aliens.update_enemy_lasers a)))
       (map Laser.laser_id (Aliens.enemy_lasers a)).
Proof.
  assert (Hsub : forall (move : Laser.t -> Laser.t) ls,
             (forall l, Laser.laser_id (move l) = Laser.laser_id l) ->
             sublist (map Laser.laser_id
                        (filter (fun l => Laser.active l = true) (map move ls)))
                     (map Laser.laser_id ls)).
  { intros move ls Hid. induction ls as [| l ls IH]; [constructor |].
    rewrite !map_cons, filter_cons. case_decide.
    - rewrite map_cons, Hid. apply sublist_skip, IH.
    - apply sublist_cons, IH. }
  unfold SpaceShip.update_lasers, Aliens.update_enemy_lasers.
  cbn [SpaceShip.lasers SpaceShip.with_lasers Aliens.enemy_lasers Aliens.with_enemy_lasers].
  split; [| split; [| split]].
  - apply active_after_filter. intros l Ha.
    destruct (laser_move_spec l) as (_ & _ & Hin & Hact). cbn zeta in *.
    destruct (Laser.active l) eqn:E.
    + apply (Hact eq_refl), Ha.
    + rewrite (Hin eq_refl) in Ha. congruence.
  - apply Hsub. intros l. apply (laser_move_spec l).
  - apply active_after_filter. intros l Ha.
    destruct (enemy_laser_move_spec l) as (_ & _ & Hin & Hact). cbn zeta in *.
    destruct (Laser.active l) eqn:E.
    + apply (Hact eq_refl), Ha.
    + rewrite (Hin eq_refl) in Ha. congruence.
  - apply Hsub. intros l. apply (enemy_laser_move_spec l).
Qed.

(** ** More on the collision engine *)

Lemma first_match_real {T : Type} `{Turtle T} (targets : list T) (threshold : Q)
    (ht : gset nat) (lasers : list Laser.t) (hits : list (Laser.t * T)) :
  first_match targets threshold ht lasers hits ->
  forall laser target, (laser, target) ∈ hits ->
    laser ∈ lasers /\ Laser.active laser = true /\ target ∈ targets
    /\ distance_lt (position target) (position laser) threshold = true.
Proof.
  induction 1 as [ht | ht laser rest hits Ha _ IH | ht laser rest hits Ha _ _ IH
                  | ht laser rest hits pre target post Ha Ht _ Hq _ IH];
    intros l t Hin.
  - inversion Hin.
  - destruct (IH _ _ Hin) as (? & ? & ? & ?). repeat split; auto.
    apply list_elem_of_further; assumption.
  - destruct (IH _ _ Hin) as (? & ? & ? & ?). repeat split; auto.
    apply list_elem_of_further; assumption.
  - apply elem_of_cons in Hin as [E | Hin].
    + injection E as -> ->. split; [apply list_elem_of_here |].
      split; [exact Ha |]. split; [| apply Hq].
      rewrite Ht. apply elem_of_app. right. apply list_elem_of_here.
    + destruct (IH _ _ Hin) as (? & ? & ? & ?). repeat split; auto.
      apply list_elem_of_further; assumption.
Qed.

Lemma hit_ids_among_targets {T : Type} `{Turtle T} (targets : list T)
    (hits : list (Laser.t * T)) :
  (forall laser target, (laser, target) ∈ hits -> target ∈ targets) ->
  forall i, i ∈ hit_target_ids hits -> i ∈ map ident targets.
Proof.
  intros Hreal i Hi. unfold hit_target_ids in Hi.
  apply list_elem_of_fmap in Hi as ([l t] & -> & Hin).
  apply list_elem_of_fmap. exists t. split; [reflexivity |]. eapply Hreal, Hin.
Qed.

Lemma lasers_vs_targets_facts {T : Type} `{Turtle T}
    (lasers : list Laser.t) (targets : list T) (threshold : Q) :
  let hits := CheckHit.check_lasers_vs_targets lasers targets threshold in
  (forall laser target, (laser, target) ∈ hits ->
     laser ∈ lasers /\ Laser.active laser = true /\ target ∈ targets
     /\ distance_lt (position target) (position laser) threshold = true)
  /\ (length hits <= length targets)%nat
  /\ (length hits <= count_active lasers)%nat.
Proof.
  intros hits.
  pose proof (lasers_loop_first_match lasers targets threshold ∅) as Hfm.
  change (CheckHit.lasers_loop lasers targets threshold [] ∅) with hits in Hfm.
  pose proof (first_match_real _ _ _ _ _ Hfm) as Hreal.
  split; [exact Hreal |]. split.
  - destruct (first_match_fresh _ _ _ _ _ Hfm) as [Hnd _].
    assert (Hsub : hit_target_ids hits ⊆+ map ident targets).
    { apply NoDup_submseteq; [exact Hnd |].
      apply hit_ids_among_targets. intros l t Hin. apply (Hreal l t Hin). }
    apply submseteq_length in Hsub.
    unfold hit_target_ids in Hsub. rewrite !length_map in Hsub. exact Hsub.
  - pose proof (first_match_sublist _ _ _ _ _ Hfm) as Hsub.
    apply sublist_length in Hsub. unfold hit_lasers in Hsub.
    rewrite length_map in Hsub. exact Hsub.
Qed.

(** X4. The pairs of [check_lasers_vs_targets] are real and few.  Every
    returned pair consists of an active laser of the input and a target of
    the input that are closer than the threshold, and there are at most as
    many pairs as targets and as active lasers. *)
Theorem lasers_vs_targets_pairs_real {T : Type} `{Turtle T}
    (lasers : list Laser.t) (targets : list T) (threshold : Q) :
  let hits := CheckHit.check_lasers_vs_targets lasers targets threshold in
  (forall laser target, (laser, target) ∈ hits ->
     laser ∈ lasers /\ Laser.active laser = true /\ target ∈ targets
     /\ distance_lt (position target) (position laser) threshold = true)
  /\ (length hits <= length targets)%nat
  /\ (length hits <= count_active lasers)%nat.
Proof. apply lasers_vs_targets_facts. Qed.

(** X5. When [check_lasers_vs_targets] finds nothing.  With no target, with
    no active laser, or with a threshold that is not positive, the result is
    empty. *)
Theorem lasers_vs_targets_no_hits {T : Type} `{Turtle T}
    (lasers : list Laser.t) (targets : list T) (threshold : Q) :
  targets = [] \/ Forall (fun l => Laser.active l = false) lasers \/ (threshold <= 0)%Q ->
  CheckHit.check_lasers_vs_targets lasers targets threshold = [].
Proof.
  intros Hcase.
  pose proof (lasers_loop_first_match lasers targets threshold ∅) as Hfm.
  pose proof (first_match_real _ _ _ _ _ Hfm) as Hreal.
  unfold CheckHit.check_lasers_vs_targets.
  destruct (CheckHit.lasers_loop lasers targets threshold [] ∅) as [| [l t] hits];
    [reflexivity | exfalso].
  destruct (Hreal l t (list_elem_of_here _ _)) as (Hl & Ha & Ht & Hd).
  destruct Hcase as [-> | [Hin | Hthr]].
  - inversion Ht.
  - rewrite Forall_forall in Hin. rewrite (Hin l Hl) in Ha. discriminate.
  - unfold distance_lt in Hd. apply andb_true_iff in Hd as [Hpos _].
    apply Qltb_lt in Hpos. lra.
Qed.

Lemma lasers_vs_targets_no_hits_witness :
  CheckHit.check_lasers_vs_targets volley two_aliens 0 = [].
Proof.
  apply (lasers_vs_targets_no_hits volley two_aliens 0).
  right. right. vm_compute. discriminate.
Defined.

Lemma dist2_sym (a b : Pos) : (dist2 a b == dist2 b a)%Q.
Proof. unfold dist2. ring. Qed.

Lemma Qltb_proper (a a' b b' : Q) :
  (a == a')%Q -> (b == b')%Q -> Qltb a b = Qltb a' b'.
Proof.
  intros Ea Eb. destruct (Qltb a' b') eqn:E.
  - apply Qltb_lt. apply Qltb_lt in E. lra.
  - unfold Qltb in *. rewrite negb_false_iff in *.
    apply Qle_bool_iff. apply Qle_bool_iff in E. lra.
Qed.

(** X6. The geometry of [check_collision].  The test gives the same answer
    whichever of the two turtles the distance is measured from (the callers
    use both orders); it never succeeds for a threshold that is not
    positive; and a collision at one threshold is a collision at every
    larger one. *)
Theorem check_collision_geometry {A B : Type} `{Turtle A} `{Turtle B}
    (laser : A) (ship : B) (threshold : Q) :
  CheckHit.check_collision laser ship threshold
  = CheckHit.check_collision ship laser threshold
  /\ ((threshold <= 0)%Q -> CheckHit.check_collision laser ship threshold = false)
  /\ (forall larger : Q, (threshold <= larger)%Q ->
        CheckHit.check_collision laser ship threshold = true ->
        CheckHit.check_collision laser ship larger = true).
Proof.
  unfold CheckHit.check_collision, distance_lt. split; [| split].
  - f_equal. apply Qltb_proper; [apply dist2_sym | reflexivity].
  - intros Hle. replace (Qltb 0 threshold) with false; [reflexivity |].
    symmetry. unfold Qltb. rewrite negb_false_iff. apply Qle_bool_iff, Hle.
  - intros larger Hle Hhit. apply andb_true_iff in Hhit as [Hpos Hd].
    apply Qltb_lt in Hpos, Hd. apply andb_true_iff.
    split; apply Qltb_lt; [lra | nra].
Qed.

(** ** Hits on the ship, the aliens and the boss *)

Lemma single_target_hits {T : Type} `{Turtle T}
    (lasers : list Laser.t) (target : T) (threshold : Q) :
  let hits := CheckHit.check_lasers_vs_targets lasers [target] threshold in
  hits = []
  \/ exists laser, hits = [(laser, target)] /\ laser ∈ lasers
                   /\ Laser.active laser = true
                   /\ distance_lt (position target) (position laser) threshold = true.
Proof.
  intros hits.
  destruct (lasers_vs_targets_facts lasers [target] threshold) as (Hreal & Hlen & _).
  fold hits in Hreal, Hlen.
  destruct hits as [| [l t] [| h hits]]; [left; reflexivity | right | cbn in Hlen; lia].
  destruct (Hreal l t (list_elem_of_here _ _)) as (Hl & Ha & Ht & Hd).
  apply list_elem_of_singleton in Ht. subst t. exists l. auto.
Qed.

Lemma first_match_empty {T : Type} `{Turtle T} (targets : list T) (threshold : Q)
    (ht : gset nat) (lasers : list Laser.t) (hits : list (Laser.t * T)) :
  first_match targets threshold ht lasers hits -> hits = [] ->
  forall laser, laser ∈ lasers -> Laser.active laser = true ->
    Forall (fun t => ~ qualifies laser threshold ht t) targets.
Proof.
  induction 1 as [ht | ht laser rest hits Ha _ IH | ht laser rest hits Ha Hmiss _ IH
                  | ht laser rest hits pre target post Ha Ht _ Hq _ IH];
    intros E l Hin Hact; try discriminate.
  - inversion Hin.
  - apply elem_of_cons in Hin as [-> | Hin]; [congruence | auto].
  - apply elem_of_cons in Hin as [-> | Hin]; [exact Hmiss | auto].
Qed.

Lemma switch_player_lives (g : ScreenGame.t) :
  SpaceShip.lives (ScreenGame.player1_ship (ScreenGame.switch_player g))
  = SpaceShip.lives (ScreenGame.player1_ship g)
  /\ SpaceShip.lives (ScreenGame.player2_ship (ScreenGame.switch_player g))
     = SpaceShip.lives (ScreenGame.player2_ship g).
Proof.
  destruct g as [p1 p2 [] a sh b lv pa st ce scr []]; split; reflexivity.
Qed.

(** X7. A hit on the ship costs one life.  However many enemy lasers overlap
    the active ship in one [check_player_hit], the two ships together lose
    at most one life and neither gains one; exactly one life is lost when
    some active enemy laser is within a quarter of the ship's width, and
    nothing at all changes when none is. *)
Theorem player_hit_costs_one_life (g : ScreenGame.t) :
  let g' := ScreenGame.check_player_hit g in
  let in_range (l : Laser.t) :=
    Laser.active l = true
    /\ distance_lt (position (ScreenGame.active_ship g)) (position l)
         (SpaceShip.ship_width / 4)%Q = true in
  let lives1 g := SpaceShip.lives (ScreenGame.player1_ship g) in
  let lives2 g := SpaceShip.lives (ScreenGame.player2_ship g) in
  ((forall l, l ∈ Aliens.enemy_lasers (ScreenGame.aliens g) -> ~ in_range l) -> g' = g)
  /\ ((exists l, l ∈ Aliens.enemy_lasers (ScreenGame.aliens g) /\ in_range l) ->
      lives1 g' + lives2 g' = lives1 g + lives2 g - 1)
  /\ lives1 g + lives2 g - 1 <= lives1 g' + lives2 g'
  /\ lives1 g' <= lives1 g /\ lives2 g' <= lives2 g.
Proof.
  cbn zeta. unfold ScreenGame.check_player_hit.
  pose proof (lasers_loop_first_match (Aliens.enemy_lasers (ScreenGame.aliens g))
                [ScreenGame.active_ship g] (SpaceShip.ship_width / 4)%Q ∅) as Hfm.
  destruct (single_target_hits (Aliens.enemy_lasers (ScreenGame.aliens g))
              (ScreenGame.active_ship g) (SpaceShip.ship_width / 4)%Q)
    as [E | (laser & E & Hin & Hact & Hd)]; cbn zeta in E.
  - rewrite E. cbn [fold_left]. split; [reflexivity |]. split; [| lia].
    intros (l & Hl & Ha & Hr). exfalso.
    pose proof (first_match_empty _ _ _ _ _ Hfm E l Hl Ha) as Hmiss.
    apply Forall_inv in Hmiss. apply Hmiss. split; [apply not_elem_of_empty | exact Hr].
  - rewrite E. cbn [fold_left].
    assert (Hone :
      let g2 := ScreenGame.on_active_ship SpaceShip.handle_hit
                  (ScreenGame.deactivate_enemy_laser laser g) in
      SpaceShip.lives (ScreenGame.player1_ship g2)
      + SpaceShip.lives (ScreenGame.player2_ship g2)
      = SpaceShip.lives (ScreenGame.player1_ship g)
        + SpaceShip.lives (ScreenGame.player2_ship g) - 1
      /\ SpaceShip.lives (ScreenGame.player1_ship g2)
         <= SpaceShip.lives (ScreenGame.player1_ship g)
      /\ SpaceShip.lives (ScreenGame.player2_ship g2)
         <= SpaceShip.lives (ScreenGame.player2_ship g)).
    { destruct g as [p1 p2 [] a sh b lv pa st ce scr tr]; cbn; lia. }
    cbn zeta in Hone.
    set (g2 := ScreenGame.on_active_ship SpaceShip.handle_hit
                 (ScreenGame.deactivate_enemy_laser laser g)) in *.
    assert (Hfinal :
      forall gf, gf = (if SpaceShip.lives (ScreenGame.active_ship g2) <=? 0
                       then ScreenGame.switch_player g2 else g2) ->
      SpaceShip.lives (ScreenGame.player1_ship gf)
      = SpaceShip.lives (ScreenGame.player1_ship g2)
      /\ SpaceShip.lives (ScreenGame.player2_ship gf)
         = SpaceShip.lives (ScreenGame.player2_ship g2)).
    { intros gf ->. destruct (_ <=? 0); [apply switch_player_lives | auto]. }
    destruct (Hfinal _ eq_refl) as [E1 E2]. rewrite E1, E2.
    split.
    + intros Hnone. exfalso. apply (Hnone laser Hin). split; assumption.
    + split; [intros _ |]; lia.
Qed.

Lemma remove_alien_length (id : nat) (als : list Alien.t) :
  id ∈ map Alien.alien_id als ->
  S (length (Aliens.remove_alien id als)) = length als.
Proof.
  induction als as [| alien rest IH]; cbn [map Aliens.remove_alien]; intros Hin.
  - inversion Hin.
  - destruct (Nat.eqb_spec (Alien.alien_id alien) id) as [E | E]; [reflexivity |].
    apply elem_of_cons in Hin as [-> | Hin]; [congruence |].
    cbn. rewrite IH by exact Hin. reflexivity.
Qed.

Lemma remove_alien_other (id j : nat) (als : list Alien.t) :
  j <> id -> j ∈ map Alien.alien_id als ->
  j ∈ map Alien.alien_id (Aliens.remove_alien id als).
Proof.
  intros Hne. induction als as [| alien rest IH]; cbn [map Aliens.remove_alien];
    intros Hin; [exact Hin |].
  destruct (Nat.eqb_spec (Alien.alien_id alien) id) as [E | E].
  - apply elem_of_cons in Hin as [-> | Hin]; [congruence | exact Hin].
  - cbn [map]. apply elem_of_cons in Hin as [-> | Hin].
    + apply list_elem_of_here.
    + apply list_elem_of_further, IH, Hin.
Qed.

Lemma remove_alien_sublist (id : nat) (als : list Alien.t) :
  sublist (Aliens.remove_alien id als) als.
Proof.
  induction als as [| alien rest IH]; cbn [Aliens.remove_alien]; [constructor |].
  destruct (Nat.eqb (Alien.alien_id alien) id).
  - apply sublist_cons. reflexivity.
  - apply sublist_skip, IH.
Qed.

Lemma alien_present (id : nat) (als : list Alien.t) :
  existsb (fun x => Nat.eqb (Alien.alien_id x) id) als = true
  <-> id ∈ map Alien.alien_id als.
Proof.
  rewrite existsb_exists. split.
  - intros (x & Hin & E). apply Nat.eqb_eq in E. subst id.
    apply list_elem_of_fmap. exists x. split; [reflexivity | apply list_elem_of_In, Hin].
  - intros Hin. apply list_elem_of_fmap in Hin as (x & -> & Hin).
    exists x. split; [apply list_elem_of_In, Hin | apply Nat.eqb_refl].
Qed.

(** X8. Removing a hit alien.  [handle_alien_hit] leaves the swarm alone when
    the alien is not in it; otherwise it removes exactly one alien, the
    others stay in their order, every other identity stays present, and with
    distinct identities the removed one is gone. *)
Theorem handle_alien_hit_removes_one (alien : Alien.t) (a : Aliens.t) :
  let a' := Aliens.handle_alien_hit alien a in
  let ids x := map Alien.alien_id (Aliens.aliens x) in
  (Alien.alien_id alien ∉ ids a -> a' = a)
  /\ (Alien.alien_id alien ∈ ids a ->
      S (length (Aliens.aliens a')) = length (Aliens.aliens a))
  /\ sublist (Aliens.aliens a') (Aliens.aliens a)
  /\ (forall j, j <> Alien.alien_id alien -> j ∈ ids a -> j ∈ ids a')
  /\ (NoDup (ids a) -> Alien.alien_id alien ∉ ids a').
Proof.
  cbn zeta. unfold Aliens.handle_alien_hit.
  pose proof (alien_present (Alien.alien_id alien) (Aliens.aliens a)) as Hp.
  destruct (existsb _ (Aliens.aliens a)) eqn:E; cbn [Aliens.aliens Aliens.with_aliens].
  - assert (Hin : Alien.alien_id alien ∈ map Alien.alien_id (Aliens.aliens a))
      by (apply Hp; reflexivity).
    split; [intros Hn; contradiction |].
    split; [intros _; apply remove_alien_length, Hin |].
    split; [apply remove_alien_sublist |].
    split; [intros j Hj; apply remove_alien_other, Hj |].
    clear Hp E Hin. induction (Aliens.aliens a) as [| x rest IH];
      cbn [map Aliens.remove_alien]; intros Hnd; [apply not_elem_of_nil |].
    apply NoDup_cons in Hnd as [Hx Hnd].
    destruct (Nat.eqb_spec (Alien.alien_id x) (Alien.alien_id alien)) as [Ex | Ex].
    + rewrite <- Ex. exact Hx.
    + cbn [map]. apply not_elem_of_cons. split; [congruence | apply IH, Hnd].
  - assert (Hout : Alien.alien_id alien ∉ map Alien.alien_id (Aliens.aliens a)).
    { intros Hin. apply Hp in Hin. discriminate. }
    split; [reflexivity |]. split; [intros Hin; contradiction |].
    split; [reflexivity |]. split; [auto |]. intros _. exact Hout.
Qed.

Lemma aliens_on_active_ship (f : SpaceShip.t -> SpaceShip.t) (g : ScreenGame.t) :
  ScreenGame.aliens (ScreenGame.on_active_ship f g) = ScreenGame.aliens g.
Proof.
  unfold ScreenGame.on_active_ship. destruct (ScreenGame.active_is_player1 g); reflexivity.
Qed.

Lemma active_ship_with_aliens (a : Aliens.t) (g : ScreenGame.t) :
  ScreenGame.active_ship (ScreenGame.with_aliens a g) = ScreenGame.active_ship g.
Proof. reflexivity. Qed.

Lemma score_update_score (s : SpaceShip.t) :
  SpaceShip.score (ScreenGame.score_update s) = SpaceShip.score s + POINTS_PER_ENEMY.
Proof.
  unfold ScreenGame.score_update. cbn. repeat case_match; reflexivity.
Qed.

Lemma enemy_hit_step (g : ScreenGame.t) (laser : Laser.t) (alien : Alien.t) :
  let g' := ScreenGame.update_active_player_score
              (ScreenGame.with_aliens
                 (Aliens.handle_alien_hit alien
                    (ScreenGame.aliens (ScreenGame.deactivate_player_laser laser g)))
                 (ScreenGame.deactivate_player_laser laser g)) in
  ScreenGame.aliens g' = Aliens.handle_alien_hit alien (ScreenGame.aliens g)
  /\ SpaceShip.score (ScreenGame.active_ship g')
     = SpaceShip.score (ScreenGame.active_ship g) + POINTS_PER_ENEMY.
Proof.
  cbn zeta. unfold ScreenGame.update_active_player_score, ScreenGame.deactivate_player_laser.
  rewrite ?aliens_on_active_ship. cbn [ScreenGame.aliens ScreenGame.with_aliens].
  rewrite ?aliens_on_active_ship. split; [reflexivity |].
  rewrite active_ship_on_active_ship, score_update_score, active_ship_with_aliens,
    active_ship_on_active_ship. reflexivity.
Qed.

Lemma enemy_hit_fold (hits : list (Laser.t * Alien.t)) (g : ScreenGame.t) :
  NoDup (hit_target_ids hits) ->
  (forall i, i ∈ hit_target_ids hits ->
     i ∈ map Alien.alien_id (Aliens.aliens (ScreenGame.aliens g))) ->
  let g' :=
    fold_left
      (fun g '(laser, alien) =>
         let g := ScreenGame.deactivate_player_laser laser g in
         let g := ScreenGame.with_aliens
                    (Aliens.handle_alien_hit alien (ScreenGame.aliens g)) g in
         ScreenGame.update_active_player_score g)
      hits g in
  (length (Aliens.aliens (ScreenGame.aliens g')) + length hits
   = length (Aliens.aliens (ScreenGame.aliens g)))%nat
  /\ SpaceShip.score (ScreenGame.active_ship g')
     = SpaceShip.score (ScreenGame.active_ship g)
       + POINTS_PER_ENEMY * Z.of_nat (length hits)
  /\ sublist (Aliens.aliens (ScreenGame.aliens g')) (Aliens.aliens (ScreenGame.aliens g)).
Proof.
  revert g. induction hits as [| [laser alien] hits IH]; intros g Hnd Hin; cbn zeta.
  - cbn. split; [lia |]. split; [lia | reflexivity].
  - cbn [fold_left].
    destruct (enemy_hit_step g laser alien) as [Ea Es]. cbn zeta in Ea, Es.
    set (g1 := ScreenGame.update_active_player_score _) in *.
    cbn [hit_target_ids map snd] in Hnd, Hin.
    apply NoDup_cons in Hnd as [Hfresh Hnd].
    assert (Hpresent : Alien.alien_id alien
                       ∈ map Alien.alien_id (Aliens.aliens (ScreenGame.aliens g)))
      by (apply Hin, list_elem_of_here).
    destruct (IH g1 Hnd) as (Hlen & Hscore & Hsub).
    { intros i Hi. rewrite Ea.
      unfold Aliens.handle_alien_hit.
      rewrite (proj2 (alien_present _ _) Hpresent).
      cbn [Aliens.aliens Aliens.with_aliens].
      apply remove_alien_other.
      - intros ->. exact (Hfresh Hi).
      - apply Hin, list_elem_of_further, Hi. }
    cbn zeta in Hlen, Hscore, Hsub.
    assert (Hrem : S (length (Aliens.aliens (ScreenGame.aliens g1)))
                   = length (Aliens.aliens (ScreenGame.aliens g))
                   /\ sublist (Aliens.aliens (ScreenGame.aliens g1))
                        (Aliens.aliens (ScreenGame.aliens g))).
    { rewrite Ea. unfold Aliens.handle_alien_hit.
      rewrite (proj2 (alien_present _ _) Hpresent).
      cbn [Aliens.aliens Aliens.with_aliens].
      split; [apply remove_alien_length, Hpresent | apply remove_alien_sublist]. }
    destruct Hrem as [Hrem Hsub1].
    split; [cbn [length]; lia |]. split.
    + rewrite Hscore, Es. cbn [length]. lia.
    + etransitivity; eassumption.
Qed.

(** X9. The accounting of [check_enemy_hit].  With [n] the number of pairs
    the collision check returns, exactly [n] aliens leave the swarm (the
    others keep their order) and the active ship's score grows by exactly
    20 per alien removed; [n] is at most the number of active player
    lasers. *)
Theorem enemy_hit_accounting (g : ScreenGame.t) :
  let hits := CheckHit.check_lasers_vs_targets
                (SpaceShip.lasers (ScreenGame.active_ship g))
                (Aliens.aliens (ScreenGame.aliens g)) default_threshold in
  let g' := ScreenGame.check_enemy_hit g in
  (length (Aliens.aliens (ScreenGame.aliens g')) + length hits
   = length (Aliens.aliens (ScreenGame.aliens g)))%nat
  /\ SpaceShip.score (ScreenGame.active_ship g')
     = SpaceShip.score (ScreenGame.active_ship g)
       + POINTS_PER_ENEMY
         * (Z.of_nat (length (Aliens.aliens (ScreenGame.aliens g)))
            - Z.of_nat (length (Aliens.aliens (ScreenGame.aliens g'))))
  /\ sublist (Aliens.aliens (ScreenGame.aliens g')) (Aliens.aliens (ScreenGame.aliens g))
  /\ (length hits <= count_active (SpaceShip.lasers (ScreenGame.active_ship g)))%nat.
Proof.
  intros hits g'.
  pose proof (lasers_loop_first_match (SpaceShip.lasers (ScreenGame.active_ship g))
                (Aliens.aliens (ScreenGame.aliens g)) default_threshold ∅) as Hfm.
  change (CheckHit.lasers_loop _ _ _ [] ∅) with hits in Hfm.
  destruct (first_match_fresh _ _ _ _ _ Hfm) as [Hnd _].
  pose proof (first_match_real _ _ _ _ _ Hfm) as Hreal.
  destruct (enemy_hit_fold hits g Hnd) as (Hlen & Hscore & Hsub).
  { intros i Hi.
    exact (hit_ids_among_targets (Aliens.aliens (ScreenGame.aliens g)) hits
             (fun l t Hin => proj1 (proj2 (proj2 (Hreal l t Hin)))) i Hi). }
  cbn zeta in Hlen, Hscore, Hsub.
  change (fold_left _ hits g) with g' in Hlen, Hscore, Hsub.
  split; [exact Hlen |]. split; [rewrite Hscore; lia |]. split; [exact Hsub |].
  apply (lasers_vs_targets_facts (SpaceShip.lasers (ScreenGame.active_ship g))
           (Aliens.aliens (ScreenGame.aliens g)) default_threshold).
Qed.

(** X10. The boss bonus is paid once.  [check_boss_hit] changes nothing when
    the boss is inactive or no active player laser is within 20 units of it;
    otherwise, however many lasers overlap the boss, the boss becomes
    inactive and hidden and the active ship's score grows by exactly
    300 + 20. *)
Theorem boss_hit_bonus_once (g : ScreenGame.t) :
  let g' := ScreenGame.check_boss_hit g in
  let in_range (l : Laser.t) :=
    Laser.active l = true
    /\ distance_lt (position (ScreenGame.boss_ship g)) (position l) default_threshold = true in
  let lasers := SpaceShip.lasers (ScreenGame.active_ship g) in
  (BossShip.active (ScreenGame.boss_ship g) = false \/ (forall l, l ∈ lasers -> ~ in_range l) ->
   g' = g)
  /\ (BossShip.active (ScreenGame.boss_ship g) = true ->
      (exists l, l ∈ lasers /\ in_range l) ->
      BossShip.active (ScreenGame.boss_ship g') = false
      /\ BossShip.shown (ScreenGame.boss_ship g') = false
      /\ SpaceShip.score (ScreenGame.active_ship g')
         = SpaceShip.score (ScreenGame.active_ship g)
           + BOSS_BONUS_POINTS + POINTS_PER_ENEMY).
Proof.
  cbn zeta. unfold ScreenGame.check_boss_hit.
  destruct (BossShip.active (ScreenGame.boss_ship g)) eqn:Eb; cbn [negb].
  2: { split; [reflexivity | discriminate]. }
  pose proof (lasers_loop_first_match (SpaceShip.lasers (ScreenGame.active_ship g))
                [ScreenGame.boss_ship g] default_threshold ∅) as Hfm.
  destruct (single_target_hits (SpaceShip.lasers (ScreenGame.active_ship g))
              (ScreenGame.boss_ship g) default_threshold)
    as [E | (laser & E & Hin & Hact & Hd)]; cbn zeta in E; rewrite E; cbn [fold_left].
  - split; [reflexivity |]. intros _ (l & Hl & Ha & Hr). exfalso.
    pose proof (first_match_empty _ _ _ _ _ Hfm E l Hl Ha) as Hmiss.
    apply Forall_inv in Hmiss. apply Hmiss. split; [apply not_elem_of_empty | exact Hr].
  - split.
    + intros [Hf | Hnone]; [discriminate |].
      exfalso. apply (Hnone laser Hin). split; assumption.
    + intros _ _. destruct g as [p1 p2 [] a sh b lv pa st ce scr tr]; cbn.
      * rewrite score_update_score. cbn. repeat split; lia.
      * rewrite score_update_score. cbn. repeat split; lia.
Qed.

(** Two lasers on the active boss: it disappears and the bonus of 320
    points is paid once. *)
Lemma boss_hit_bonus_once_witness :
  BossShip.active (ScreenGame.boss_ship (ScreenGame.check_boss_hit boss_under_fire)) = false
  /\ BossShip.shown (ScreenGame.boss_ship (ScreenGame.check_boss_hit boss_under_fire)) = false
  /\ SpaceShip.score (ScreenGame.active_ship (ScreenGame.check_boss_hit boss_under_fire))
     = SpaceShip.score (ScreenGame.active_ship boss_under_fire)
       + BOSS_BONUS_POINTS + POINTS_PER_ENEMY.
Proof.
  apply (proj2 (boss_hit_bonus_once boss_under_fire)); [reflexivity |].
  exists (Laser.mk 20 (mkPos 0 470) true true).
  split; [apply list_elem_of_here |]. split; reflexivity.
Defined.

(** ** More on the alien swarm *)

Lemma move_aliens_keeps (a : Aliens.t) :
  let a' := Aliens.move_aliens a in
  Aliens.is_running a' = Aliens.is_running a
  /\ Aliens.movement_timer_id a' = Aliens.movement_timer_id a
  /\ Aliens.shooting_timer_id a' = Aliens.shooting_timer_id a
  /\ Aliens.movement_speed a' = Aliens.movement_speed a
  /\ Aliens.shooting_chance a' = Aliens.shooting_chance a
  /\ Aliens.enemy_lasers a' = Aliens.enemy_lasers a
  /\ length (Aliens.aliens a') = length (Aliens.aliens a)
  /\ map Alien.alien_id (Aliens.aliens a') = map Alien.alien_id (Aliens.aliens a).
Proof.
  cbn zeta. unfold Aliens.move_aliens.
  destruct (negb (Aliens.is_running a) || bool_decide (Aliens.aliens a = []));
    [repeat split; reflexivity |].
  rewrite move_loop_spec. cbn [orb]. destruct (existsb _ _); cbn;
    rewrite ?length_map, ?map_map; cbn; repeat split; reflexivity.
Qed.

(** X11. What one shooting cycle does.  [alien_shoot] does nothing at all on a
    swarm that is not running.  On a running swarm it arms exactly one
    shooting timer, for the current generation and with the drawn delay; it
    adds at most one enemy laser, and only when fewer than
    [MAX_ENEMY_LASERS] are in the list, the swarm is not empty and the draw
    is below the shooting chance; the new laser is active and starts at the
    position of an alien of the swarm; the aliens are left as they are. *)
Theorem alien_shoot_cycle (rnd : Draw) (a : Aliens.t) (scr : Screen.t) :
  let a' := fst (Aliens.alien_shoot rnd (a, scr)) in
  let scr' := snd (Aliens.alien_shoot rnd (a, scr)) in
  (Aliens.is_running a = false -> a' = a /\ scr' = scr)
  /\ (Aliens.is_running a = true ->
      scr' = scr ++ [(cb_shooting (Aliens.shooting_timer_id a), draw_randint rnd)])
  /\ Aliens.aliens a' = Aliens.aliens a
  /\ (length (Aliens.enemy_lasers a')
      <= Nat.max MAX_ENEMY_LASERS (length (Aliens.enemy_lasers a)))%nat
  /\ (Aliens.enemy_lasers a' = Aliens.enemy_lasers a
      \/ exists shooter,
           shooter ∈ Aliens.aliens a
           /\ Aliens.enemy_lasers a'
              = Aliens.enemy_lasers a
                ++ [Laser.init (draw_fresh rnd) (Alien.alien_pos shooter)]
           /\ (length (Aliens.enemy_lasers a) < MAX_ENEMY_LASERS)%nat
           /\ (draw_random rnd < Aliens.shooting_chance a)%Q).
Proof.
  cbn zeta. unfold Aliens.alien_shoot.
  destruct (Aliens.is_running a) eqn:Er; cbn [negb fst snd].
  2: { repeat split; auto; try lia; discriminate. }
  split; [discriminate |]. split; [intros _; reflexivity |].
  destruct (Nat.ltb_spec (length (Aliens.enemy_lasers a)) MAX_ENEMY_LASERS) as [Hlt | Hge];
    cbn [andb]; [| repeat split; auto; lia].
  destruct (bool_decide (Aliens.aliens a = [])); cbn [negb];
    [repeat split; auto; lia |].
  destruct (Qltb (draw_random rnd) (Aliens.shooting_chance a)) eqn:Ec;
    [| repeat split; auto; lia].
  destruct (Aliens.aliens a !! _) as [shooter |] eqn:El;
    [| repeat split; auto; lia].
  cbn [Aliens.aliens Aliens.enemy_lasers Aliens.with_enemy_lasers].
  split; [reflexivity |]. split.
  - rewrite length_app. cbn [length]. lia.
  - right. exists shooter. split; [eapply list_elem_of_lookup_2, El |].
    split; [reflexivity |]. split; [exact Hlt | apply Qltb_lt, Ec].
Qed.

(** X12. The movement loop keeps itself going.  On a running swarm
    [start_movement_loop] moves the aliens once and arms one movement timer
    for the current generation, with the movement speed in milliseconds as
    its delay; when that timer fires before any cancellation, its callback
    runs [start_movement_loop] again. *)
Theorem movement_loop_continues (a : Aliens.t) (scr : Screen.t) (rnd : Draw) :
  Aliens.is_running a = true ->
  let a1 := fst (Aliens.start_movement_loop (a, scr)) in
  let scr1 := snd (Aliens.start_movement_loop (a, scr)) in
  a1 = Aliens.move_aliens a
  /\ scr1 = scr ++ [(cb_movement (Aliens.movement_timer_id a),
                     int_of (Aliens.movement_speed a * 1000)%Q)]
  /\ Aliens.fire_callback (cb_movement (Aliens.movement_timer_id a)) rnd (a1, scr)
     = Aliens.start_movement_loop (a1, scr)
  /\ fst (Aliens.fire_callback (cb_movement (Aliens.movement_timer_id a)) rnd (a1, scr))
     = Aliens.move_aliens (Aliens.move_aliens a).
Proof.
  intros Hrun. cbn zeta.
  destruct (move_aliens_keeps a) as (Kr & Km & _ & Ks & _).
  cbn zeta in Kr, Km, Ks.
  assert (E : Aliens.start_movement_loop (a, scr)
              = (Aliens.move_aliens a,
                 scr ++ [(cb_movement (Aliens.movement_timer_id a),
                          int_of (Aliens.movement_speed a * 1000)%Q)])).
  { unfold Aliens.start_movement_loop. rewrite Hrun, Z.eqb_refl. cbn [negb].
    rewrite Ks. reflexivity. }
  rewrite E. cbn [fst snd]. split; [reflexivity |]. split; [reflexivity |].
  assert (F : Aliens.fire_callback (cb_movement (Aliens.movement_timer_id a)) rnd
                (Aliens.move_aliens a, scr)
              = Aliens.start_movement_loop (Aliens.move_aliens a, scr)).
  { cbn [Aliens.fire_callback]. rewrite Kr, Hrun, Km, Z.eqb_refl. reflexivity. }
  split; [exact F |]. rewrite F.
  unfold Aliens.start_movement_loop. rewrite Kr, Hrun, Z.eqb_refl. reflexivity.
Qed.

Lemma movement_loop_continues_witness :
  fst (Aliens.fire_callback (cb_movement 1) sure_shot
         (fst (Aliens.start_movement_loop (swarm_at_right_edge, [])), []))
  = Aliens.move_aliens (Aliens.move_aliens swarm_at_right_edge).
Proof.
  exact (proj2 (proj2 (proj2
           (movement_loop_continues swarm_at_right_edge [] sure_shot eq_refl)))).
Defined.

Lemma place_aliens_props (positions : list Pos) (id : nat) (a : Aliens.t) :
  let a' := AlienGrid.place_aliens positions id a in
  (Aliens.direction a' = Aliens.direction a
   /\ Aliens.step_x a' = Aliens.step_x a /\ Aliens.step_y a' = Aliens.step_y a
   /\ Aliens.movement_speed a' = Aliens.movement_speed a
   /\ Aliens.enemy_lasers a' = Aliens.enemy_lasers a
   /\ Aliens.shooting_chance a' = Aliens.shooting_chance a
   /\ Aliens.is_running a' = Aliens.is_running a
   /\ Aliens.movement_timer_id a' = Aliens.movement_timer_id a
   /\ Aliens.shooting_timer_id a' = Aliens.shooting_timer_id a)
  /\ exists new,
       Aliens.aliens a' = Aliens.aliens a ++ new
       /\ map Alien.alien_id new = seq id (length positions)
       /\ map Alien.alien_pos new = positions
       /\ Forall (fun alien => Alien.shown alien = true) new.
Proof.
  revert id a. induction positions as [| p rest IH]; intros id a; cbn zeta.
  - cbn. split; [repeat split |]. exists []. rewrite app_nil_r. repeat split. constructor.
  - cbn [AlienGrid.place_aliens].
    destruct (IH (S id) (AlienGrid.generate_aliens p id a)) as (Hf & new & Ea & Eid & Epos & Hsh).
    cbn zeta in Hf, Ea. split; [exact Hf |].
    exists (Alien.mk id p true :: new). split.
    + rewrite Ea. unfold AlienGrid.generate_aliens.
      cbn [Aliens.aliens Aliens.with_aliens]. rewrite <- app_assoc. reflexivity.
    + cbn [map length seq Alien.alien_id Alien.alien_pos].
      rewrite Eid, Epos. repeat split. constructor; [reflexivity | exact Hsh].
Qed.

Lemma grid_positions_bounds :
  Forall (fun p => (- (300) <= px p /\ px p <= 300 /\ 212 <= py p /\ py p <= 412)%Q)
    AlienGrid.grid_positions.
Proof.
  assert (Hb : forallb (fun p => Qle_bool (- (300)) (px p) && Qle_bool (px p) 300
                                 && Qle_bool 212 (py p) && Qle_bool (py p) 412)
                 AlienGrid.grid_positions = true) by (vm_compute; reflexivity).
  rewrite forallb_forall in Hb. apply Forall_forall. intros p Hp.
  specialize (Hb p (proj1 (list_elem_of_In _ _) Hp)).
  rewrite !andb_true_iff, !Qle_bool_iff in Hb. tauto.
Qed.

Lemma no_edge_inside_margins (dx : Q) (als : list Alien.t) :
  (- (10) <= dx /\ dx <= 10)%Q ->
  Forall inside_margins als -> ~ reaches_edge dx als.
Proof.
  intros Hdx Hin (alien & Hal & Hedge).
  rewrite Forall_forall in Hin. specialize (Hin alien Hal).
  unfold inside_margins in Hin. lra.
Qed.

(** X13. The grid [generate_grid] lays out.  The call appends 55 new aliens
    to the list and leaves the enemy lasers, the running flag and the
    direction as they are; the new aliens are
    visible, carry the 55 identities handed out in creation order, lie
    within 300 units of the centre line and between heights 212 and 412,
    and are inside the side margins by more than a step, so that a running
    swarm made of them alone does not turn on its next move of 10 units in
    either direction. *)
Theorem generate_grid_layout (base : nat) (a : Aliens.t) :
  let a' := AlienGrid.generate_grid base a in
  (exists new,
     Aliens.aliens a' = Aliens.aliens a ++ new
     /\ length new = 55%nat
     /\ map Alien.alien_id new = seq base 55
     /\ Forall (fun alien =>
                  Alien.shown alien = true /\ inside_margins alien
                  /\ (- (300) <= px (Alien.alien_pos alien) <= 300)%Q
                  /\ (212 <= py (Alien.alien_pos alien) <= 412)%Q) new)
  /\ Aliens.enemy_lasers a' = Aliens.enemy_lasers a
  /\ Aliens.is_running a' = Aliens.is_running a
  /\ Aliens.direction a' = Aliens.direction a
  /\ (Aliens.aliens a = [] -> Aliens.is_running a = true ->
      Aliens.step_x a * Aliens.direction a = 10
      \/ Aliens.step_x a * Aliens.direction a = - 10 ->
      Aliens.direction (Aliens.move_aliens a') = Aliens.direction a).
Proof.
  cbn zeta. unfold AlienGrid.generate_grid.
  destruct (place_aliens_props AlienGrid.grid_positions base a)
    as ((Hd & Hsx & _ & _ & Hl & _ & Hr & _ & _) & new & Ea & Eid & Epos & Hsh).
  cbn zeta in *.
  assert (Hnew : Forall (fun alien =>
                   Alien.shown alien = true /\ inside_margins alien
                   /\ (- (300) <= px (Alien.alien_pos alien) <= 300)%Q
                   /\ (212 <= py (Alien.alien_pos alien) <= 412)%Q) new).
  { apply Forall_forall. intros alien Hin.
    pose proof grid_positions_bounds as Hb. rewrite Forall_forall in Hb.
    assert (Hp : Alien.alien_pos alien ∈ AlienGrid.grid_positions).
    { rewrite <- Epos. apply list_elem_of_fmap. exists alien. auto. }
    specialize (Hb _ Hp). rewrite Forall_forall in Hsh.
    assert (Hl' : (WALLS_left == - (480))%Q) by reflexivity.
    assert (Hr' : (WALLS_right == 480)%Q) by reflexivity.
    split; [apply Hsh, Hin |]. unfold inside_margins. repeat split; lra. }
  split.
  - exists new. split; [exact Ea |]. split.
    + rewrite <- (length_map Alien.alien_pos), Epos. reflexivity.
    + split; [exact Eid | exact Hnew].
  - split; [exact Hl |]. split; [exact Hr |]. split; [exact Hd |].
    intros Hempty Hrun Hstep. rewrite Hempty in Ea. cbn [app] in Ea.
    set (a' := AlienGrid.place_aliens AlienGrid.grid_positions base a) in *.
    assert (Hne : Aliens.aliens a' <> []).
    { rewrite Ea. intros E. apply (f_equal (map Alien.alien_pos)) in E.
      rewrite Epos in E. discriminate. }
    unfold Aliens.move_aliens. rewrite Hr, Hrun.
    rewrite bool_decide_eq_false_2 by exact Hne. cbn [negb orb].
    rewrite move_loop_spec.
    destruct (existsb _ (Aliens.aliens a')) eqn:E.
    + exfalso. apply hits_edge_reaches in E. revert E.
      apply no_edge_inside_margins.
      * rewrite Hsx, Hd. destruct Hstep as [-> | ->]; unfold inject_Z; lra.
      * rewrite Ea. eapply Forall_impl; [exact Hnew |]. intros x Hx. apply Hx.
    + cbn. exact Hd.
Qed.

Lemma alien_shoot_keeps (rnd : Draw) (a : Aliens.t) (scr : Screen.t) :
  Aliens.is_running a = true ->
  let a' := fst (Aliens.alien_shoot rnd (a, scr)) in
  Aliens.is_running a' = true
  /\ Aliens.movement_timer_id a' = Aliens.movement_timer_id a
  /\ Aliens.shooting_timer_id a' = Aliens.shooting_timer_id a
  /\ Aliens.aliens a' = Aliens.aliens a
  /\ (length (Aliens.enemy_lasers a')
      <= Nat.max MAX_ENEMY_LASERS (length (Aliens.enemy_lasers a)))%nat
  /\ snd (Aliens.alien_shoot rnd (a, scr))
     = scr ++ [(cb_shooting (Aliens.shooting_timer_id a), draw_randint rnd)].
Proof.
  intros Hrun. cbn zeta. unfold Aliens.alien_shoot. rewrite Hrun. cbn [negb fst snd].
  destruct (Nat.ltb_spec (length (Aliens.enemy_lasers a)) MAX_ENEMY_LASERS) as [Hlt | Hge];
    cbn [andb]; [| repeat split; auto; lia].
  destruct (negb _); [| repeat split; auto; lia].
  destruct (Qltb _ _); [| repeat split; auto; lia].
  destruct (Aliens.aliens a !! _); [| repeat split; auto; lia].
  cbn. repeat split; auto. rewrite length_app. cbn. lia.
Qed.

Lemma generate_grid_after_clear (base : nat) (a : Aliens.t) :
  let a0 := AlienGrid.generate_grid base (Aliens.clear_all (Aliens.cancel_timers a)) in
  Aliens.movement_speed a0 = Aliens.movement_speed a
  /\ Aliens.enemy_lasers a0 = []
  /\ Aliens.movement_timer_id a0 = Aliens.movement_timer_id a + 1
  /\ Aliens.shooting_timer_id a0 = Aliens.shooting_timer_id a + 1
  /\ map Alien.alien_id (Aliens.aliens a0) = seq base 55.
Proof.
  cbn zeta. unfold AlienGrid.generate_grid.
  destruct (place_aliens_props AlienGrid.grid_positions base
              (Aliens.clear_all (Aliens.cancel_timers a)))
    as ((_ & _ & _ & Hsp & Hl & _ & _ & Hm & Hs) & new & Ea & Eid & _).
  cbn zeta in Hsp, Hl, Hm, Hs, Ea.
  rewrite Hsp, Hl, Hm, Hs, Ea. repeat split. exact Eid.
Qed.

(** X14. [reset] restarts the swarm.  After [reset] the swarm is running and
    consists of exactly the 55 aliens of a new grid, it holds at most one
    enemy laser, and the screen has gained exactly one movement timer and
    one shooting timer of the new generations; every movement or shooting
    callback armed before the reset is without effect when it fires. *)
Theorem swarm_reset (rnd : Draw) (base : nat) (a : Aliens.t) (scr : Screen.t) :
  let a' := fst (AlienGrid.reset rnd base (a, scr)) in
  let scr' := snd (AlienGrid.reset rnd base (a, scr)) in
  Aliens.is_running a' = true
  /\ map Alien.alien_id (Aliens.aliens a') = seq base 55
  /\ (length (Aliens.enemy_lasers a') <= 1)%nat
  /\ scr' = scr ++ [(cb_movement (Aliens.movement_timer_id a + 2),
                     int_of (Aliens.movement_speed a * 1000)%Q);
                    (cb_shooting (Aliens.shooting_timer_id a + 1), draw_randint rnd)]
  /\ (forall cb rnd', armed_by_swarm cb a ->
        Aliens.fire_callback cb rnd' (a', scr') = (a', scr')).
Proof.
  cbn zeta. unfold AlienGrid.reset, Aliens.start.
  destruct (generate_grid_after_clear base a) as (Hsp & Hl & Hm & Hs & Hid).
  cbn zeta in Hsp, Hl, Hm, Hs, Hid.
  generalize dependent (AlienGrid.generate_grid base
                          (Aliens.clear_all (Aliens.cancel_timers a))).
  intros a0 Hsp Hl Hm Hs Hid.
  set (a1 := Aliens.mk (Aliens.aliens a0) (Aliens.direction a0) (Aliens.step_x a0)
               (Aliens.step_y a0) (Aliens.movement_speed a0) (Aliens.enemy_lasers a0)
               (Aliens.shooting_chance a0) true (Aliens.movement_timer_id a0 + 1)
               (Aliens.shooting_timer_id a0)).
  destruct (move_aliens_keeps a1) as (Kr & Km & Ks & Ksp & _ & Kl & _ & Kid).
  cbn zeta in Kr, Km, Ks, Ksp, Kl, Kid.
  cbn [a1 Aliens.is_running Aliens.movement_timer_id Aliens.shooting_timer_id
       Aliens.movement_speed Aliens.enemy_lasers Aliens.aliens] in Kr, Km, Ks, Ksp, Kl, Kid.
  assert (E1 : Aliens.start_movement_loop (a1, scr)
               = (Aliens.move_aliens a1,
                  scr ++ [(cb_movement (Aliens.movement_timer_id a + 2),
                           int_of (Aliens.movement_speed a * 1000)%Q)])).
  { unfold Aliens.start_movement_loop. cbn [Aliens.is_running a1 negb].
    rewrite Z.eqb_refl, Ksp, Hsp. cbn [Aliens.movement_timer_id a1].
    rewrite Hm. unfold Screen.ontimer.
    replace (Aliens.movement_timer_id a + 1 + 1) with (Aliens.movement_timer_id a + 2) by lia.
    reflexivity. }
  rewrite E1.
  destruct (alien_shoot_keeps rnd (Aliens.move_aliens a1)
              (scr ++ [(cb_movement (Aliens.movement_timer_id a + 2),
                        int_of (Aliens.movement_speed a * 1000)%Q)]) Kr)
    as (Sr & Sm & Ss & Sa & Sl & Sscr).
  cbn zeta in Sr, Sm, Ss, Sa, Sl, Sscr.
  destruct (Aliens.alien_shoot rnd _) as [a' scr']. cbn [fst snd] in *.
  split; [exact Sr |]. split.
  { rewrite Sa, Kid. exact Hid. }
  split.
  { rewrite Kl, Hl in Sl. cbn in Sl. exact Sl. }
  split.
  { rewrite Sscr, Ks, Hs, <- app_assoc. reflexivity. }
  intros cb rnd' Harmed.
  destruct cb as [| id | id | | | step |]; cbn in Harmed |- *; try reflexivity.
  - replace (Aliens.movement_timer_id a' =? id) with false
      by (symmetry; apply Z.eqb_neq; lia).
    rewrite andb_false_r. reflexivity.
  - replace (Aliens.shooting_timer_id a' =? id) with false
      by (symmetry; apply Z.eqb_neq; lia).
    rewrite andb_false_r. reflexivity.
Qed.

(** ** More on the shields *)

Lemma take_damage_keeps (b : ShieldBlock.t) :
  ShieldBlock.block_id (ShieldBlock.take_damage b) = ShieldBlock.block_id b
  /\ ShieldBlock.block_pos (ShieldBlock.take_damage b) = ShieldBlock.block_pos b.
Proof.
  unfold ShieldBlock.take_damage; cbn. repeat case_match; cbn; auto.
Qed.

(** What [n] laser passes may do to a block. *)
Lemma collide_blocks_spec (laser : Laser.t) (blocks : ShieldGenerator.t) :
  let laser' := fst (ShieldGenerator.collide_blocks laser blocks) in
  let blocks' := snd (ShieldGenerator.collide_blocks laser blocks) in
  Laser.laser_id laser' = Laser.laser_id laser
  /\ Laser.laser_pos laser' = Laser.laser_pos laser
  /\ (Laser.active laser' = true -> Laser.active laser = true)
  /\ (Forall (fun b => ShieldBlock.active b
                       && distance_lt (position laser) (position b) 15 = false) blocks ->
      laser' = laser)
  /\ Forall2 (fun b b' =>
                ShieldBlock.block_id b' = ShieldBlock.block_id b
                /\ ShieldBlock.block_pos b' = ShieldBlock.block_pos b
                /\ ShieldBlock.hp b - 1 <= ShieldBlock.hp b' <= ShieldBlock.hp b
                /\ (ShieldBlock.active b = false -> b' = b))
       blocks blocks'.
Proof.
  revert laser. induction blocks as [| b rest IH]; intros laser; cbn zeta.
  - cbn. repeat split; auto.
  - cbn [ShieldGenerator.collide_blocks].
    destruct (ShieldBlock.active b
              && distance_lt (position laser) (position b) 15) eqn:E.
    + specialize (IH (Laser.deactivate laser)).
      destruct (ShieldGenerator.collide_blocks (Laser.deactivate laser) rest)
        as [l' rest'].
      cbn [fst snd] in *. destruct IH as (Hid & Hpos & Hact & _ & Hbs).
      split; [exact Hid |]. split; [exact Hpos |].
      split; [intros Ha; apply Hact in Ha; discriminate |].
      split; [intros Hall; apply Forall_inv in Hall; congruence |].
      constructor; [| exact Hbs].
      destruct (take_damage_keeps b) as [Kid Kpos].
      rewrite take_damage_hp. repeat split; auto; try lia.
      apply andb_true_iff in E as [Ea _]. congruence.
    + specialize (IH laser).
      destruct (ShieldGenerator.collide_blocks laser rest) as [l' rest'].
      cbn [fst snd] in *. destruct IH as (Hid & Hpos & Hact & Hsame & Hbs).
      split; [exact Hid |]. split; [exact Hpos |]. split; [exact Hact |].
      split; [intros Hall; apply Hsame; eapply Forall_inv_tail, Hall |].
      constructor; [| exact Hbs]. repeat split; auto; lia.
Qed.

Lemma check_collision_spec (lasers : list Laser.t) (blocks : ShieldGenerator.t) :
  let lasers' := fst (ShieldGenerator.check_collision lasers blocks) in
  let blocks' := snd (ShieldGenerator.check_collision lasers blocks) in
  Forall2 (fun l l' =>
             Laser.laser_id l' = Laser.laser_id l
             /\ Laser.laser_pos l' = Laser.laser_pos l
             /\ (Laser.active l' = true -> Laser.active l = true)
             /\ (Forall (fun b => distance_lt (position l) (position b) 15 = false) blocks ->
                 l' = l))
    lasers lasers'
  /\ Forall2 (fun b b' =>
                ShieldBlock.block_id b' = ShieldBlock.block_id b
                /\ ShieldBlock.block_pos b' = ShieldBlock.block_pos b
                /\ ShieldBlock.hp b - Z.of_nat (length lasers) <= ShieldBlock.hp b'
                   <= ShieldBlock.hp b
                /\ (ShieldBlock.active b = false -> b' = b))
       blocks blocks'.
Proof.
  revert blocks. induction lasers as [| laser rest IH]; intros blocks; cbn zeta.
  - cbn. split; [constructor |]. apply Forall2_same_length_lookup_2; [reflexivity |].
    intros i b b' Hb Hb'. assert (b' = b) by congruence. subst. repeat split; auto; lia.
  - cbn [ShieldGenerator.check_collision].
    destruct (collide_blocks_spec laser blocks) as (Hid & Hpos & Hact & Hsame & Hbs).
    destruct (ShieldGenerator.collide_blocks laser blocks) as [l' blocks1].
    specialize (IH blocks1).
    destruct (ShieldGenerator.check_collision rest blocks1) as [rest' blocks2].
    cbn [fst snd] in *. destruct IH as [Hls Hbs2]. split.
    + constructor.
      * split; [exact Hid |]. split; [exact Hpos |]. split; [exact Hact |].
        intros Hfar. apply Hsame. eapply Forall_impl; [exact Hfar |].
        intros b Hb. cbn beta in Hb. rewrite Hb. apply andb_false_r.
      * eapply Forall2_impl; [exact Hls |].
        intros l l2 (Lid & Lpos & Lact & Lsame). repeat split; auto.
        intros Hfar. apply Lsame.
        clear - Hfar Hbs. induction Hbs as [| b b1 bs bs1 (_ & Hp & _) _ IHb];
          [constructor |].
        apply Forall_cons in Hfar as [Hb Hfar]. constructor; [| apply IHb, Hfar].
        cbn [position ShieldBlock_Turtle] in *. rewrite Hp. exact Hb.
    + clear - Hbs Hbs2. revert blocks2 Hbs2.
      induction Hbs as [| b b1 bs bs1 (Hi & Hp & Hh & Hin) _ IHb]; intros blocks2 Hbs2.
      * inversion Hbs2. constructor.
      * inversion Hbs2 as [| ? b2 ? bs2 (Hi2 & Hp2 & Hh2 & Hin2) Htail]; subst.
        constructor; [| apply IHb, Htail].
        split; [congruence |]. split; [congruence |].
        split; [cbn [length]; lia |].
        intros Ha. rewrite Hin2; rewrite (Hin Ha); auto.
Qed.

(** X15. What a shield pass may change.  [check_collision] keeps the number,
    order, identity and position of lasers and blocks.  A block loses at
    most one hit point per laser and never gains one, and an inactive block
    is left exactly as it is; no laser becomes active, and a laser that is
    not within 15 units of any block is left exactly as it is. *)
Theorem shield_pass_changes (lasers : list Laser.t) (blocks : ShieldGenerator.t) :
  let lasers' := fst (ShieldGenerator.check_collision lasers blocks) in
  let blocks' := snd (ShieldGenerator.check_collision lasers blocks) in
  Forall2 (fun l l' =>
             Laser.laser_id l' = Laser.laser_id l
             /\ Laser.laser_pos l' = Laser.laser_pos l
             /\ (Laser.active l' = true -> Laser.active l = true)
             /\ (Forall (fun b => distance_lt (position l) (position b) 15 = false) blocks ->
                 l' = l))
    lasers lasers'
  /\ Forall2 (fun b b' =>
                ShieldBlock.block_id b' = ShieldBlock.block_id b
                /\ ShieldBlock.block_pos b' = ShieldBlock.block_pos b
                /\ ShieldBlock.hp b - Z.of_nat (length lasers) <= ShieldBlock.hp b'
                   <= ShieldBlock.hp b
                /\ (ShieldBlock.active b = false -> b' = b))
       blocks blocks'.
Proof. apply check_collision_spec. Qed.

(** The melee pass seen block by block. *)
Lemma melee_blockwise (aliens : list Alien.t) (blocks : ShieldGenerator.t) :
  ShieldGenerator.check_collision_with_aliens aliens blocks
  = map (fun block =>
           fold_left (fun b alien =>
                        if ShieldBlock.active b
                           && distance_lt (position b) (position alien) BLOCK_SIZE
                        then ShieldBlock.take_damage b else b)
                     aliens block)
        blocks.
Proof.
  unfold ShieldGenerator.check_collision_with_aliens.
  revert blocks. induction aliens as [| alien rest IH]; intros blocks; cbn [fold_left].
  - rewrite map_id. reflexivity.
  - rewrite IH. unfold ShieldGenerator.collide_alien. rewrite map_map. reflexivity.
Qed.

Lemma take_damage_consistent (b : ShieldBlock.t) :
  block_consistent b -> ShieldBlock.active b = true ->
  block_consistent (ShieldBlock.take_damage b)
  /\ ShieldBlock.hp (ShieldBlock.take_damage b) = ShieldBlock.hp b - 1.
Proof.
  unfold block_consistent. intros Hc Ha. rewrite Ha in Hc. symmetry in Hc.
  apply Z.ltb_lt in Hc. split; [| apply take_damage_hp].
  unfold ShieldBlock.take_damage. cbn.
  destruct (Z.eqb_spec (ShieldBlock.hp b - 1) 2) as [E2 | E2]; cbn;
    [rewrite Ha; symmetry; apply Z.ltb_lt; lia |].
  destruct (Z.eqb_spec (ShieldBlock.hp b - 1) 1) as [E1 | E1]; cbn;
    [rewrite Ha; symmetry; apply Z.ltb_lt; lia |].
  destruct (Z.leb_spec (ShieldBlock.hp b - 1) 0) as [E0 | E0]; cbn.
  - symmetry. apply Z.ltb_ge. lia.
  - rewrite Ha. symmetry. apply Z.ltb_lt. lia.
Qed.

Lemma melee_one_block (aliens : list Alien.t) (b : ShieldBlock.t) :
  block_consistent b ->
  let b' := fold_left (fun b alien =>
                         if ShieldBlock.active b
                            && distance_lt (position b) (position alien) BLOCK_SIZE
                         then ShieldBlock.take_damage b else b)
                      aliens b in
  block_consistent b'
  /\ ShieldBlock.block_id b' = ShieldBlock.block_id b
  /\ ShieldBlock.block_pos b' = ShieldBlock.block_pos b
  /\ ShieldBlock.hp b'
     = (if ShieldBlock.active b
        then Z.max 0 (ShieldBlock.hp b - Z.of_nat (aliens_in_range b aliens))
        else ShieldBlock.hp b).
Proof.
  revert b. induction aliens as [| alien rest IH]; intros b Hc; cbn zeta.
  - cbn. repeat split; auto. unfold block_consistent in Hc.
    destruct (ShieldBlock.active b); [| reflexivity].
    symmetry in Hc. apply Z.ltb_lt in Hc. lia.
  - cbn [fold_left]. unfold aliens_in_range. rewrite filter_cons.
    destruct (ShieldBlock.active b) eqn:Ea; cbn [andb].
    + destruct (distance_lt (position b) (position alien) BLOCK_SIZE) eqn:Ed.
      * rewrite decide_True by reflexivity.
        destruct (take_damage_consistent b Hc Ea) as [Hc' Hhp].
        destruct (take_damage_keeps b) as [Kid Kpos].
        destruct (IH _ Hc') as (Hc2 & Hid2 & Hpos2 & Hhp2). cbn zeta in *.
        split; [exact Hc2 |]. split; [congruence |]. split; [congruence |].
        rewrite Hhp2. unfold aliens_in_range.
        cbn [position ShieldBlock_Turtle] in *. rewrite Kpos, Hhp.
        cbn [length]. unfold block_consistent in Hc, Hc'. rewrite Ea in Hc.
        symmetry in Hc. apply Z.ltb_lt in Hc.
        destruct (ShieldBlock.active (ShieldBlock.take_damage b)) eqn:Ea'.
        -- lia.
        -- symmetry in Hc'. apply Z.ltb_ge in Hc'. rewrite Hhp in Hc'. lia.
      * rewrite decide_False by discriminate.
        destruct (IH _ Hc) as (Hc2 & Hid2 & Hpos2 & Hhp2). cbn zeta in *.
        rewrite Ea in Hhp2. repeat split; auto.
    + destruct (IH _ Hc) as (Hc2 & Hid2 & Hpos2 & Hhp2). cbn zeta in *.
      rewrite Ea in Hhp2. repeat split; auto.
Qed.

(** X16. Melee damage counts the aliens in range.  After
    [check_collision_with_aliens] the blocks are the same in number, order,
    identity and position; a block that was active has lost one hit point
    for every alien within [BLOCK_SIZE] units of it, down to 0, an inactive
    block has lost none; and a block's flag still agrees with its hit
    points.  The aliens are not touched. *)
Theorem melee_damage_counts_aliens (aliens : list Alien.t) (blocks : ShieldGenerator.t) :
  Forall block_consistent blocks ->
  Forall2 (fun b b' =>
             block_consistent b'
             /\ ShieldBlock.block_id b' = ShieldBlock.block_id b
             /\ ShieldBlock.block_pos b' = ShieldBlock.block_pos b
             /\ ShieldBlock.hp b'
                = (if ShieldBlock.active b
                   then Z.max 0 (ShieldBlock.hp b - Z.of_nat (aliens_in_range b aliens))
                   else ShieldBlock.hp b))
    blocks (ShieldGenerator.check_collision_with_aliens aliens blocks).
Proof.
  intros Hc. rewrite melee_blockwise.
  induction Hc as [| b rest Hb _ IH]; cbn [map]; constructor; [| exact IH].
  apply (melee_one_block aliens b Hb).
Qed.

(** Two aliens on two new blocks: the first block, in range of both, keeps
    1 hit point, the second, in range of one, keeps 2. *)
Lemma melee_damage_counts_aliens_witness :
  map (fun b => aliens_in_range b aliens_on_shields) adjacent_blocks = [2%nat; 1%nat]
  /\ map ShieldBlock.hp
       (ShieldGenerator.check_collision_with_aliens aliens_on_shields adjacent_blocks)
     = [1; 2]
  /\ Forall2 (fun b b' =>
                block_consistent b'
                /\ ShieldBlock.block_id b' = ShieldBlock.block_id b
                /\ ShieldBlock.block_pos b' = ShieldBlock.block_pos b
                /\ ShieldBlock.hp b'
                   = (if ShieldBlock.active b
                      then Z.max 0 (ShieldBlock.hp b
                                    - Z.of_nat (aliens_in_range b aliens_on_shields))
                      else ShieldBlock.hp b))
       adjacent_blocks
       (ShieldGenerator.check_collision_with_aliens aliens_on_shields adjacent_blocks).
Proof.
  split; [reflexivity |]. split; [reflexivity |].
  apply (melee_damage_counts_aliens aliens_on_shields adjacent_blocks).
  repeat constructor.
Defined.

Lemma row_blocks_spec (cells : list bool) (col width : nat) (x_center : Z) (y : Q)
    (id : nat) :
  let bs := fst (ShieldLayout.row_blocks cells col width x_center y id) in
  let id' := snd (ShieldLayout.row_blocks cells col width x_center y id) in
  length bs = length (filter (fun cell => cell = true) cells)
  /\ id' = (id + length bs)%nat
  /\ map ShieldBlock.block_id bs = seq id (length bs)
  /\ Forall (fun b =>
               pristine b /\ py (ShieldBlock.block_pos b) = y
               /\ exists c, (col <= c < col + length cells)%nat
                            /\ px (ShieldBlock.block_pos b)
                               = inject_Z (x_center
                                           + (Z.of_nat c - Z.of_nat width / 2) * 25))
       bs.
Proof.
  revert col id. induction cells as [| cell rest IH]; intros col id; cbn zeta.
  - cbn. repeat split; auto.
  - cbn [ShieldLayout.row_blocks]. rewrite filter_cons. destruct cell.
    + specialize (IH (S col) (S id)).
      destruct (ShieldLayout.row_blocks rest (S col) width x_center y (S id)) as [bs id'].
      cbn [fst snd] in *. destruct IH as (Hlen & Hid & Hids & Hall).
      rewrite decide_True by reflexivity. cbn [length map seq].
      split; [lia |]. split; [lia |]. split; [cbn; rewrite Hids; reflexivity |].
      constructor.
      * split; [repeat split |]. split; [reflexivity |].
        exists col. split; [lia | reflexivity].
      * eapply Forall_impl; [exact Hall |].
        intros b (Hp & Hy & c & Hc & Hx). split; [exact Hp |]. split; [exact Hy |].
        exists c. split; [lia | exact Hx].
    + specialize (IH (S col) id).
      destruct (ShieldLayout.row_blocks rest (S col) width x_center y id) as [bs id'].
      cbn [fst snd] in *. destruct IH as (Hlen & Hid & Hids & Hall).
      rewrite decide_False by discriminate.
      split; [exact Hlen |]. split; [exact Hid |]. split; [exact Hids |].
      eapply Forall_impl; [exact Hall |].
      intros b (Hp & Hy & c & Hc & Hx). split; [exact Hp |]. split; [exact Hy |].
      exists c. split; [cbn [length]; lia | exact Hx].
Qed.

Lemma pattern_blocks_spec (rows : Pattern) (row_index height : nat) (x_center : Z)
    (y_bottom : Q) (id : nat) :
  let bs := fst (ShieldLayout.pattern_blocks rows row_index height x_center y_bottom id) in
  let id' := snd (ShieldLayout.pattern_blocks rows row_index height x_center y_bottom id) in
  length bs = set_cells rows
  /\ id' = (id + length bs)%nat
  /\ map ShieldBlock.block_id bs = seq id (length bs)
  /\ Forall (fun b =>
               pristine b
               /\ exists r row c,
                    (row_index <= r < row_index + length rows)%nat
                    /\ row ∈ rows /\ (c < length row)%nat
                    /\ py (ShieldBlock.block_pos b)
                       = (y_bottom + inject_Z ((Z.of_nat height - Z.of_nat r) * 25))%Q
                    /\ px (ShieldBlock.block_pos b)
                       = inject_Z (x_center
                                   + (Z.of_nat c - Z.of_nat (length row) / 2) * 25))
       bs.
Proof.
  revert row_index id. induction rows as [| row rest IH]; intros row_index id; cbn zeta.
  - cbn. repeat split; auto.
  - cbn [ShieldLayout.pattern_blocks].
    destruct (row_blocks_spec row 0 (length row) x_center
                (y_bottom + inject_Z ((Z.of_nat height - Z.of_nat row_index) * 25))%Q id)
      as (Rlen & Rid & Rids & Rall).
    destruct (ShieldLayout.row_blocks row 0 (length row) x_center _ id) as [bs id1].
    cbn [fst snd] in *. specialize (IH (S row_index) id1).
    destruct (ShieldLayout.pattern_blocks rest (S row_index) height x_center y_bottom id1)
      as [bs' id2].
    cbn [fst snd] in *. destruct IH as (Hlen & Hid & Hids & Hall).
    split.
    { unfold set_cells in *. cbn [concat]. rewrite filter_app, !length_app. lia. }
    split; [rewrite length_app; lia |].
    split.
    { rewrite map_app, length_app, seq_app, Rids, Hids, Rid. reflexivity. }
    apply Forall_app. split.
    + eapply Forall_impl; [exact Rall |].
      intros b (Hp & Hy & c & Hc & Hx). split; [exact Hp |].
      exists row_index, row, c. split; [cbn [length]; lia |].
      split; [apply list_elem_of_here |]. split; [lia |]. split; assumption.
    + eapply Forall_impl; [exact Hall |].
      intros b (Hp & r & row' & c & Hr & Hrow & Hc & Hy & Hx). split; [exact Hp |].
      exists r, row', c. split; [cbn [length]; lia |].
      split; [apply list_elem_of_further, Hrow |]. auto.
Qed.

Lemma create_pattern_blocks_spec (pattern : Pattern) (x_center : Z) (y_bottom : Q)
    (id : nat) (blocks : ShieldGenerator.t) :
  let blocks' := fst (ShieldLayout.create_pattern_blocks pattern x_center y_bottom id blocks) in
  let id' := snd (ShieldLayout.create_pattern_blocks pattern x_center y_bottom id blocks) in
  exists new,
    blocks' = blocks ++ new
    /\ length new = set_cells pattern
    /\ id' = (id + length new)%nat
    /\ map ShieldBlock.block_id new = seq id (length new)
    /\ Forall pristine new
    /\ (random_pattern_shape pattern ->
        Forall (fun b =>
                  (inject_Z (x_center - 75) <= px (ShieldBlock.block_pos b)
                   /\ px (ShieldBlock.block_pos b) <= inject_Z (x_center + 50)
                   /\ y_bottom + 25 <= py (ShieldBlock.block_pos b)
                   /\ py (ShieldBlock.block_pos b) <= y_bottom + 100)%Q) new).
Proof.
  cbn zeta. unfold ShieldLayout.create_pattern_blocks.
  destruct (pattern_blocks_spec pattern 0 (length pattern) x_center y_bottom id)
    as (Hlen & Hid & Hids & Hall).
  destruct (ShieldLayout.pattern_blocks pattern 0 (length pattern) x_center y_bottom id)
    as [new id'].
  cbn [fst snd] in *. exists new.
  split; [reflexivity |]. split; [exact Hlen |]. split; [exact Hid |].
  split; [exact Hids |]. split.
  - eapply Forall_impl; [exact Hall |]. intros b Hb. apply Hb.
  - intros (Hrows & width & Hwidth & Hrow). rewrite Forall_forall in Hrow.
    eapply Forall_impl; [exact Hall |].
    intros b (_ & r & row & c & Hr & Hin & Hc & Hy & Hx).
    rewrite (Hrow row Hin) in Hc, Hx. rewrite Hx, Hy.
    assert (Hcol : - 3 <= Z.of_nat c - Z.of_nat width / 2 <= 2).
    { assert (Hw : width = 3%nat \/ width = 4%nat \/ width = 5%nat \/ width = 6%nat) by lia.
      destruct Hw as [-> | [-> | [-> | ->]]];
        change (Z.of_nat 3 / 2) with 1; change (Z.of_nat 4 / 2) with 2;
        change (Z.of_nat 5 / 2) with 2; change (Z.of_nat 6 / 2) with 3; lia. }
    assert (Hrowz : 1 <= Z.of_nat (length pattern) - Z.of_nat r <= 4) by lia.
    split; [rewrite <- Zle_Qle; lia |]. split; [rewrite <- Zle_Qle; lia |].
    assert (H25 : (inject_Z 25 <= inject_Z ((Z.of_nat (length pattern) - Z.of_nat r) * 25))%Q)
      by (rewrite <- Zle_Qle; lia).
    assert (H100 : (inject_Z ((Z.of_nat (length pattern) - Z.of_nat r) * 25) <= inject_Z 100)%Q)
      by (rewrite <- Zle_Qle; lia).
    unfold inject_Z at 1 in H25. unfold inject_Z at 2 in H100. split; lra.
Qed.

(** X17. The blocks of a shield pattern.  [create_pattern_blocks] appends one
    new block per set cell of the pattern and no other, each with 3 hit
    points, active, green and visible, with consecutive identities.  For a
    pattern of the shape [random_pattern] draws (2 to 4 rows, 3 to 6
    columns) every new block is at most 75 units left and 50 units right of
    the shield's centre, and 25 to 100 units above its baseline. *)
Theorem pattern_blocks_layout (pattern : Pattern) (x_center : Z) (y_bottom : Q)
    (id : nat) (blocks : ShieldGenerator.t) :
  let blocks' := fst (ShieldLayout.create_pattern_blocks pattern x_center y_bottom id blocks) in
  let id' := snd (ShieldLayout.create_pattern_blocks pattern x_center y_bottom id blocks) in
  exists new,
    blocks' = blocks ++ new
    /\ length new = set_cells pattern
    /\ id' = (id + length new)%nat
    /\ map ShieldBlock.block_id new = seq id (length new)
    /\ Forall pristine new
    /\ (random_pattern_shape pattern ->
        Forall (fun b =>
                  (inject_Z (x_center - 75) <= px (ShieldBlock.block_pos b)
                   /\ px (ShieldBlock.block_pos b) <= inject_Z (x_center + 50)
                   /\ y_bottom + 25 <= py (ShieldBlock.block_pos b)
                   /\ py (ShieldBlock.block_pos b) <= y_bottom + 100)%Q) new).
Proof. apply create_pattern_blocks_spec. Qed.

Lemma shields_from_spec (patterns : list Pattern) (i : nat) (spacing : Z) (y : Q)
    (id : nat) (blocks : ShieldGenerator.t) :
  let blocks' := fst (ShieldLayout.shields_from patterns i spacing y id blocks) in
  exists new,
    blocks' = blocks ++ new
    /\ length new = sum_list (map set_cells patterns)
    /\ map ShieldBlock.block_id new = seq id (length new)
    /\ Forall pristine new
    /\ (Forall random_pattern_shape patterns ->
        Forall (fun b =>
                  exists k, (i <= k < i + length patterns)%nat
                    /\ (inject_Z ((- 960) / 2 + (Z.of_nat k + 1) * spacing - 75)
                        <= px (ShieldBlock.block_pos b)
                        /\ px (ShieldBlock.block_pos b)
                           <= inject_Z ((- 960) / 2 + (Z.of_nat k + 1) * spacing + 50)
                        /\ y + 25 <= py (ShieldBlock.block_pos b)
                        /\ py (ShieldBlock.block_pos b) <= y + 100)%Q) new).
Proof.
  revert i id blocks. induction patterns as [| pattern rest IH]; intros i id blocks;
    cbn zeta.
  - cbn. exists []. rewrite app_nil_r. repeat split; auto.
  - cbn [ShieldLayout.shields_from].
    destruct (create_pattern_blocks_spec pattern
                ((- 960) / 2 + (Z.of_nat i + 1) * spacing) y id blocks)
      as (new1 & E1 & Hlen1 & Hid1 & Hids1 & Hp1 & Hb1).
    destruct (ShieldLayout.create_pattern_blocks pattern _ y id blocks) as [blocks1 id1].
    cbn [fst snd] in *. subst blocks1.
    destruct (IH (S i) id1 (blocks ++ new1)) as (new2 & E2 & Hlen2 & Hids2 & Hp2 & Hb2).
    cbn zeta in E2. exists (new1 ++ new2).
    split; [rewrite E2, <- app_assoc; reflexivity |].
    split.
    { rewrite length_app. cbn [map].
      change (sum_list (set_cells pattern :: map set_cells rest))
        with (set_cells pattern + sum_list (map set_cells rest))%nat. lia. }
    split.
    { rewrite map_app, length_app, seq_app, Hids1, Hids2, Hid1. reflexivity. }
    split; [apply Forall_app; auto |].
    intros Hshape. apply Forall_cons in Hshape as [Hs1 Hs2]. apply Forall_app. split.
    + eapply Forall_impl; [exact (Hb1 Hs1) |].
      intros b Hb. exists i. split; [cbn [length]; lia | exact Hb].
    + eapply Forall_impl; [exact (Hb2 Hs2) |].
      intros b (k & Hk & Hb). exists k. split; [cbn [length]; lia | exact Hb].
Qed.

(** X18. The shields after [reset].  With the four patterns of the default
    [NUM_SHIELDS], each of the shape [random_pattern] draws, [reset] leaves
    exactly one block per set cell, all with 3 hit points, active, green and
    visible and with distinct identities; every block lies between x = -363
    and x = 338, inside the walls, and between heights -231 and -156. *)
Theorem shields_reset_layout (patterns : list Pattern) (id : nat)
    (blocks : ShieldGenerator.t) :
  length patterns = 4%nat ->
  Forall random_pattern_shape patterns ->
  let blocks' := fst (ShieldLayout.reset patterns id blocks) in
  length blocks' = sum_list (map set_cells patterns)
  /\ map ShieldBlock.block_id blocks' = seq id (length blocks')
  /\ Forall pristine blocks'
  /\ Forall (fun b =>
               (- (363) <= px (ShieldBlock.block_pos b)
                /\ px (ShieldBlock.block_pos b) <= 338
                /\ - (231) <= py (ShieldBlock.block_pos b)
                /\ py (ShieldBlock.block_pos b) <= - (156))%Q) blocks'.
Proof.
  intros Hfour Hshape. cbn zeta.
  unfold ShieldLayout.reset, ShieldLayout.generate_shields, ShieldGenerator.clear_shields.
  rewrite Hfour.
  destruct (shields_from_spec patterns 0 (960 / (Z.of_nat 4 + 1))
              (WALLS_bottom + SCREEN_HEIGHT * (25 # 100))%Q id [])
    as (new & E & Hlen & Hids & Hp & Hb).
  cbn zeta in E. rewrite E. cbn [app].
  split; [exact Hlen |]. split; [exact Hids |]. split; [exact Hp |].
  eapply Forall_impl; [exact (Hb Hshape) |].
  intros b (k & Hk & Hx1 & Hx2 & Hy1 & Hy2). rewrite Hfour in Hk.
  change (960 / (Z.of_nat 4 + 1)) with 192 in Hx1, Hx2.
  change ((- 960) / 2) with (- 480) in Hx1, Hx2.
  assert (Hy : (WALLS_bottom + SCREEN_HEIGHT * (25 # 100) == - (256))%Q) by reflexivity.
  assert (Hlo : (inject_Z (- 363) <= inject_Z (- 480 + (Z.of_nat k + 1) * 192 - 75))%Q)
    by (rewrite <- Zle_Qle; lia).
  assert (Hhi : (inject_Z (- 480 + (Z.of_nat k + 1) * 192 + 50) <= inject_Z 338)%Q)
    by (rewrite <- Zle_Qle; lia).
  unfold inject_Z at 1 in Hlo. unfold inject_Z at 2 in Hhi.
  repeat split; lra.
Qed.

(** The sample patterns have 27 set cells. *)
Lemma shields_reset_layout_witness :
  length (fst (ShieldLayout.reset sample_patterns 50 adjacent_blocks)) = 27%nat.
Proof.
  refine (eq_trans
            (proj1 (shields_reset_layout sample_patterns 50 adjacent_blocks eq_refl _))
            eq_refl).
  unfold sample_patterns.
  constructor; [split; [cbn; lia | exists 3%nat; split; [lia | repeat constructor]] |].
  constructor; [split; [cbn; lia | exists 4%nat; split; [lia | repeat constructor]] |].
  constructor; [split; [cbn; lia | exists 3%nat; split; [lia | repeat constructor]] |].
  constructor; [split; [cbn; lia | exists 6%nat; split; [lia | repeat constructor]] |].
  constructor.
Defined.

(** ** Difficulty scaling *)

Lemma py_max_is_max (a b : Q) : is_max (py_max a b) a b.
Proof.
  unfold py_max, is_max. destruct (Qltb a b) eqn:E.
  - apply Qltb_lt in E. repeat split; try lra; right; reflexivity.
  - unfold Qltb in E. rewrite negb_false_iff in E. apply Qle_bool_iff in E.
    repeat split; try lra; left; reflexivity.
Qed.

Lemma py_min_is_min (a b : Q) : is_min (py_min a b) a b.
Proof.
  unfold py_min, is_min. destruct (Qltb b a) eqn:E.
  - apply Qltb_lt in E. repeat split; try lra; right; reflexivity.
  - unfold Qltb in E. rewrite negb_false_iff in E. apply Qle_bool_iff in E.
    repeat split; try lra; left; reflexivity.
Qed.

Lemma tier_factor_bounds (d : Difficulty) : (0 < tier_factor d /\ tier_factor d < 1)%Q.
Proof. destruct d; cbn; lra. Qed.

Lemma tier_increment_pos (d : Difficulty) : (0 < tier_increment d)%Q.
Proof. destruct d; cbn; lra. Qed.

Lemma geometric_bounds (f : Q) (n : nat) :
  (0 < f /\ f < 1)%Q -> (0 < geometric f n /\ geometric f n <= 1)%Q.
Proof.
  intros Hf. induction n as [| n IH]; cbn [geometric]; [lra | nra].
Qed.

Lemma increase_difficulty_step (d : Difficulty) (lm : LevelManager.t) (a : Aliens.t) :
  LevelManager.difficulty lm = Some d ->
  let lm' := fst (LevelManager.increase_difficulty lm a) in
  let a' := snd (LevelManager.increase_difficulty lm a) in
  LevelManager.difficulty lm' = Some d
  /\ LevelManager.speed_factor lm' = tier_factor d
  /\ LevelManager.shot_increment lm' = tier_increment d
  /\ is_max (Aliens.movement_speed a')
       (Aliens.movement_speed a * tier_factor d) (5 # 100)
  /\ is_min (Aliens.shooting_chance a')
       (Aliens.shooting_chance a + tier_increment d) (2 # 10)
  /\ Aliens.aliens a' = Aliens.aliens a
  /\ Aliens.enemy_lasers a' = Aliens.enemy_lasers a
  /\ Aliens.is_running a' = Aliens.is_running a.
Proof.
  intros Hd. cbn zeta. unfold LevelManager.increase_difficulty. rewrite Hd.
  destruct d; cbn [fst snd LevelManager.difficulty LevelManager.speed_factor
                   LevelManager.shot_increment with_difficulty_settings
                   Aliens.movement_speed Aliens.shooting_chance Aliens.aliens
                   Aliens.enemy_lasers Aliens.is_running tier_factor tier_increment];
    (split; [reflexivity |]); repeat split;
    try apply py_max_is_max; try apply py_min_is_min.
Qed.

Lemma increase_difficulty_levels (d : Difficulty) (m : nat) (lm : LevelManager.t)
    (a : Aliens.t) :
  LevelManager.difficulty lm = Some d ->
  let lm' := fst (increase_difficulty_n (S m) lm a) in
  let a' := snd (increase_difficulty_n (S m) lm a) in
  LevelManager.difficulty lm' = Some d
  /\ LevelManager.speed_factor lm' = tier_factor d
  /\ LevelManager.shot_increment lm' = tier_increment d
  /\ is_max (Aliens.movement_speed a')
       (Aliens.movement_speed a * geometric (tier_factor d) (S m)) (5 # 100)
  /\ is_min (Aliens.shooting_chance a')
       (Aliens.shooting_chance a + inject_Z (Z.of_nat (S m)) * tier_increment d) (2 # 10)
  /\ Aliens.aliens a' = Aliens.aliens a
  /\ Aliens.enemy_lasers a' = Aliens.enemy_lasers a
  /\ Aliens.is_running a' = Aliens.is_running a.
Proof.
  revert lm a. induction m as [| m IH]; intros lm a Hd; cbn zeta.
  - cbn [increase_difficulty_n].
    destruct (increase_difficulty_step d lm a Hd)
      as (H1 & H2 & H3 & Hmax & Hmin & H6 & H7 & H8). cbn zeta in *.
    destruct (LevelManager.increase_difficulty lm a) as [lm1 a1]. cbn [fst snd] in *.
    repeat split; auto; unfold is_max, is_min in *; cbn [geometric];
      change (inject_Z (Z.of_nat 1)) with 1%Q; lra.
  - change (increase_difficulty_n (S (S m)) lm a)
      with (let '(lm1, a1) := LevelManager.increase_difficulty lm a in
            increase_difficulty_n (S m) lm1 a1).
    destruct (increase_difficulty_step d lm a Hd)
      as (H1 & H2 & H3 & Hmax & Hmin & H6 & H7 & H8). cbn zeta in *.
    destruct (LevelManager.increase_difficulty lm a) as [lm1 a1]. cbn [fst snd] in *.
    destruct (IH lm1 a1 H1) as (I1 & I2 & I3 & Imax & Imin & I6 & I7 & I8).
    cbn zeta in *.
    destruct (increase_difficulty_n (S m) lm1 a1) as [lm' a']. cbn [fst snd] in *.
    split; [exact I1 |]. split; [exact I2 |]. split; [exact I3 |].
    pose proof (tier_factor_bounds d) as Hf.
    pose proof (tier_increment_pos d) as Hi.
    pose proof (geometric_bounds (tier_factor d) (S m) Hf) as Hg.
    assert (Hn : (inject_Z (Z.of_nat (S (S m))) == inject_Z (Z.of_nat (S m)) + 1)%Q).
    { rewrite (Nat2Z.inj_succ (S m)). unfold Z.succ. rewrite inject_Z_plus. reflexivity. }
    assert (Hm0 : (0 <= inject_Z (Z.of_nat (S m)))%Q).
    { change 0%Q with (inject_Z 0). rewrite <- Zle_Qle. lia. }
    change (geometric (tier_factor d) (S (S m)))
      with (tier_factor d * geometric (tier_factor d) (S m))%Q.
    set (f := tier_factor d) in *. set (g := geometric f (S m)) in *.
    set (i := tier_increment d) in *. set (k := inject_Z (Z.of_nat (S m))) in *.
    set (s0 := Aliens.movement_speed a) in *. set (s1 := Aliens.movement_speed a1) in *.
    set (c0 := Aliens.shooting_chance a) in *. set (c1 := Aliens.shooting_chance a1) in *.
    set (r := Aliens.movement_speed a') in *. set (q := Aliens.shooting_chance a') in *.
    split; [| split; [| repeat split; congruence]].
    + unfold is_max in *.
      destruct Hmax as (M1 & M2 & [M3 | M3]); destruct Imax as (J1 & J2 & [J3 | J3]).
      * split; [nra |]. split; [lra |]. left. rewrite J3, M3. ring.
      * split; [nra |]. split; [lra |]. right. exact J3.
      * split; [nra |]. split; [lra |]. right. nra.
      * split; [nra |]. split; [lra |]. right. exact J3.
    + unfold is_min in *. rewrite Hn.
      destruct Hmin as (M1 & M2 & [M3 | M3]); destruct Imin as (J1 & J2 & [J3 | J3]).
      * split; [nra |]. split; [lra |]. left. rewrite J3, M3. ring.
      * split; [nra |]. split; [lra |]. right. exact J3.
      * split; [nra |]. split; [lra |]. right. nra.
      * split; [nra |]. split; [lra |]. right. exact J3.
Qed.

(** X19. Difficulty after [n] level changes.  With a difficulty tier chosen,
    [n >= 1] calls of [increase_difficulty] leave the movement interval at
    the larger of the floor 0.05 and the old interval times the tier's
    factor to the [n]-th power, and the shooting chance at the smaller of
    the ceiling 0.2 and the old chance plus [n] times the tier's increment;
    the aliens, their lasers and the running flag are not touched. *)
Theorem difficulty_after_levels (d : Difficulty) (n : nat) (lm : LevelManager.t)
    (a : Aliens.t) :
  LevelManager.difficulty lm = Some d ->
  (0 < n)%nat ->
  let lm' := fst (increase_difficulty_n n lm a) in
  let a' := snd (increase_difficulty_n n lm a) in
  LevelManager.difficulty lm' = Some d
  /\ is_max (Aliens.movement_speed a')
       (Aliens.movement_speed a * geometric (tier_factor d) n) (5 # 100)
  /\ is_min (Aliens.shooting_chance a')
       (Aliens.shooting_chance a + inject_Z (Z.of_nat n) * tier_increment d) (2 # 10)
  /\ Aliens.aliens a' = Aliens.aliens a
  /\ Aliens.enemy_lasers a' = Aliens.enemy_lasers a
  /\ Aliens.is_running a' = Aliens.is_running a.
Proof.
  intros Hd Hn. destruct n as [| m]; [lia |].
  destruct (increase_difficulty_levels d m lm a Hd)
    as (H1 & _ & _ & H4 & H5 & H6 & H7 & H8).
  cbn zeta in *. repeat split; try assumption; try apply H4; try apply H5.
Qed.

(** X20. A level change with no tier chosen.  When the level manager's
    difficulty is none of the three tiers, [increase_difficulty] looks
    nothing up: the level manager is unchanged and its stored factor is
    reused, so the movement interval becomes the larger of the interval
    times that factor and 0.05; with the factor 0 of a new level manager
    the interval drops to the floor 0.05 at the first level change. *)
Theorem difficulty_without_tier (lm : LevelManager.t) (a : Aliens.t) :
  LevelManager.difficulty lm = None ->
  fst (LevelManager.increase_difficulty lm a) = lm
  /\ is_max (Aliens.movement_speed (snd (LevelManager.increase_difficulty lm a)))
       (Aliens.movement_speed a * LevelManager.speed_factor lm) (5 # 100)
  /\ (LevelManager.speed_factor lm = 0%Q ->
      Aliens.movement_speed (snd (LevelManager.increase_difficulty lm a)) = (5 # 100)%Q).
Proof.
  intros Hd. unfold LevelManager.increase_difficulty. rewrite Hd.
  cbn [fst snd with_difficulty_settings Aliens.movement_speed].
  split; [reflexivity |]. split; [apply py_max_is_max |].
  intros ->. unfold py_max.
  replace (Qltb (Aliens.movement_speed a * 0) (5 # 100)) with true; [reflexivity |].
  symmetry. apply Qltb_lt. lra.
Qed.

(** A new level manager and a swarm moving every 80 ms. *)
Lemma difficulty_without_tier_witness :
  Aliens.movement_speed
    (snd (LevelManager.increase_difficulty LevelManager.init swarm_at_right_edge))
  = (5 # 100)%Q.
Proof.
  exact (proj2 (proj2 (difficulty_without_tier LevelManager.init swarm_at_right_edge
                         eq_refl)) eq_refl).
Defined.

Lemma difficulty_after_levels_witness :
  is_max (Aliens.movement_speed
            (snd (increase_difficulty_n 3 (LevelManager.mk (Some hard) 0 0)
                    swarm_at_right_edge)))
    (Aliens.movement_speed swarm_at_right_edge * geometric (tier_factor hard) 3) (5 # 100).
Proof.
  exact (proj1 (proj2 (difficulty_after_levels hard 3 (LevelManager.mk (Some hard) 0 0)
                         swarm_at_right_edge eq_refl ltac:(lia)))).
Defined.

(** ** The boss's pass *)

Lemma boss_move_step (width : Z) (b : BossShip.t) (timers : list Z) :
  let b' := fst (BossMotion.move width (b, timers)) in
  let timers' := snd (BossMotion.move width (b, timers)) in
  BossShip.moving_right b' = BossShip.moving_right b
  /\ BossShip.boss_id b' = BossShip.boss_id b
  /\ py (BossShip.boss_pos b') = py (BossShip.boss_pos b)
  /\ (BossShip.active b = false -> b' = b /\ timers' = timers)
  /\ (BossShip.active b = true ->
      px (BossShip.boss_pos b')
      = (px (BossShip.boss_pos b) + (if BossShip.moving_right b then 5 else - (5)))%Q
      /\ (BossShip.active b' = true ->
          BossShip.shown b' = BossShip.shown b
          /\ timers' = timers ++ [20]
          /\ ((inject_Z (BossMotion.left_edge width) <= px (BossShip.boss_pos b'))%Q
              \/ BossShip.moving_right b = true)
          /\ ((px (BossShip.boss_pos b') <= inject_Z (BossMotion.right_edge width))%Q
              \/ BossShip.moving_right b = false))
      /\ (BossShip.active b' = false -> BossShip.shown b' = false /\ timers' = timers))
  /\ (length timers' <= S (length timers))%nat.
Proof.
  cbn zeta. unfold BossMotion.move.
  destruct b as [id pos shown [] mr]; cbn [BossShip.active negb].
  2: { cbn. repeat split; auto; try discriminate. }
  destruct mr; cbn [BossMotion.setx BossShip.moving_right BossShip.boss_pos
                    BossShip.boss_id BossShip.shown px py andb negb orb].
  - rewrite orb_false_r.
    destruct (Qltb _ _) eqn:E; cbn.
    + repeat split; auto; try discriminate.
    + unfold Qltb in E. rewrite negb_false_iff in E. apply Qle_bool_iff in E.
      repeat split; auto; try discriminate; try (rewrite length_app; cbn; lia).
  - destruct (Qltb _ _) eqn:E; cbn.
    + repeat split; auto; try discriminate.
    + unfold Qltb in E. rewrite negb_false_iff in E. apply Qle_bool_iff in E.
      repeat split; auto; try discriminate; try (rewrite length_app; cbn; lia).
Qed.

Lemma boss_moves (width : Z) (b0 : BossShip.t) (t0 : list Z) (j : nat) :
  BossShip.active b0 = true ->
  let b := fst (Nat.iter j (BossMotion.move width) (b0, t0)) in
  let timers := snd (Nat.iter j (BossMotion.move width) (b0, t0)) in
  BossShip.moving_right b = BossShip.moving_right b0
  /\ py (BossShip.boss_pos b) = py (BossShip.boss_pos b0)
  /\ (BossShip.active b = true ->
      BossShip.shown b = BossShip.shown b0
      /\ (px (BossShip.boss_pos b)
          == px (BossShip.boss_pos b0)
             + (if BossShip.moving_right b0 then 5 else - (5)) * inject_Z (Z.of_nat j))%Q
      /\ timers = t0 ++ repeat 20 j
      /\ ((0 < j)%nat ->
          if BossShip.moving_right b0
          then (px (BossShip.boss_pos b) <= inject_Z (BossMotion.right_edge width))%Q
          else (inject_Z (BossMotion.left_edge width) <= px (BossShip.boss_pos b))%Q))
  /\ (BossShip.active b = false -> BossShip.shown b = false)
  /\ (length timers <= length t0 + j)%nat.
Proof.
  intros Ha0. induction j as [| j IH]; cbn zeta.
  - cbn. split; [reflexivity |]. split; [reflexivity |]. split.
    + intros _. split; [reflexivity |]. split; [ring |].
      split; [rewrite app_nil_r; reflexivity | lia].
    + split; [congruence | lia].
  - rewrite Nat.iter_succ. cbn zeta in IH.
    destruct (Nat.iter j (BossMotion.move width) (b0, t0)) as [b t]. cbn [fst snd] in IH.
    destruct IH as (Hmr & Hy & Hact & Hin & Hlen).
    destruct (boss_move_step width b t) as (Smr & _ & Sy & Sin & Sact & Slen).
    cbn zeta in *.
    destruct (BossMotion.move width (b, t)) as [b' t']. cbn [fst snd] in *.
    split; [congruence |]. split; [congruence |].
    destruct (BossShip.active b) eqn:Eb.
    + destruct (Hact eq_refl) as (Hsh & Hx & Ht & _).
      destruct (Sact eq_refl) as (Sx & Son & Soff).
      split.
      * intros Ha'. destruct (Son Ha') as (Ssh & St & Sl & Sr).
        split; [congruence |]. split.
        -- rewrite Sx, Hx, Hmr, Nat2Z.inj_succ. unfold Z.succ. rewrite inject_Z_plus.
           destruct (BossShip.moving_right b0); ring.
        -- split.
           ++ rewrite St, Ht, <- app_assoc. f_equal.
              change [20] with (repeat 20 1). rewrite <- repeat_app.
              f_equal. lia.
           ++ intros _. rewrite Hmr in Sl, Sr.
              destruct (BossShip.moving_right b0).
              ** destruct Sr as [Sr | Sr]; [exact Sr | discriminate].
              ** destruct Sl as [Sl | Sl]; [exact Sl | discriminate].
      * split; [intros Ha'; apply (Soff Ha') | lia].
    + destruct (Sin eq_refl) as [-> ->].
      split; [congruence |]. split; [intros _; exact (Hin eq_refl) | lia].
Qed.

(** X21. The boss's pass.  [appear] does nothing while the boss is active.
    From an inactive boss it places the boss just outside the chosen edge
    and starts moving; as long as the boss is active after [j] further
    moves it is visible, has advanced by exactly 5 units per move along its
    height, is between the two off-screen edges, and has armed one 20 ms
    timer per move; once 5 units per move exceed the distance between the
    edges the boss is inactive and hidden, and no further timer is armed. *)
Theorem boss_pass (from_left : bool) (width height : Z) (b : BossShip.t)
    (timers : list Z) (j : nat) :
  BossShip.active b = false ->
  let st := Nat.iter j (BossMotion.move width)
              (BossMotion.appear from_left width height (b, timers)) in
  let boss := fst st in
  let start := if from_left then BossMotion.left_edge width
               else BossMotion.right_edge width in
  let step : Q := if from_left then 5%Q else (- (5))%Q in
  (BossShip.active boss = true ->
   BossShip.shown boss = true
   /\ (px (BossShip.boss_pos boss)
       == inject_Z start + step * inject_Z (Z.of_nat (S j)))%Q
   /\ py (BossShip.boss_pos boss) = inject_Z (height / 2 - 40)
   /\ (inject_Z (BossMotion.left_edge width) <= px (BossShip.boss_pos boss)
       /\ px (BossShip.boss_pos boss) <= inject_Z (BossMotion.right_edge width))%Q
   /\ snd st = timers ++ repeat 20 (S j))
  /\ (BossMotion.right_edge width - BossMotion.left_edge width < 5 * Z.of_nat (S j) ->
      BossShip.active boss = false /\ BossShip.shown boss = false)
  /\ (length (snd st) <= length timers + S j)%nat
  /\ (forall active_boss : BossShip.t, BossShip.active active_boss = true ->
        BossMotion.appear from_left width height (active_boss, timers)
        = (active_boss, timers)).
Proof.
  intros Hin. cbn zeta.
  set (b1 := BossShip.mk (BossShip.boss_id b)
               (mkPos (inject_Z (if from_left then BossMotion.left_edge width
                                 else BossMotion.right_edge width))
                      (inject_Z (height / 2 - 40)))
               true true from_left).
  assert (E : Nat.iter j (BossMotion.move width)
                (BossMotion.appear from_left width height (b, timers))
              = Nat.iter (S j) (BossMotion.move width) (b1, timers)).
  { rewrite Nat.iter_succ_r. unfold BossMotion.appear. rewrite Hin. reflexivity. }
  rewrite E.
  destruct (boss_moves width b1 timers (S j) eq_refl) as (Hmr & Hy & Hact & Hoff & Hlen).
  cbn zeta in *. cbn [b1 BossShip.moving_right BossShip.boss_pos BossShip.shown px py]
    in Hmr, Hy, Hact.
  set (boss := fst (Nat.iter (S j) (BossMotion.move width) (b1, timers))) in *.
  assert (Hon : BossShip.active boss = true ->
                BossShip.shown boss = true
                /\ (px (BossShip.boss_pos boss)
                    == inject_Z (if from_left then BossMotion.left_edge width
                                 else BossMotion.right_edge width)
                       + (if from_left then 5 else - (5)) * inject_Z (Z.of_nat (S j)))%Q
                /\ py (BossShip.boss_pos boss) = inject_Z (height / 2 - 40)
                /\ (inject_Z (BossMotion.left_edge width) <= px (BossShip.boss_pos boss)
                    /\ px (BossShip.boss_pos boss)
                       <= inject_Z (BossMotion.right_edge width))%Q
                /\ snd (Nat.iter (S j) (BossMotion.move width) (b1, timers))
                   = timers ++ repeat 20 (S j)).
  { intros Ha. destruct (Hact Ha) as (Hsh & Hx & Ht & Hb). specialize (Hb ltac:(lia)).
    split; [exact Hsh |]. split; [exact Hx |]. split; [exact Hy |]. split; [| exact Ht].
    assert (Hpos : (0 <= inject_Z (Z.of_nat (S j)))%Q).
    { change 0%Q with (inject_Z 0). rewrite <- Zle_Qle. lia. }
    destruct from_left; split; lra. }
  split; [exact Hon |]. split; [| split].
  - intros Hfar.
    destruct (BossShip.active boss) eqn:Ea; [| split; [reflexivity | exact (Hoff eq_refl)]].
    exfalso. destruct (Hon eq_refl) as (_ & Hx & _ & [Hl Hr] & _).
    assert (Hq : (inject_Z (BossMotion.right_edge width - BossMotion.left_edge width)
                  < inject_Z (5 * Z.of_nat (S j)))%Q) by (rewrite <- Zlt_Qlt; exact Hfar).
    rewrite inject_Z_mult in Hq.
    unfold Zminus in Hq. rewrite inject_Z_plus, inject_Z_opp in Hq.
    change (inject_Z 5) with 5%Q in Hq.
    destruct from_left; lra.
  - exact Hlen.
  - intros ab Hab. unfold BossMotion.appear. rewrite Hab. reflexivity.
Qed.

(** A pass from the left across the 960-pixel window: gone after 233 moves. *)
Lemma boss_pass_witness :
  BossShip.active
    (fst (Nat.iter 232 (BossMotion.move 960)
            (BossMotion.appear true 960 1024
               (BossShip.mk 3 (mkPos 10000 10000) false false true, []))))
  = false.
Proof.
  refine (proj1 (proj1 (proj2 (boss_pass true 960 1024
                                 (BossShip.mk 3 (mkPos 10000 10000) false false true)
                                 [] 232 eq_refl)) _)).
  vm_compute. reflexivity.
Defined.

(** ** The ships over a whole game *)

Lemma ships_safe_on_active_ship (f : SpaceShip.t -> SpaceShip.t)
    (c1 c2 : Z) (g : ScreenGame.t) :
  (forall c s, ship_safe c s -> ship_safe c (f s)) ->
  ships_safe c1 c2 g -> ships_safe c1 c2 (ScreenGame.on_active_ship f g).
Proof.
  intros Hf [H1 H2]. unfold ships_safe, ScreenGame.on_active_ship.
  destruct (ScreenGame.active_is_player1 g); cbn; auto.
Qed.

Lemma ships_safe_fold {A : Type} (f : ScreenGame.t -> A -> ScreenGame.t) (l : list A)
    (c1 c2 : Z) :
  (forall g x, ships_safe c1 c2 g -> ships_safe c1 c2 (f g x)) ->
  forall g, ships_safe c1 c2 g -> ships_safe c1 c2 (fold_left f l g).
Proof.
  intros Hf. induction l as [| x l IH]; intros g Hg; cbn; [exact Hg |].
  apply IH, Hf, Hg.
Qed.

Lemma start_position_in_bounds (s : SpaceShip.t) :
  ship_in_bounds (SpaceShip.reset_ship_position s).
Proof.
  unfold ship_in_bounds, SpaceShip.reset_ship_position. cbn.
  split; vm_compute; discriminate.
Qed.

Lemma ship_safe_same (c : Z) (s s' : SpaceShip.t) :
  SpaceShip.ship_pos s' = SpaceShip.ship_pos s ->
  SpaceShip.score s <= SpaceShip.score s' ->
  SpaceShip.lives s' <= Z.max (SpaceShip.lives s) MAX_LIVES ->
  ship_safe c s -> ship_safe c s'.
Proof.
  unfold ship_safe, ship_in_bounds. intros -> Hs Hl (Hb & Hc & Hm).
  split; [exact Hb |]. lia.
Qed.

Lemma ship_safe_handle_hit (c : Z) (s : SpaceShip.t) :
  ship_safe c s -> ship_safe c (SpaceShip.handle_hit s).
Proof.
  intros (Hb & Hc & Hm). split; [apply start_position_in_bounds |].
  cbn. lia.
Qed.

Lemma ship_safe_reset (c : Z) (s : SpaceShip.t) :
  ship_safe c s -> ship_safe c (SpaceShip.reset_ship_position s).
Proof.
  intros (Hb & Hc & Hm). split; [apply start_position_in_bounds |].
  cbn. lia.
Qed.

Lemma ship_safe_score_update (c : Z) (s : SpaceShip.t) :
  ship_safe c s -> ship_safe c (ScreenGame.score_update s).
Proof.
  apply ship_safe_same; unfold ScreenGame.score_update; cbn zeta;
    repeat case_match; cbn in *; unfold POINTS_PER_ENEMY, MAX_LIVES in *;
    try reflexivity; lia.
Qed.

Lemma ship_safe_apply_move (m : Move) (c : Z) (s : SpaceShip.t) :
  ship_safe c s -> ship_safe c (apply_move m s).
Proof.
  intros (Hb & Hc & Hm). split.
  - destruct m; cbn; auto using go_right_in_bounds, go_left_in_bounds.
  - destruct m; cbn; [unfold SpaceShip.go_right | unfold SpaceShip.go_left];
      case_match; cbn; lia.
Qed.

Lemma ships_safe_switch_player (c1 c2 : Z) (g : ScreenGame.t) :
  ships_safe c1 c2 g -> ships_safe c1 c2 (ScreenGame.switch_player g).
Proof.
  intros Hg. unfold ScreenGame.switch_player. cbv zeta.
  match goal with
  | |- context [ScreenGame.on_active_ship ?f ?g0] =>
      assert (Hs : ships_safe c1 c2 (ScreenGame.on_active_ship f g0))
  end.
  { apply ships_safe_on_active_ship; [| exact Hg].
    intros c s. apply ship_safe_same; reflexivity || (cbn; lia). }
  match goal with
  | Hs : ships_safe _ _ ?g1 |- _ => generalize dependent g1
  end.
  intros g1 [H1 H2]. case_match.
  - unfold ScreenGame.show_turn_transition. cbn [ScreenGame.transition_running].
    destruct H2 as (Hb & Hc & Hm).
    destruct (ScreenGame.transition_running g1);
      (split; cbn; [exact H1 |]; split; [| cbn; lia];
       exact (start_position_in_bounds (ScreenGame.player2_ship g1))).
  - split; cbn.
    + revert H1. apply ship_safe_same; reflexivity || (cbn; lia).
    + revert H2. apply ship_safe_same; reflexivity || (cbn; lia).
Qed.

Lemma ships_safe_tick_body (step : ScreenGame.t -> ScreenGame.t)
    (c1 c2 : Z) (g : ScreenGame.t) :
  step ∈ ScreenGame.tick_body -> ships_safe c1 c2 g -> ships_safe c1 c2 (step g).
Proof.
  unfold ScreenGame.tick_body. intros Hin Hg.
  assert (Hlasers : forall ls g0, ships_safe c1 c2 g0 ->
            ships_safe c1 c2 (ScreenGame.on_active_ship (SpaceShip.with_lasers ls) g0)).
  { intros ls g0. apply ships_safe_on_active_ship.
    intros c s. apply ship_safe_same; reflexivity || (cbn; lia). }
  assert (Hdeact : forall laser g0, ships_safe c1 c2 g0 ->
            ships_safe c1 c2 (ScreenGame.deactivate_player_laser laser g0)).
  { intros laser g0. unfold ScreenGame.deactivate_player_laser.
    apply ships_safe_on_active_ship.
    intros c s. apply ship_safe_same; reflexivity || (cbn; lia). }
  assert (Hscore : forall g0, ships_safe c1 c2 g0 ->
            ships_safe c1 c2 (ScreenGame.update_active_player_score g0)).
  { intros g0. apply ships_safe_on_active_ship. intros c s. apply ship_safe_score_update. }
  repeat (apply elem_of_cons in Hin as [-> | Hin]); try (inversion Hin; fail).
  - exact Hg.
  - revert Hg. apply ships_safe_on_active_ship.
    intros c s. apply ship_safe_same; reflexivity || (cbn; lia).
  - exact Hg.
  - unfold ScreenGame.check_player_hit. apply ships_safe_fold; [| exact Hg].
    intros g0 [laser ship] H0.
    assert (H1 : ships_safe c1 c2
                   (ScreenGame.on_active_ship SpaceShip.handle_hit
                      (ScreenGame.deactivate_enemy_laser laser g0))).
    { apply ships_safe_on_active_ship; [intros c s; apply ship_safe_handle_hit |].
      exact H0. }
    case_match; [apply ships_safe_switch_player |]; exact H1.
  - unfold ScreenGame.check_enemy_hit. apply ships_safe_fold; [| exact Hg].
    intros g0 [laser alien] H0. apply Hscore.
    exact (Hdeact laser g0 H0).
  - unfold ScreenGame.shields_vs_player_lasers. case_match.
    exact (Hlasers _ _ Hg).
  - unfold ScreenGame.shields_vs_enemy_lasers. case_match. exact Hg.
  - exact Hg.
  - unfold ScreenGame.check_laser_collisions. apply ships_safe_fold; [| exact Hg].
    intros g0 [p e] H0. exact (Hdeact p g0 H0).
  - unfold ScreenGame.check_boss_hit. case_match; [exact Hg |].
    apply ships_safe_fold; [| exact Hg].
    intros g0 [laser boss] H0. unfold ScreenGame.boss_destroyed. apply Hscore.
    apply ships_safe_on_active_ship.
    { intros c s. apply ship_safe_same; try reflexivity; cbn;
        unfold BOSS_BONUS_POINTS; lia. }
    exact (Hdeact laser g0 H0).
  - unfold ScreenGame.change_level. case_match; exact Hg.
Qed.

Lemma ships_safe_steps (steps : list (ScreenGame.t -> ScreenGame.t))
    (c1 c2 : Z) (g : ScreenGame.t) :
  (forall step, step ∈ steps -> forall g, ships_safe c1 c2 g -> ships_safe c1 c2 (step g)) ->
  ships_safe c1 c2 g ->
  ships_safe c1 c2 (fold_left (fun g step => step g) steps g).
Proof.
  revert g. induction steps as [| step rest IH]; intros g Hsteps Hg; cbn; [exact Hg |].
  apply IH.
  - intros s Hs. apply Hsteps, list_elem_of_further, Hs.
  - apply Hsteps; [apply list_elem_of_here | exact Hg].
Qed.

Lemma ships_safe_ontimer (cb : Callback) (ms : Z) (c1 c2 : Z) (g : ScreenGame.t) :
  ships_safe c1 c2 g -> ships_safe c1 c2 (ScreenGame.ontimer cb ms g).
Proof.
  intros H. exact H.
Qed.

Lemma ships_safe_game_loop (fault : option nat) (c1 c2 : Z) (g : ScreenGame.t) :
  ships_safe c1 c2 g -> ships_safe c1 c2 (ScreenGame.game_loop fault g).
Proof.
  intros Hg. unfold ScreenGame.game_loop.
  assert (Hbody : forall n, ships_safe c1 c2
                    (fold_left (fun g step => step g) (take n ScreenGame.tick_body) g)).
  { intros n. apply ships_safe_steps; [| exact Hg]. intros step Hin g0.
    apply ships_safe_tick_body. exact (subseteq_take n _ _ Hin). }
  pose proof (Hbody (length ScreenGame.tick_body)) as Hall.
  rewrite take_ge in Hall by lia.
  destruct (negb (ScreenGame.paused g) && ScreenGame.canvas_exists g);
    [| apply ships_safe_ontimer, Hg].
  destruct fault as [k |].
  - destruct (Nat.ltb_spec k (length ScreenGame.tick_body)) as [Hk | Hk].
    + rewrite run_steps_fault by exact Hk. apply Hbody.
    + rewrite run_steps_late by exact Hk. apply ships_safe_ontimer, Hall.
  - rewrite run_steps_no_fault. apply ships_safe_ontimer, Hall.
Qed.

Lemma ships_safe_event (e : GameEvent) (c1 c2 : Z)
    (g : ScreenGame.t) (lm : LevelManager.t) :
  ships_safe c1 c2 g -> ships_safe c1 c2 (fst (apply_game_event e (g, lm))).
Proof.
  intros Hg. destruct e as [m | fault | fault | fault patterns id | cb rnd];
    cbn [apply_game_event].
  - cbn [fst]. revert Hg. apply ships_safe_on_active_ship.
    intros c s. apply ship_safe_apply_move.
  - cbn [fst]. apply ships_safe_game_loop, Hg.
  - cbn [fst]. unfold Window.toggle_pause. cbv zeta.
    case_match; [exact Hg |]. apply ships_safe_game_loop. exact Hg.
  - unfold Window.resume_game.
    destruct (LevelManager.increase_difficulty lm (ScreenGame.aliens g)) as [lm' a].
    cbv zeta.
    destruct (ShieldLayout.generate_shields _ _ _) as [blocks next]. cbn [fst].
    apply ships_safe_game_loop.
    assert (Hr : ships_safe c1 c2
                   (Window.reset_player_ship (ScreenGame.with_aliens a g))).
    { apply ships_safe_on_active_ship; [intros c s; apply ship_safe_reset | exact Hg]. }
    exact Hr.
  - destruct (Aliens.fire_callback cb rnd _) as [a scr]. exact Hg.
Qed.

(** X22. The ships over a whole game.  Whatever sequence of events reaches the
    game (steps of the ship's movement loop, [game_loop] timers with or
    without a rendering error, pause key presses, [resume_game] timers,
    swarm timers), both ships stay within the walls, no ship's score ever
    decreases and no ship ever has more than [MAX_LIVES] lives. *)
Theorem ships_stay_safe (events : list GameEvent)
    (g : ScreenGame.t) (lm : LevelManager.t) :
  ship_in_bounds (ScreenGame.player1_ship g) ->
  ship_in_bounds (ScreenGame.player2_ship g) ->
  SpaceShip.lives (ScreenGame.player1_ship g) <= MAX_LIVES ->
  SpaceShip.lives (ScreenGame.player2_ship g) <= MAX_LIVES ->
  let g' := fst (run_events events (g, lm)) in
  ship_in_bounds (ScreenGame.player1_ship g')
  /\ ship_in_bounds (ScreenGame.player2_ship g')
  /\ SpaceShip.score (ScreenGame.player1_ship g)
     <= SpaceShip.score (ScreenGame.player1_ship g')
  /\ SpaceShip.score (ScreenGame.player2_ship g)
     <= SpaceShip.score (ScreenGame.player2_ship g')
  /\ SpaceShip.lives (ScreenGame.player1_ship g') <= MAX_LIVES
  /\ SpaceShip.lives (ScreenGame.player2_ship g') <= MAX_LIVES.
Proof.
  intros Hb1 Hb2 Hl1 Hl2. cbn zeta.
  assert (Hsafe : ships_safe (SpaceShip.score (ScreenGame.player1_ship g))
                    (SpaceShip.score (ScreenGame.player2_ship g))
                    (fst (run_events events (g, lm)))).
  { assert (H0 : ships_safe (SpaceShip.score (ScreenGame.player1_ship g))
                   (SpaceShip.score (ScreenGame.player2_ship g)) g).
    { split; (split; [assumption | lia]). }
    generalize dependent (SpaceShip.score (ScreenGame.player1_ship g)).
    generalize dependent (SpaceShip.score (ScreenGame.player2_ship g)).
    intros c2 c1 H0. clear Hb1 Hb2 Hl1 Hl2.
    revert g lm H0. unfold run_events.
    induction events as [| e events IH]; intros g lm H0; [exact H0 |].
    cbn [fold_left].
    pose proof (ships_safe_event e c1 c2 g lm H0) as H1.
    destruct (apply_game_event e (g, lm)) as [g1 lm1]. apply IH. exact H1. }
  destruct Hsafe as [(B1 & S1 & L1) (B2 & S2 & L2)]. tauto.
Qed.

(** The opening game through a frame, a step right, a pause and its end, a
    swarm timer and another frame. *)
Lemma ships_stay_safe_witness :
  ship_in_bounds
    (ScreenGame.player1_ship
       (fst (run_events
               [LoopTimer None; ShipStep MoveRight; PauseKey None; PauseKey None;
                SwarmTimer (cb_movement 1) sure_shot; LoopTimer (Some 4%nat)]
               (opening_game, LevelManager.init)))).
Proof.
  refine (proj1 (ships_stay_safe
                   [LoopTimer None; ShipStep MoveRight; PauseKey None; PauseKey None;
                    SwarmTimer (cb_movement 1) sure_shot; LoopTimer (Some 4%nat)]
                   opening_game LevelManager.init _ _ _ _)).
  - split; vm_compute; discriminate.
  - split; vm_compute; discriminate.
  - vm_compute. discriminate.
  - vm_compute. discriminate.
Defined.

(** ** The level over the frames *)

Lemma kept_fold {A B : Type} (view : ScreenGame.t -> B)
    (f : ScreenGame.t -> A -> ScreenGame.t) (l : list A) :
  (forall g x, view (f g x) = view g) ->
  forall g, view (fold_left f l g) = view g.
Proof.
  intros Hf. induction l as [| x l IH]; intros g; cbn; [reflexivity |].
  rewrite IH. apply Hf.
Qed.

Lemma kept_steps {B : Type} (view : ScreenGame.t -> B)
    (steps : list (ScreenGame.t -> ScreenGame.t)) (g : ScreenGame.t) :
  (forall step, step ∈ steps -> forall g, view (step g) = view g) ->
  view (fold_left (fun g step => step g) steps g) = view g.
Proof.
  revert g. induction steps as [| step rest IH]; intros g Hsteps; cbn; [reflexivity |].
  rewrite IH.
  - apply Hsteps, list_elem_of_here.
  - intros s Hs. apply Hsteps, list_elem_of_further, Hs.
Qed.

Lemma level_on_active_ship (f : SpaceShip.t -> SpaceShip.t) (g : ScreenGame.t) :
  (ScreenGame.level (ScreenGame.on_active_ship f g),
   resumes (ScreenGame.on_active_ship f g))
  = (ScreenGame.level g, resumes g).
Proof.
  unfold resumes, ScreenGame.on_active_ship.
  destruct (ScreenGame.active_is_player1 g); reflexivity.
Qed.

Lemma level_switch_player (g : ScreenGame.t) :
  (ScreenGame.level (ScreenGame.switch_player g), resumes (ScreenGame.switch_player g))
  = (ScreenGame.level g, resumes g).
Proof.
  unfold ScreenGame.switch_player. cbv zeta.
  match goal with
  | |- context [ScreenGame.on_active_ship ?f ?g0] =>
      pose proof (level_on_active_ship f g0) as E;
      generalize dependent (ScreenGame.on_active_ship f g0)
  end.
  intros g1 E.
  change ((ScreenGame.level g1, resumes g1) = (ScreenGame.level g, resumes g)) in E.
  case_match; rewrite <- E.
  - unfold resumes, ScreenGame.ontimer, ScreenGame.show_turn_transition.
    cbn [ScreenGame.transition_running].
    destruct (ScreenGame.transition_running g1);
      cbn [ScreenGame.screen ScreenGame.level ScreenGame.ontimer
           ScreenGame.with_transition_running];
      rewrite ?armed_ontimer, ?decide_False by discriminate; f_equal; lia.
  - unfold resumes, ScreenGame.end_game, ScreenGame.clear_all, ScreenGame.explosion.
    cbn [ScreenGame.screen ScreenGame.level ScreenGame.ontimer ScreenGame.with_aliens
         ScreenGame.with_paused].
    rewrite armed_ontimer, decide_False by discriminate. f_equal. lia.
Qed.

(** The statements of the tick body before the level change keep the level
    and arm no [resume_game] timer. *)
Lemma level_tick_front (step : ScreenGame.t -> ScreenGame.t) (g : ScreenGame.t) :
  step ∈ take 10 ScreenGame.tick_body ->
  (ScreenGame.level (step g), resumes (step g)) = (ScreenGame.level g, resumes g).
Proof.
  unfold ScreenGame.tick_body. cbn [take]. intros Hin.
  assert (Hdeact : forall laser g0,
            (ScreenGame.level (ScreenGame.deactivate_player_laser laser g0),
             resumes (ScreenGame.deactivate_player_laser laser g0))
            = (ScreenGame.level g0, resumes g0)).
  { intros laser g0. apply level_on_active_ship. }
  repeat (apply elem_of_cons in Hin as [-> | Hin]); try (inversion Hin; fail).
  - reflexivity.
  - apply level_on_active_ship.
  - reflexivity.
  - unfold ScreenGame.check_player_hit.
    apply (kept_fold (fun g => (ScreenGame.level g, resumes g))).
    intros g0 [laser ship]. case_match.
    + rewrite level_switch_player, level_on_active_ship. reflexivity.
    + rewrite level_on_active_ship. reflexivity.
  - unfold ScreenGame.check_enemy_hit.
    apply (kept_fold (fun g => (ScreenGame.level g, resumes g))).
    intros g0 [laser alien]. unfold ScreenGame.update_active_player_score.
    rewrite level_on_active_ship. exact (Hdeact laser g0).
  - unfold ScreenGame.shields_vs_player_lasers. case_match.
    exact (level_on_active_ship (SpaceShip.with_lasers l) g).
  - unfold ScreenGame.shields_vs_enemy_lasers. case_match. reflexivity.
  - reflexivity.
  - unfold ScreenGame.check_laser_collisions.
    apply (kept_fold (fun g => (ScreenGame.level g, resumes g))).
    intros g0 [p e]. exact (Hdeact p g0).
  - unfold ScreenGame.check_boss_hit. case_match; [reflexivity |].
    apply (kept_fold (fun g => (ScreenGame.level g, resumes g))).
    intros g0 [laser boss]. unfold ScreenGame.boss_destroyed,
      ScreenGame.update_active_player_score.
    rewrite !level_on_active_ship. exact (Hdeact laser g0).
Qed.

Lemma level_game_loop (fault : option nat) (g : ScreenGame.t) :
  let g' := ScreenGame.game_loop fault g in
  (ScreenGame.level g' = ScreenGame.level g /\ resumes g' = resumes g
   /\ (ScreenGame.paused g = true ->
       ScreenGame.paused g' = true /\ ScreenGame.aliens g' = ScreenGame.aliens g))
  \/ (ScreenGame.paused g = false
      /\ ScreenGame.level g' = ScreenGame.level g + 1
      /\ resumes g' = S (resumes g)
      /\ ScreenGame.paused g' = true
      /\ Aliens.aliens (ScreenGame.aliens g') = []).
Proof.
  cbn zeta. unfold ScreenGame.game_loop.
  assert (Htimer : forall g0,
            resumes (ScreenGame.ontimer cb_game_loop 20 g0) = resumes g0).
  { intros g0. unfold resumes, ScreenGame.ontimer. cbn [ScreenGame.screen].
    rewrite armed_ontimer, decide_False by discriminate. lia. }
  destruct (ScreenGame.paused g) eqn:Ep; cbn [negb andb].
  { left. rewrite Htimer. repeat split; reflexivity || exact Ep. }
  destruct (ScreenGame.canvas_exists g).
  2:{ left. rewrite Htimer. repeat split; try reflexivity; discriminate. }
  assert (Hfront : forall n,
            (ScreenGame.level (fold_left (fun g step => step g)
                                 (take n (take 10 ScreenGame.tick_body)) g),
             resumes (fold_left (fun g step => step g)
                        (take n (take 10 ScreenGame.tick_body)) g))
            = (ScreenGame.level g, resumes g)).
  { intros n. apply (kept_steps (fun g => (ScreenGame.level g, resumes g))).
    intros step Hin g0. apply level_tick_front. exact (subseteq_take n _ _ Hin). }
  assert (Hall : exists g10,
            fold_left (fun g step => step g) ScreenGame.tick_body g
            = ScreenGame.change_level g10
            /\ ScreenGame.level g10 = ScreenGame.level g
            /\ resumes g10 = resumes g).
  { exists (fold_left (fun g step => step g) (take 10 ScreenGame.tick_body) g).
    split; [reflexivity |].
    pose proof (Hfront 10%nat) as E. rewrite take_take in E.
    change (10 `min` 10)%nat with 10%nat in E. inversion E. auto. }
  assert (Hdone :
    let g' := ScreenGame.ontimer cb_game_loop 20
                (fold_left (fun g step => step g) ScreenGame.tick_body g) in
    (ScreenGame.level g' = ScreenGame.level g /\ resumes g' = resumes g
     /\ (false = true ->
         ScreenGame.paused g' = true /\ ScreenGame.aliens g' = ScreenGame.aliens g))
    \/ (false = false
        /\ ScreenGame.level g' = ScreenGame.level g + 1
        /\ resumes g' = S (resumes g)
        /\ ScreenGame.paused g' = true
        /\ Aliens.aliens (ScreenGame.aliens g') = [])).
  { cbn zeta. rewrite Htimer. destruct Hall as (g10 & -> & El & Er).
    unfold ScreenGame.change_level.
    destruct (bool_decide (Aliens.aliens (ScreenGame.aliens g10) = [])) eqn:Ea;
      cbn [andb].
    - destruct (ScreenGame.paused g10) eqn:Ep10; cbn [negb].
      + left. cbn. repeat split; auto; discriminate.
      + right. apply bool_decide_eq_true in Ea.
        assert (Hr : resumes (ScreenGame.next_level (ScreenGame.with_paused true g10))
                     = S (resumes g10)).
        { unfold ScreenGame.next_level, resumes.
          cbn [ScreenGame.ontimer ScreenGame.with_paused ScreenGame.with_level
               ScreenGame.screen].
          rewrite armed_ontimer, decide_True by reflexivity. lia. }
        rewrite Hr, Er, <- El. repeat split; auto.
    - left. cbn. repeat split; auto; discriminate. }
  destruct fault as [k |].
  - destruct (Nat.ltb_spec k (length ScreenGame.tick_body)) as [Hk | Hk].
    + rewrite run_steps_fault by exact Hk. left.
      assert (E : take k ScreenGame.tick_body = take k (take 10 ScreenGame.tick_body)).
      { rewrite take_take. f_equal. cbn in Hk. lia. }
      rewrite E. pose proof (Hfront k) as F. inversion F as [[F1 F2]].
      rewrite F1, F2. repeat split; auto; discriminate.
    + rewrite run_steps_late by exact Hk. exact Hdone.
  - rewrite run_steps_no_fault. exact Hdone.
Qed.

(** X23. The level over the frames.  However many [game_loop] timers fire in
    a row (each with or without a rendering error), the level advances at
    most once: either the level and the number of armed [resume_game] timers
    are as before, or the level is one higher, exactly one [resume_game]
    timer has been armed, the swarm is empty and the game is paused. *)
Theorem level_advances_at_most_once (faults : list (option nat)) (g : ScreenGame.t) :
  let g' := fold_left (fun g fault => ScreenGame.game_loop fault g) faults g in
  (ScreenGame.level g' = ScreenGame.level g /\ resumes g' = resumes g)
  \/ (ScreenGame.level g' = ScreenGame.level g + 1
      /\ resumes g' = S (resumes g)
      /\ ScreenGame.paused g' = true
      /\ Aliens.aliens (ScreenGame.aliens g') = []).
Proof.
  cbn zeta.
  assert (Hinv : forall g1,
            (ScreenGame.level g1 = ScreenGame.level g /\ resumes g1 = resumes g)
            \/ (ScreenGame.level g1 = ScreenGame.level g + 1
                /\ resumes g1 = S (resumes g)
                /\ ScreenGame.paused g1 = true
                /\ Aliens.aliens (ScreenGame.aliens g1) = []) ->
            let g' := fold_left (fun g fault => ScreenGame.game_loop fault g) faults g1 in
            (ScreenGame.level g' = ScreenGame.level g /\ resumes g' = resumes g)
            \/ (ScreenGame.level g' = ScreenGame.level g + 1
                /\ resumes g' = S (resumes g)
                /\ ScreenGame.paused g' = true
                /\ Aliens.aliens (ScreenGame.aliens g') = [])).
  { induction faults as [| fault faults IH]; intros g1 H1; [exact H1 |].
    cbn [fold_left]. apply IH.
    pose proof (level_game_loop fault g1) as Hstep. cbn zeta in Hstep.
    generalize dependent (ScreenGame.game_loop fault g1). intros g2 Hstep.
    destruct H1 as [[L1 R1] | (L1 & R1 & P1 & A1)],
             Hstep as [(L2 & R2 & K2) | (P2 & L2 & R2 & Q2 & A2)].
    - left. split; congruence.
    - right. repeat split; congruence.
    - right. destruct (K2 P1) as [Kp Ka]. repeat split; congruence.
    - congruence. }
  apply Hinv. left. split; reflexivity.
Qed.

(** ** Pause, turn change and level change *)

Lemma loops_game_loop_completed (g : ScreenGame.t) :
  loops (ScreenGame.game_loop None g) = S (loops g).
Proof.
  unfold ScreenGame.game_loop.
  assert (Hloop : forall g', loops (ScreenGame.ontimer cb_game_loop 20 g') = S (loops g')).
  { intros g'. rewrite loops_ontimer, decide_True by reflexivity. lia. }
  destruct (negb (ScreenGame.paused g) && ScreenGame.canvas_exists g); [| apply Hloop].
  rewrite run_steps_no_fault, Hloop. f_equal.
  apply loops_steps. intros step Hin g0. apply loops_tick_body, Hin.
Qed.

(** X24. The pause key.  On a running game [toggle_pause] only sets the pause
    flag: nothing else changes and no timer is armed.  On a paused game it
    clears the flag and runs [game_loop] at once; so pausing and resuming a
    running game amounts to one extra invocation of [game_loop], which,
    when nothing raises, arms one more [game_loop] timer. *)
Theorem pause_and_resume (fault fault' : option nat) (g : ScreenGame.t) :
  ScreenGame.paused g = false ->
  Window.toggle_pause fault g = ScreenGame.with_paused true g
  /\ Window.toggle_pause fault' (Window.toggle_pause fault g)
     = ScreenGame.game_loop fault' g
  /\ loops (Window.toggle_pause fault g) = loops g
  /\ loops (Window.toggle_pause None (Window.toggle_pause fault g)) = S (loops g).
Proof.
  intros Hp.
  assert (E1 : Window.toggle_pause fault g = ScreenGame.with_paused true g).
  { unfold Window.toggle_pause. rewrite Hp. reflexivity. }
  assert (E2 : forall f, Window.toggle_pause f (ScreenGame.with_paused true g)
                         = ScreenGame.game_loop f g).
  { intros f. unfold Window.toggle_pause. destruct g. cbn in Hp. subst. reflexivity. }
  rewrite E1, !E2. repeat split. apply loops_game_loop_completed.
Qed.

(** Pausing and resuming the opening game. *)
Lemma pause_and_resume_witness :
  loops (Window.toggle_pause None (Window.toggle_pause None opening_game))
  = S (loops opening_game).
Proof.
  exact (proj2 (proj2 (proj2 (pause_and_resume None None opening_game eq_refl)))).
Defined.

(** X25. The turn change.  [switch_player] leaves the game paused, with no
    aliens, no enemy lasers, no shield blocks and no player lasers, and the
    swarm stopped; the lives and scores of both ships and the level are
    untouched.  From player 1 the turn passes to player 2, whose ship is
    shown at the start position while player 1's is hidden; the timers
    armed are the first [fade_out] of the turn message after 500 ms, unless
    a fade was already running, and then [start_player2_turn] after
    2000 ms, and the fade flag is set.  From player 2 the game ends: both
    ships are hidden, the boss is inactive and the only timer armed is the
    100 ms timer of the explosion [end_game] creates; the turn never
    returns to player 1. *)
Theorem switch_player_outcome (g : ScreenGame.t) :
  let g' := ScreenGame.switch_player g in
  ScreenGame.paused g' = true
  /\ Aliens.aliens (ScreenGame.aliens g') = []
  /\ Aliens.enemy_lasers (ScreenGame.aliens g') = []
  /\ Aliens.is_running (ScreenGame.aliens g') = false
  /\ ScreenGame.shields g' = []
  /\ SpaceShip.lasers (ScreenGame.player1_ship g') = []
  /\ SpaceShip.lasers (ScreenGame.player2_ship g') = []
  /\ SpaceShip.lives (ScreenGame.player1_ship g') = SpaceShip.lives (ScreenGame.player1_ship g)
  /\ SpaceShip.lives (ScreenGame.player2_ship g') = SpaceShip.lives (ScreenGame.player2_ship g)
  /\ SpaceShip.score (ScreenGame.player1_ship g') = SpaceShip.score (ScreenGame.player1_ship g)
  /\ SpaceShip.score (ScreenGame.player2_ship g') = SpaceShip.score (ScreenGame.player2_ship g)
  /\ ScreenGame.level g' = ScreenGame.level g
  /\ ScreenGame.active_is_player1 g' = false
  /\ (ScreenGame.active_is_player1 g = true ->
      SpaceShip.shown (ScreenGame.player1_ship g') = false
      /\ SpaceShip.shown (ScreenGame.player2_ship g') = true
      /\ SpaceShip.ship_pos (ScreenGame.player2_ship g')
         = mkPos 0 (WALLS_bottom + SpaceShip.bottom_margin)%Q
      /\ ScreenGame.boss_ship g' = ScreenGame.boss_ship g
      /\ ScreenGame.transition_running g' = true
      /\ ScreenGame.screen g'
         = ScreenGame.screen g
           ++ (if ScreenGame.transition_running g then []
               else [(cb_fade_out 0, 500)])
           ++ [(cb_start_player2_turn, 2000)])
  /\ (ScreenGame.active_is_player1 g = false ->
      SpaceShip.shown (ScreenGame.player1_ship g') = false
      /\ SpaceShip.shown (ScreenGame.player2_ship g') = false
      /\ BossShip.active (ScreenGame.boss_ship g') = false
      /\ ScreenGame.transition_running g' = ScreenGame.transition_running g
      /\ ScreenGame.screen g' = ScreenGame.screen g ++ [(cb_play_animation, 100)]).
Proof.
  destruct g as [p1 p2 [] a sh b lv pa st cv scr tr]; cbn.
  - destruct tr; cbn; rewrite <- ?app_assoc; repeat split; discriminate.
  - destruct b as [bid bpos bshown [] bmr]; cbn; repeat split; discriminate.
Qed.

(** X26. The level change.  [resume_game] hands to [game_loop] a game that is
    not paused, whose level and timers are as before, whose active ship is
    at the start position without lasers, whose shields are exactly the
    blocks of the patterns drawn, and whose swarm has the new speed and
    shooting chance, no enemy lasers, and the 55 aliens of a new grid
    appended to the aliens it had (none, when the level change follows the
    last kill).  The swarm's running flag and timer generations are not
    touched: its loops are not restarted. *)
Theorem resume_game_prepares_level (fault : option nat) (patterns : list Pattern)
    (id : nat) (g : ScreenGame.t) (lm : LevelManager.t) :
  exists ready new,
    Window.resume_game fault patterns id (g, lm)
    = (ScreenGame.game_loop fault ready,
       fst (LevelManager.increase_difficulty lm (ScreenGame.aliens g)))
    /\ ScreenGame.paused ready = false
    /\ ScreenGame.level ready = ScreenGame.level g
    /\ ScreenGame.screen ready = ScreenGame.screen g
    /\ ScreenGame.active_is_player1 ready = ScreenGame.active_is_player1 g
    /\ SpaceShip.ship_pos (ScreenGame.active_ship ready)
       = mkPos 0 (WALLS_bottom + SpaceShip.bottom_margin)%Q
    /\ SpaceShip.lasers (ScreenGame.active_ship ready) = []
    /\ SpaceShip.lives (ScreenGame.active_ship ready)
       = SpaceShip.lives (ScreenGame.active_ship g)
    /\ SpaceShip.score (ScreenGame.active_ship ready)
       = SpaceShip.score (ScreenGame.active_ship g)
    /\ ScreenGame.shields ready
       = fst (ShieldLayout.generate_shields patterns (id + 55) [])
    /\ Aliens.aliens (ScreenGame.aliens ready) = Aliens.aliens (ScreenGame.aliens g) ++ new
    /\ map Alien.alien_id new = seq id 55
    /\ map Alien.alien_pos new = AlienGrid.grid_positions
    /\ Aliens.enemy_lasers (ScreenGame.aliens ready) = []
    /\ Aliens.is_running (ScreenGame.aliens ready)
       = Aliens.is_running (ScreenGame.aliens g)
    /\ Aliens.movement_timer_id (ScreenGame.aliens ready)
       = Aliens.movement_timer_id (ScreenGame.aliens g)
    /\ Aliens.shooting_timer_id (ScreenGame.aliens ready)
       = Aliens.shooting_timer_id (ScreenGame.aliens g)
    /\ Aliens.movement_speed (ScreenGame.aliens ready)
       = Aliens.movement_speed
           (snd (LevelManager.increase_difficulty lm (ScreenGame.aliens g)))
    /\ Aliens.shooting_chance (ScreenGame.aliens ready)
       = Aliens.shooting_chance
           (snd (LevelManager.increase_difficulty lm (ScreenGame.aliens g))).
Proof.
  unfold Window.resume_game.
  destruct (LevelManager.increase_difficulty lm (ScreenGame.aliens g)) as [lm' a] eqn:Ed.
  assert (Ea : Aliens.aliens a = Aliens.aliens (ScreenGame.aliens g)
               /\ Aliens.is_running a = Aliens.is_running (ScreenGame.aliens g)
               /\ Aliens.movement_timer_id a = Aliens.movement_timer_id (ScreenGame.aliens g)
               /\ Aliens.shooting_timer_id a = Aliens.shooting_timer_id (ScreenGame.aliens g)).
  { unfold LevelManager.increase_difficulty in Ed. inversion Ed. repeat split. }
  destruct Ea as (Eal & Erun & Emov & Esh).
  cbv zeta.
  assert (Eg : ScreenGame.aliens (Window.reset_player_ship (ScreenGame.with_aliens a g)) = a).
  { unfold Window.reset_player_ship, ScreenGame.on_active_ship.
    destruct g as [p1 p2 [] a0 sh b lv pa st cv scr tr]; reflexivity. }
  rewrite Eg.
  destruct (place_aliens_props AlienGrid.grid_positions id a)
    as ((_ & _ & _ & Hsp & _ & Hch & Hrun & Hmov & Hshoot) & new & Hnew & Hid & Hpos & _).
  cbn zeta in Hsp, Hch, Hrun, Hmov, Hshoot, Hnew.
  fold (AlienGrid.generate_grid id a) in Hsp, Hch, Hrun, Hmov, Hshoot, Hnew.
  generalize dependent (AlienGrid.generate_grid id a).
  intros grid Hsp Hch Hrun Hmov Hshoot Hnew.
  assert (Hlen : length AlienGrid.grid_positions = 55%nat) by reflexivity.
  rewrite Hlen in *.
  destruct (ShieldLayout.generate_shields patterns (id + 55) _) as [blocks next] eqn:Es.
  eexists. exists new. split; [reflexivity |].
  cbn [fst snd].
  assert (Hsh : blocks = fst (ShieldLayout.generate_shields patterns (id + 55) [])).
  { unfold ShieldGenerator.clear_shields in Es. rewrite Es. reflexivity. }
  destruct g as [p1 p2 [] a0 sh b lv pa st cv scr tr]; cbn in *;
    repeat split; congruence.
Qed.

(** ** The high score *)

Lemma load_after_save (score : Z) (file : ScoreFile) :
  HighScore.load_high_score (HighScore.save_high_score score file)
  = Some (json_int score).
Proof.
  unfold HighScore.load_high_score, HighScore.save_high_score.
  rewrite lookup_singleton_eq. reflexivity.
Qed.

Lemma update_hi_score_spec (sb : ScoreBoard.t) :
  let sb' := ScoreBoard.update_hi_score sb in
  ScoreBoard.player1_score sb' = ScoreBoard.player1_score sb
  /\ ScoreBoard.player2_score sb' = ScoreBoard.player2_score sb
  /\ ScoreBoard.player1_lives sb' = ScoreBoard.player1_lives sb
  /\ ScoreBoard.player2_lives sb' = ScoreBoard.player2_lives sb
  /\ ScoreBoard.hi_score sb'
     = Z.max (Z.max (ScoreBoard.player1_score sb) (ScoreBoard.player2_score sb))
             (ScoreBoard.hi_score sb)
  /\ (persisted sb -> persisted sb').
Proof.
  cbn zeta. unfold ScoreBoard.update_hi_score, persisted.
  destruct (Z.ltb_spec (ScoreBoard.hi_score sb)
              (Z.max (Z.max (ScoreBoard.player1_score sb) (ScoreBoard.player2_score sb))
                     (ScoreBoard.hi_score sb))) as [Hlt | Hge];
    cbn [ScoreBoard.player1_score ScoreBoard.player2_score ScoreBoard.player1_lives
         ScoreBoard.player2_lives ScoreBoard.hi_score ScoreBoard.file].
  - repeat split. intros _. left. apply load_after_save.
  - repeat split; auto; lia.
Qed.

Lemma max_into_foldr (s h : Z) (l : list Z) :
  foldr Z.max (Z.max s h) l = Z.max s (foldr Z.max h l).
Proof.
  induction l as [| x l IH]; cbn; [reflexivity |]. rewrite IH. lia.
Qed.

Lemma score_calls_hi (calls : list ScoreCall) (sb : ScoreBoard.t) :
  persisted sb ->
  ScoreBoard.player1_score sb <= ScoreBoard.hi_score sb ->
  ScoreBoard.player2_score sb <= ScoreBoard.hi_score sb ->
  0 <= ScoreBoard.hi_score sb ->
  let sb' := fold_left (fun sb c => apply_score_call c sb) calls sb in
  persisted sb'
  /\ ScoreBoard.player1_score sb' <= ScoreBoard.hi_score sb'
  /\ ScoreBoard.player2_score sb' <= ScoreBoard.hi_score sb'
  /\ ScoreBoard.hi_score sb' = foldr Z.max (ScoreBoard.hi_score sb) (scores_set calls).
Proof.
  revert sb. induction calls as [| c calls IH]; intros sb Hp H1 H2 H0; cbn zeta.
  - cbn. auto.
  - cbn [fold_left].
    assert (Hstep : persisted (apply_score_call c sb)
                    /\ ScoreBoard.player1_score (apply_score_call c sb)
                       <= ScoreBoard.hi_score (apply_score_call c sb)
                    /\ ScoreBoard.player2_score (apply_score_call c sb)
                       <= ScoreBoard.hi_score (apply_score_call c sb)
                    /\ 0 <= ScoreBoard.hi_score (apply_score_call c sb)
                    /\ foldr Z.max (ScoreBoard.hi_score (apply_score_call c sb))
                         (scores_set calls)
                       = foldr Z.max (ScoreBoard.hi_score sb) (scores_set (c :: calls))).
    { destruct c as [s | s | p l |]; cbn [apply_score_call scores_set omap].
      - unfold ScoreBoard.set_player1_score.
        match goal with |- context [ScoreBoard.update_hi_score ?x] =>
          destruct (update_hi_score_spec x) as (E1 & E2 & _ & _ & Eh & Ep) end.
        cbn zeta in *. cbn in E1, E2, Eh. rewrite E1, E2, Eh.
        split; [apply Ep, Hp |]. repeat split; try lia.
        replace (Z.max (Z.max s (ScoreBoard.player2_score sb)) (ScoreBoard.hi_score sb))
          with (Z.max s (ScoreBoard.hi_score sb)) by lia.
        apply max_into_foldr.
      - unfold ScoreBoard.set_player2_score.
        match goal with |- context [ScoreBoard.update_hi_score ?x] =>
          destruct (update_hi_score_spec x) as (E1 & E2 & _ & _ & Eh & Ep) end.
        cbn zeta in *. cbn in E1, E2, Eh. rewrite E1, E2, Eh.
        split; [apply Ep, Hp |]. repeat split; try lia.
        replace (Z.max (Z.max (ScoreBoard.player1_score sb) s) (ScoreBoard.hi_score sb))
          with (Z.max s (ScoreBoard.hi_score sb)) by lia.
        apply max_into_foldr.
      - unfold ScoreBoard.update_lives. destruct (p =? 1); cbn; auto.
      - cbn. auto. }
    destruct Hstep as (Sp & S1 & S2 & S0 & Sh).
    destruct (IH (apply_score_call c sb) Sp S1 S2 S0) as (Ip & I1 & I2 & Ih).
    cbn zeta in Ip, I1, I2, Ih.
    split; [exact Ip |]. split; [exact I1 |]. split; [exact I2 |].
    rewrite Ih. exact Sh.
Qed.

(** A scoreboard as [__init__] returns it. *)
Lemma init_spec (lives : Z) (file : ScoreFile) (sb0 : ScoreBoard.t) :
  ScoreBoard.init lives file = Some sb0 ->
  persisted sb0
  /\ ScoreBoard.player1_score sb0 = 0 /\ ScoreBoard.player2_score sb0 = 0
  /\ 0 <= ScoreBoard.hi_score sb0
  /\ (forall n, HighScore.load_high_score file = Some (json_int n) ->
        ScoreBoard.hi_score sb0 = Z.max 0 n).
Proof.
  unfold ScoreBoard.init.
  destruct (HighScore.load_high_score file) as [[n | b | q | [] | | | s | |] |] eqn:El;
    try discriminate.
  - intros [= <-].
    destruct (update_hi_score_spec (ScoreBoard.mk 0 0 n lives lives file))
      as (E1 & E2 & _ & _ & Eh & Ep).
    cbn zeta in *. cbn in E1, E2, Eh. rewrite E1, E2, Eh.
    split; [apply Ep; left; exact El |]. repeat split; try lia.
    intros m [= <-]. lia.
  - intros [= <-].
    destruct (update_hi_score_spec (ScoreBoard.mk 0 0 (Z.b2z b) lives lives file))
      as (E1 & E2 & _ & _ & Eh & Ep).
    cbn zeta in *. cbn in E1, E2, Eh. rewrite E1, E2, Eh.
    split; [apply Ep; right; exists b; split; [exact El | reflexivity] |].
    repeat split; try (destruct b; cbn; lia). intros m Hm. discriminate.
  - destruct (Qltb q 0); [| discriminate]. intros [= <-].
    split; [left; apply load_after_save |]. cbn. repeat split; try lia.
    intros m Hm. discriminate.
  - intros [= <-].
    split; [left; apply load_after_save |]. cbn. repeat split; try lia.
    intros m Hm. discriminate.
Qed.

Lemma init_from_persisted (lives : Z) (sb : ScoreBoard.t) :
  persisted sb -> 0 <= ScoreBoard.hi_score sb ->
  ScoreBoard.hi_score <$> ScoreBoard.init lives (ScoreBoard.file sb)
  = Some (ScoreBoard.hi_score sb).
Proof.
  intros [Hp | (b & Hp & Hb)] H0; unfold ScoreBoard.init; rewrite Hp;
    cbn [fmap option_fmap option_map]; f_equal.
  - match goal with |- context [ScoreBoard.update_hi_score ?x] =>
      destruct (update_hi_score_spec x) as (_ & _ & _ & _ & Eh & _) end.
    cbn zeta in Eh. cbn in Eh. rewrite Eh. lia.
  - match goal with |- context [ScoreBoard.update_hi_score ?x] =>
      destruct (update_hi_score_spec x) as (_ & _ & _ & _ & Eh & _) end.
    cbn zeta in Eh. cbn in Eh. rewrite Eh, Hb. destruct b; cbn; lia.
Qed.

(** X27. The high score.  [ScoreBoard.__init__] raises when
    [load_high_score] raises (JSON that is not an object) and when the
    value loaded is null, a string, a list, an object, NaN or a float that
    is not negative; from an integer [n] it returns a scoreboard whose high
    score is the larger of 0 and [n].  Whenever it returns, the high score
    is not negative, and after any sequence of score settings, life updates
    and resets the high score is the largest of its first value and every
    score set since; the high-score file holds that value (as that integer,
    or as the bool it was loaded from), each score is at most the high
    score, and a scoreboard created later from that file starts with the
    same high score: a reset of the scores never lowers it. *)
Theorem high_score_is_persistent_maximum (lives lives' : Z) (file : ScoreFile)
    (calls : list ScoreCall) :
  (HighScore.load_high_score file = None -> ScoreBoard.init lives file = None)
  /\ (forall v, HighScore.load_high_score file = Some v ->
        v = json_null \/ v = json_array \/ v = json_dict \/ v = json_nan
        \/ (exists s, v = json_string s)
        \/ (exists q, v = json_float q /\ (0 <= q)%Q)
        \/ v = json_infinity false ->
        ScoreBoard.init lives file = None)
  /\ (forall n, HighScore.load_high_score file = Some (json_int n) ->
        exists sb0, ScoreBoard.init lives file = Some sb0
                    /\ ScoreBoard.hi_score sb0 = Z.max 0 n)
  /\ (forall sb0 : ScoreBoard.t,
        ScoreBoard.init lives file = Some sb0 ->
        let sb := fold_left (fun sb c => apply_score_call c sb) calls sb0 in
        0 <= ScoreBoard.hi_score sb0
        /\ ScoreBoard.hi_score sb
           = foldr Z.max (ScoreBoard.hi_score sb0) (scores_set calls)
        /\ persisted sb
        /\ ScoreBoard.player1_score sb <= ScoreBoard.hi_score sb
        /\ ScoreBoard.player2_score sb <= ScoreBoard.hi_score sb
        /\ ScoreBoard.hi_score <$> ScoreBoard.init lives' (ScoreBoard.file sb)
           = Some (ScoreBoard.hi_score sb)).
Proof.
  split; [| split; [| split]].
  - intros Hl. unfold ScoreBoard.init. rewrite Hl. reflexivity.
  - intros v Hl Hv. unfold ScoreBoard.init. rewrite Hl.
    destruct Hv as [-> | [-> | [-> | [-> | [[s ->] | [(q & -> & Hq) | ->]]]]]];
      try reflexivity.
    replace (Qltb q 0) with false; [reflexivity |].
    symmetry. apply not_true_is_false. rewrite Qltb_lt. lra.
  - intros n Hl.
    destruct (ScoreBoard.init lives file) as [sb0 |] eqn:Ei.
    + exists sb0. split; [reflexivity |].
      exact (proj2 (proj2 (proj2 (proj2 (init_spec lives file sb0 Ei)))) n Hl).
    + unfold ScoreBoard.init in Ei. rewrite Hl in Ei. discriminate.
  - intros sb0 Hinit. cbn zeta.
    destruct (init_spec lives file sb0 Hinit) as (Hp & E1 & E2 & H0 & _).
    destruct (score_calls_hi calls sb0 Hp ltac:(lia) ltac:(lia) H0)
      as (Ip & I1 & I2 & Ih).
    cbn zeta in Ip, I1, I2, Ih.
    split; [exact H0 |]. split; [exact Ih |]. split; [exact Ip |].
    split; [exact I1 |]. split; [exact I2 |].
    apply init_from_persisted; [exact Ip |].
    rewrite Ih. clear -H0. induction (scores_set calls) as [| x l IHl]; cbn; lia.
Qed.

(** No file yet; player 1 reaches 40, the board is reset, player 2 reaches
    20: the high score is 40, also for a scoreboard created afterwards. *)
Lemma high_score_is_persistent_maximum_witness :
  ScoreBoard.hi_score
  <$> ScoreBoard.init 3
        (ScoreBoard.file
           (fold_left (fun sb c => apply_score_call c sb)
              [SetPlayer1 20; SetPlayer1 40; UpdateLives 1 2; ResetBoard; SetPlayer2 20]
              (ScoreBoard.mk 0 0 0 3 3 file_missing)))
  = Some 40.
Proof.
  pose proof (proj2 (proj2 (proj2
                (high_score_is_persistent_maximum 3 3 file_missing
                   [SetPlayer1 20; SetPlayer1 40; UpdateLives 1 2; ResetBoard;
                    SetPlayer2 20])))
                (ScoreBoard.mk 0 0 0 3 3 file_missing) eq_refl) as H.
  cbn zeta in H. destruct H as (_ & _ & _ & _ & _ & H). exact H.
Defined.

(** ** The shooting key *)

(** X28. The shooting key.  After [start_shooting] the ship is shooting, and a
    further [start_shooting] (the key repeating while held) changes nothing:
    it fires no laser and arms no second timer.  A first [start_shooting]
    arms exactly one [shoot_loop] timer of 100 ms and adds at most one
    laser.  After [stop_shooting] a [shoot_loop] callback still pending
    fires no laser and arms no timer. *)
Theorem shooting_key_guards (now now' : Q) (fresh fresh' : nat) (st : ShootLoop.state) :
  let st1 := ShootLoop.start_shooting now fresh st in
  SpaceShip.shooting (fst st1) = true
  /\ ShootLoop.start_shooting now' fresh' st1 = st1
  /\ (SpaceShip.shooting (fst st) = false ->
      snd st1 = snd st ++ [100]
      /\ exists new, SpaceShip.lasers (fst st1) = SpaceShip.lasers (fst st) ++ new
                     /\ (length new <= 1)%nat)
  /\ (let st2 := ShootLoop.shoot_loop now' fresh' (ShootLoop.stop_shooting st1) in
      SpaceShip.lasers (fst st2) = SpaceShip.lasers (fst st1)
      /\ snd st2 = snd st1
      /\ SpaceShip.shooting (fst st2) = false).
Proof.
  destruct st as [s timers]. cbn zeta.
  assert (Hfire : forall t i s0,
            SpaceShip.shooting (SpaceShip.fire t i s0) = SpaceShip.shooting s0
            /\ exists new, SpaceShip.lasers (SpaceShip.fire t i s0)
                           = SpaceShip.lasers s0 ++ new /\ (length new <= 1)%nat).
  { intros t i s0. unfold SpaceShip.fire. case_match; cbn.
    - split; [reflexivity |]. eexists. split; [reflexivity |]. cbn. lia.
    - split; [reflexivity |]. exists []. rewrite app_nil_r. split; [reflexivity |].
      cbn. lia. }
  assert (Hshoot : SpaceShip.shooting
                     (fst (ShootLoop.start_shooting now fresh (s, timers))) = true).
  { unfold ShootLoop.start_shooting. destruct (SpaceShip.shooting s) eqn:Es; cbn [negb].
    - exact Es.
    - cbn. rewrite (proj1 (Hfire now fresh (ShootLoop.with_shooting true true s))).
      reflexivity. }
  split; [exact Hshoot |]. split.
  { destruct (ShootLoop.start_shooting now fresh (s, timers)) as [s1 t1].
    cbn [fst] in Hshoot. unfold ShootLoop.start_shooting. rewrite Hshoot. reflexivity. }
  split.
  { cbn [fst snd]. intros Es. unfold ShootLoop.start_shooting. rewrite Es. cbn.
    split; [reflexivity |].
    destruct (Hfire now fresh (ShootLoop.with_shooting true true s)) as (_ & new & E & Hl).
    exists new. split; [exact E | exact Hl]. }
  destruct (ShootLoop.start_shooting now fresh (s, timers)) as [s1 t1].
  cbn. repeat split.
Qed.
